(** * T-Api news engine: normalisation, fingerprinting, de-duplication and
      story clustering

    A shallow embedding of [src/normalization.py], [src/dedupe.py] and
    [src/confirm.py], together with the part of [api/news_fetch.py] that
    builds a record, and the properties of these functions.  Around them:
    the rate limiter of [src/rate_limit.py], the list of origins of
    [src/config.py], the checks of [src/security.py], the opening of the
    request handlers and the collector of [api/news_fetch.py], and the
    interval tables of [api/market_fetch.py].

    Conventions of the embedding.
    - A Python [str] is a Rocq [string]; each character stands for the code
      point of the same number, so the strings of the model are the Python
      strings over U+0000..U+00FF.  Character classes ([str.isspace], the
      [\s] and [\w] classes of [re], [str.lower]) are the Python ones on
      that range.
    - A timezone-aware [datetime] is the instant it denotes, an integer
      number of microseconds since the epoch; [ensure_utc] keeps the instant.
    - A Python [float] is a rational ([Q]): arithmetic is exact, and the
      decimal literals of the source denote the decimal fractions written.
      The exception is the rate limiter, whose one subtraction is rounded
      to binary64 as the interpreter rounds it; and what is stated of the
      score allows for the rounding of its float arithmetic.
    - An exception is [None] in the option monad.
    - The two ambient reads of [src/confirm.py], [datetime.now] and
      [uuid.uuid4], are the fields of a [World] passed to the functions that
      perform them.
    - [rapidfuzz.fuzz.token_sort_ratio] is a library function: the
      definitions take it as a parameter.
    - A dictionary is a finite map; the dictionary of the rate limiter, the
      reading of the monotonic clock and the settings are arguments of the
      functions that use them, and an exception among several is a value of
      a sum type. *)

From Stdlib Require Import ZArith QArith Qround Qabs Qpower Lqa.
From Stdlib Require Import Strings.String Strings.Ascii List Lia.
From stdpp Require Import base option list strings sorting gmap pretty.

(** ** Python string primitives *)

Module PyStr.

Definition ord (c : ascii) : N := N_of_ascii c.

(** [str.isspace] of one character, which is also the class [\s] of [re]
    and the set removed by [str.strip()]. *)
Definition isspace (c : ascii) : bool :=
  let n := ord c in
  (((9 <=? n) && (n <=? 13)) || ((28 <=? n) && (n <=? 32))
   || (n =? 133) || (n =? 160))%N.

Definition lower_char (c : ascii) : ascii :=
  let n := ord c in
  if (((65 <=? n) && (n <=? 90))
      || ((192 <=? n) && (n <=? 222) && negb (n =? 215)))%N
  then ascii_of_N (n + 32) else c.

(** [str.upper] of one character.  Exact on ASCII and on the lower-case
    letters whose capital lies in the modelled range; the source applies it
    to the ASCII pattern literals only. *)
Definition upper_char (c : ascii) : ascii :=
  let n := ord c in
  if (((97 <=? n) && (n <=? 122))
      || ((224 <=? n) && (n <=? 254) && negb (n =? 247)))%N
  then ascii_of_N (n - 32) else c.

Fixpoint map_chars (f : ascii → ascii) (s : string) : string :=
  match s with
  | EmptyString => EmptyString
  | String c s' => String (f c) (map_chars f s')
  end.

Definition lower : string → string := map_chars lower_char.
Definition upper : string → string := map_chars upper_char.

(** [s.lstrip(chars)], [s.rstrip(chars)] and [s.strip(chars)], the set
    [chars] given as a predicate. *)
Fixpoint lstrip_with (p : ascii → bool) (s : string) : string :=
  match s with
  | EmptyString => EmptyString
  | String c s' => if p c then lstrip_with p s' else s
  end.

Fixpoint rstrip_with (p : ascii → bool) (s : string) : string :=
  match s with
  | EmptyString => EmptyString
  | String c s' =>
      match rstrip_with p s' with
      | EmptyString => if p c then EmptyString else String c EmptyString
      | r => String c r
      end
  end.

Definition strip_with (p : ascii → bool) (s : string) : string :=
  rstrip_with p (lstrip_with p s).

Definition strip : string → string := strip_with isspace.

(** [c in chars] for a string of characters. *)
Fixpoint char_in (chars : string) (c : ascii) : bool :=
  match chars with
  | EmptyString => false
  | String d chars' => Ascii.eqb c d || char_in chars' c
  end.

(** [c in s], the same test read as substring membership of one character. *)
Definition contains (s : string) (c : ascii) : bool := char_in s c.

(** [s.find(c)] for one character: [None] is Python's [-1]. *)
Fixpoint find_char (c : ascii) (s : string) : option nat :=
  match s with
  | EmptyString => None
  | String d s' => if Ascii.eqb c d then Some 0 else S <$> find_char c s'
  end.

Fixpoint str_take (n : nat) (s : string) : string :=
  match n, s with
  | S n', String c s' => String c (str_take n' s')
  | _, _ => EmptyString
  end.

Fixpoint str_drop (n : nat) (s : string) : string :=
  match n, s with
  | S n', String _ s' => str_drop n' s'
  | _, _ => s
  end.

Fixpoint all_chars (p : ascii → bool) (s : string) : bool :=
  match s with
  | EmptyString => true
  | String c s' => p c && all_chars p s'
  end.

(** [s.replace(c, "")] for one character. *)
Fixpoint remove_char (c : ascii) (s : string) : string :=
  match s with
  | EmptyString => EmptyString
  | String d s' =>
      if Ascii.eqb c d then remove_char c s' else String d (remove_char c s')
  end.

(** [s.split(c, 1)] when [c] occurs in [s]: the text before the first
    occurrence and the text after it. *)
Definition split_once (c : ascii) (s : string) : option (string * string) :=
  i ← find_char c s; Some (str_take i s, str_drop (S i) s).

Definition startswith (p s : string) : bool := String.prefix p s.

(** [sep.join(parts)]. *)
Fixpoint join (sep : string) (parts : list string) : string :=
  match parts with
  | [] => EmptyString
  | [p] => p
  | p :: rest => p +:+ sep +:+ join sep rest
  end.

(** [s.encode("utf-8")], bytes as numbers below 256. *)
Fixpoint encode_utf8 (s : string) : list Z :=
  match s with
  | EmptyString => []
  | String c s' =>
      let n := Z.of_N (ord c) in
      if (n <? 128)%Z then n :: encode_utf8 s'
      else Z.lor 192 (Z.shiftr n 6) :: Z.lor 128 (Z.land n 63) :: encode_utf8 s'
  end.

End PyStr.

(** ** [hashlib.sha256]: SHA-256 (FIPS 180-4) on 32-bit words *)

Module Sha256.
Local Open Scope Z_scope.

Definition w32 (x : Z) : Z := x mod 2 ^ 32.
Definition add32 (x y : Z) : Z := w32 (x + y).
Definition rotr (n x : Z) : Z := Z.lor (Z.shiftr x n) (w32 (Z.shiftl x (32 - n))).
Definition not32 (x : Z) : Z := w32 (Z.lnot x).

Definition Ch (x y z : Z) : Z := Z.lxor (Z.land x y) (Z.land (not32 x) z).
Definition Maj (x y z : Z) : Z :=
  Z.lxor (Z.lxor (Z.land x y) (Z.land x z)) (Z.land y z).
Definition Sigma0 (x : Z) : Z := Z.lxor (Z.lxor (rotr 2 x) (rotr 13 x)) (rotr 22 x).
Definition Sigma1 (x : Z) : Z := Z.lxor (Z.lxor (rotr 6 x) (rotr 11 x)) (rotr 25 x).
Definition sigma0 (x : Z) : Z := Z.lxor (Z.lxor (rotr 7 x) (rotr 18 x)) (Z.shiftr x 3).
Definition sigma1 (x : Z) : Z := Z.lxor (Z.lxor (rotr 17 x) (rotr 19 x)) (Z.shiftr x 10).

(** The first [n] primes, by trial division among the numbers from 2. *)
Definition is_prime (n : nat) : bool :=
  forallb (λ d, negb (n mod d =? 0)%nat) (seq 2 (n - 2)).

Definition first_primes (n : nat) : list Z :=
  Z.of_nat <$> take n (filter (λ k, is_prime k = true) (seq 2 400)).

(** The integer cube root below [2 ^ 35], bit by bit from the top. *)
Definition icbrt (n : Z) : Z :=
  fold_left (λ r b, let r' := r + 2 ^ Z.of_nat b in if r' ^ 3 <=? n then r' else r)
            (rev (seq 0 35)) 0.

(** The round constants: the first 32 bits of the fractional parts of the
    cube roots of the first 64 primes. *)
Definition K : list Z :=
  Eval vm_compute in (λ p, w32 (icbrt (p * 2 ^ 96))) <$> first_primes 64.

(** The initial hash value: the first 32 bits of the fractional parts of
    the square roots of the first 8 primes. *)
Definition H0 : list Z :=
  Eval vm_compute in (λ p, w32 (Z.sqrt (p * 2 ^ 64))) <$> first_primes 8.

(** The message followed by the bit 1, zero bytes up to 56 modulo 64, and
    the bit length on eight bytes, most significant first. *)
Definition be_bytes (width : nat) (x : Z) : list Z :=
  map (λ i, Z.land (Z.shiftr x (8 * Z.of_nat i)) 255) (rev (seq 0 width)).

Definition pad (msg : list Z) : list Z :=
  let len := Z.of_nat (length msg) in
  msg ++ [128] ++ repeat 0 (Z.to_nat ((55 - len) mod 64)) ++ be_bytes 8 (8 * len).

Fixpoint words_of_bytes (bs : list Z) : list Z :=
  match bs with
  | b0 :: b1 :: b2 :: b3 :: rest =>
      Z.lor (Z.shiftl b0 24) (Z.lor (Z.shiftl b1 16) (Z.lor (Z.shiftl b2 8) b3))
      :: words_of_bytes rest
  | _ => []
  end.

Fixpoint blocks_of (fuel : nat) (ws : list Z) : list (list Z) :=
  match fuel, ws with
  | S fuel', _ :: _ => firstn 16 ws :: blocks_of fuel' (skipn 16 ws)
  | _, _ => []
  end.

Definition word_at (ws : list Z) (i : nat) : Z := nth i ws 0.

(** The 64-word message schedule of one block. *)
Definition schedule (block : list Z) : list Z :=
  fold_left
    (λ W t,
       W ++ [add32 (add32 (sigma1 (word_at W (t - 2))) (word_at W (t - 7)))
                   (add32 (sigma0 (word_at W (t - 15))) (word_at W (t - 16)))])
    (seq 16 48) block.

Definition round (st : list Z) (kw : Z * Z) : list Z :=
  match st with
  | [a; b; c; d; e; f; g; h] =>
      let T1 := add32 (add32 (add32 h (Sigma1 e)) (add32 (Ch e f g) kw.1)) kw.2 in
      let T2 := add32 (Sigma0 a) (Maj a b c) in
      [add32 T1 T2; a; b; c; add32 d T1; e; f; g]
  | _ => st
  end.

Definition compress (H : list Z) (block : list Z) : list Z :=
  zip_with add32 H (fold_left round (zip K (schedule block)) H).

Definition digest_words (msg : list Z) : list Z :=
  let ws := words_of_bytes (pad msg) in
  fold_left compress (blocks_of (length ws) ws) H0.

Definition hex_digit (n : Z) : ascii :=
  if n <? 10 then ascii_of_N (Z.to_N (48 + n)) else ascii_of_N (Z.to_N (87 + n)).

Definition hex_of_word (w : Z) : string :=
  fold_right (λ i acc, String (hex_digit (Z.land (Z.shiftr w (4 * Z.of_nat i)) 15)) acc)
             EmptyString (rev (seq 0 8)).

(** [hashlib.sha256(msg).hexdigest()]. *)
Definition hexdigest (msg : list Z) : string :=
  fold_right (λ w acc, hex_of_word w +:+ acc) EmptyString (digest_words msg).

End Sha256.

(** ** [urllib.parse]: [urlparse] and [urlunparse] *)

Module UrlLib.
Import PyStr.

Record ParseResult := {
  scheme : string;
  netloc : string;
  path : string;
  params : string;
  query : string;
  fragment : string;
}.

Definition uses_netloc : list string :=
  [""; "ftp"; "http"; "gopher"; "nntp"; "telnet"; "imap"; "wais"; "file";
   "mms"; "https"; "shttp"; "snews"; "prospero"; "rtsp"; "rtspu"; "rsync";
   "svn"; "svn+ssh"; "sftp"; "nfs"; "git"; "git+ssh"; "ws"; "wss"].

Definition uses_params : list string :=
  [""; "ftp"; "hdl"; "prospero"; "http"; "imap"; "https"; "shttp"; "rtsp";
   "rtspu"; "sip"; "sips"; "mms"; "sftp"; "tel"].

Definition is_ascii_alpha (c : ascii) : bool :=
  let n := ord c in
  (((65 <=? n) && (n <=? 90)) || ((97 <=? n) && (n <=? 122)))%N.

Definition is_ascii_digit (c : ascii) : bool :=
  let n := ord c in ((48 <=? n) && (n <=? 57))%N.

(** [c in scheme_chars]: ASCII letters, digits and [+-.]. *)
Definition is_scheme_char (c : ascii) : bool :=
  is_ascii_alpha c || is_ascii_digit c || char_in "+-." c.

(** The characters U+0000..U+0020 stripped from the left of a URL. *)
Definition is_c0_or_space (c : ascii) : bool := (ord c <=? 32)%N.

Definition str_in (s : string) (l : list string) : bool :=
  existsb (String.eqb s) l.

(** The scheme, lower-cased, and the text after its colon, when the URL
    starts with a letter and everything before its first colon is a scheme
    character. *)
Definition split_scheme (url : string) : string * string :=
  match find_char ":" url, url with
  | Some (S i), String c0 _ =>
      if is_ascii_alpha c0 && all_chars is_scheme_char (str_take (S i) url)
      then (lower (str_take (S i) url), str_drop (S (S i)) url)
      else (EmptyString, url)
  | _, _ => (EmptyString, url)
  end.

(** [_splitnetloc(url, 2)]: the network location runs from index 2 to the
    first of [/], [?] and [#], or to the end. *)
Fixpoint find_delim (s : string) : nat :=
  match s with
  | EmptyString => 0
  | String c s' => if char_in "/?#" c then 0 else S (find_delim s')
  end.

Definition splitnetloc (url : string) : string * string :=
  let rest := str_drop 2 url in
  let d := find_delim rest in
  (str_take d rest, str_drop d rest).

(** [urlsplit(url)], after CPython 3.11, up to the host validation: [None]
    stands for the [ValueError] raised on a bracket in the network location.
    The library raises it for an unmatched bracket; a matched pair is handed
    to the [ipaddress] module, which is not modelled, so that a network
    location with any bracket is [None] here.  [_checknetloc] never raises
    on code points below 256. *)
Definition urlsplit (url0 : string) : option (string * string * string * string * string) :=
  let url1 := lstrip_with is_c0_or_space url0 in
  let url2 := remove_char "010" (remove_char "013" (remove_char "009" url1)) in
  let '(sch, url3) := split_scheme url2 in
  '(nl, url4) ←
    (if String.eqb (str_take 2 url3) "//"
     then let '(nl, rest) := splitnetloc url3 in
          if contains nl "[" || contains nl "]" then None else Some (nl, rest)
     else Some (EmptyString, url3));
  let '(url5, frag) :=
    match split_once "#" url4 with Some p => p | None => (url4, EmptyString) end in
  let '(url6, qry) :=
    match split_once "?" url5 with Some p => p | None => (url5, EmptyString) end in
  Some (sch, nl, url6, qry, frag).

(** [url.rfind("/")] then [url.find(";", that)]. *)
Fixpoint rfind_char (c : ascii) (s : string) : option nat :=
  match s with
  | EmptyString => None
  | String d s' =>
      match rfind_char c s' with
      | Some i => Some (S i)
      | None => if Ascii.eqb c d then Some 0 else None
      end
  end.

Definition splitparams (url : string) : string * string :=
  match rfind_char "/" url with
  | Some j =>
      match find_char ";" (str_drop j url) with
      | Some k => (str_take (j + k) url, str_drop (S (j + k)) url)
      | None => (url, EmptyString)
      end
  | None =>
      match find_char ";" url with
      | Some i => (str_take i url, str_drop (S i) url)
      | None =>
          (* [i = -1]: [url[:-1]] and [url[0:]]; unreachable from [urlparse],
             which calls [_splitparams] only when [;] occurs *)
          (str_take (String.length url - 1) url, url)
      end
  end.

Definition urlparse (url : string) : option ParseResult :=
  '(sch, nl, u, qry, frag) ← urlsplit url;
  let '(u', prm) :=
    if str_in sch uses_params && contains u ";" then splitparams u
    else (u, EmptyString) in
  Some {| scheme := sch; netloc := nl; path := u'; params := prm;
          query := qry; fragment := frag |}.

Definition nonempty (s : string) : bool := negb (String.eqb s EmptyString).

Definition urlunsplit (sch nl url qry frag : string) : string :=
  let url1 :=
    if nonempty nl
       || (nonempty sch && str_in sch uses_netloc
           && negb (String.eqb (str_take 2 url) "//"))
    then "//" +:+ nl
         +:+ (if nonempty url && negb (String.eqb (str_take 1 url) "/")
              then "/" +:+ url else url)
    else url in
  let url2 := if nonempty sch then sch +:+ ":" +:+ url1 else url1 in
  let url3 := if nonempty qry then url2 +:+ "?" +:+ qry else url2 in
  if nonempty frag then url3 +:+ "#" +:+ frag else url3.

Definition urlunparse (sch nl url prm qry frag : string) : string :=
  urlunsplit sch nl (if nonempty prm then url +:+ ";" +:+ prm else url) qry frag.

End UrlLib.

(** ** [src/normalization.py] *)

Module Normalization.
Import PyStr.

(** [_WHITESPACE_RE.sub(" ", value)]: every maximal run of whitespace
    becomes one space.  [in_run] tells that the previous character was
    whitespace. *)
Fixpoint sub_whitespace (in_run : bool) (value : string) : string :=
  match value with
  | EmptyString => EmptyString
  | String c rest =>
      if isspace c
      then if in_run then sub_whitespace true rest
           else String " " (sub_whitespace true rest)
      else String c (sub_whitespace false rest)
  end.

Definition normalize_text (value : string) : string :=
  if String.eqb value EmptyString then EmptyString
  else strip (sub_whitespace false value).

Definition normalize_title (value : string) : string :=
  lower (normalize_text value).

Definition canonicalize_url (url : string) : option string :=
  parsed ← UrlLib.urlparse url;
  let scheme :=
    if UrlLib.nonempty (UrlLib.scheme parsed) then UrlLib.scheme parsed else "https" in
  let netloc := lower (UrlLib.netloc parsed) in
  let netloc := if startswith "www." netloc then str_drop 4 netloc else netloc in
  let path := if UrlLib.nonempty (UrlLib.path parsed) then UrlLib.path parsed else "/" in
  let query := UrlLib.query parsed in
  Some (UrlLib.urlunparse scheme netloc path "" query "").

(** [ensure_utc] on a timezone-aware value: the same instant. *)
Definition ensure_utc (value : Z) : Z := value.

End Normalization.

(** ** [re.search] for the patterns of [ENTITY_PATTERNS]

    The patterns are literal text and the escape [\b]; they are searched
    with [re.IGNORECASE]. *)

Module Re.
Import PyStr.

Inductive atom :=
  | Boundary
  | Lit (c : ascii).

(** The pattern compiler on this fragment: a backslash followed by [b] is
    the word-boundary assertion, any other character is itself. *)
Fixpoint parse (pattern : string) : list atom :=
  match pattern with
  | String "\" (String "b" rest) => Boundary :: parse rest
  | String c rest => Lit c :: parse rest
  | EmptyString => []
  end.

(** The class [\w]: alphanumeric characters and the underscore. *)
Definition is_word (c : ascii) : bool :=
  let n := ord c in
  (((48 <=? n) && (n <=? 57)) || ((65 <=? n) && (n <=? 90)) || (n =? 95)
   || ((97 <=? n) && (n <=? 122))
   || (n =? 170) || (n =? 178) || (n =? 179) || (n =? 181) || (n =? 185)
   || (n =? 186) || ((188 <=? n) && (n <=? 190))
   || ((192 <=? n) && (n <=? 255) && negb (n =? 215) && negb (n =? 247)))%N.

Definition is_word_opt (c : option ascii) : bool :=
  match c with Some c => is_word c | None => false end.

Definition head_char (s : string) : option ascii :=
  match s with String c _ => Some c | EmptyString => None end.

(** Does the pattern match at the current position?  [prev] is the
    character before the position, if any. *)
Fixpoint match_here (atoms : list atom) (prev : option ascii) (text : string) : bool :=
  match atoms with
  | [] => true
  | Boundary :: atoms' =>
      xorb (is_word_opt prev) (is_word_opt (head_char text))
      && match_here atoms' prev text
  | Lit c :: atoms' =>
      match text with
      | String d text' =>
          Ascii.eqb (lower_char c) (lower_char d) && match_here atoms' (Some d) text'
      | EmptyString => false
      end
  end.

Fixpoint search_from (atoms : list atom) (prev : option ascii) (text : string) : bool :=
  match_here atoms prev text
  || match text with
     | String d text' => search_from atoms (Some d) text'
     | EmptyString => false
     end.

(** [bool(re.search(pattern, text, re.IGNORECASE))]. *)
Definition search (pattern text : string) : bool :=
  search_from (parse pattern) None text.

End Re.

(** ** [src/schemas.py]: the records of the engine

    The models strip the whitespace around every string they are given
    ([anystr_strip_whitespace]); [validated] is that step, applied where the
    source constructs a model. *)

Module Schemas.

Record NewsItem := {
  item_schema_version : Z;
  item_origin : string;
  id_ : string;
  source : string;
  url : string;
  title : string;
  summary : option string;
  published_at : Z;
  fetched_at : Z;
  content_text : string;
  language : string;
  hash : string;
  score_hint : option Q;
}.

(** One entry of [links]: the dictionary with the keys ["source"], ["url"]
    and ["title"]. *)
Record Link := {
  link_source : string;
  link_url : string;
  link_title : string;
}.

Record NewsCluster := {
  schema_version : Z;
  cluster_id : string;
  canonical_title : string;
  cluster_summary : string;
  score : Q;
  source_count : nat;
  entities : list string;
  sentiment_hint : option string;
  first_seen : Z;
  last_seen : Z;
  links : list Link;
}.

Definition validated (s : string) : string := PyStr.strip s.

End Schemas.

(** ** [src/dedupe.py] *)

Module Dedupe.
Import PyStr Normalization Schemas.

Definition compute_hash (title content : string) : string :=
  Sha256.hexdigest (encode_utf8 (normalize_title title +:+ "::" +:+ content)).

Section WithSimilarity.
Variable token_sort_ratio : string → string → Q.

(** The body of the inner loop for one accepted record: [Some true] when
    [item] is a duplicate of [existing]. *)
Definition duplicate_of (existing item : NewsItem) (threshold : Q) : option bool :=
  if String.eqb (hash existing) (hash item) then Some true
  else
    u_existing ← canonicalize_url (url existing);
    u_item ← canonicalize_url (url item);
    if String.eqb u_existing u_item then Some true
    else
      let score :=
        (token_sort_ratio (normalize_title (title existing))
                          (normalize_title (title item)) / 100)%Q in
      Some (Qle_bool threshold score).

(** The inner loop: [result] is scanned in order up to the first record
    that [item] duplicates. *)
Fixpoint scan (result : list NewsItem) (item : NewsItem) (threshold : Q) : option bool :=
  match result with
  | [] => Some false
  | existing :: rest =>
      duplicate_of existing item threshold ≫= λ d : bool,
        if d then Some true else scan rest item threshold
  end.

(** The outer loop, from the accumulator [result]. *)
Fixpoint dedupe_from (result items : list NewsItem) (threshold : Q)
  : option (list NewsItem) :=
  match items with
  | [] => Some result
  | item :: rest =>
      scan result item threshold ≫= λ duplicate : bool,
        dedupe_from (if duplicate then result else result ++ [item]) rest threshold
  end.

Definition dedupe_items (items : list NewsItem) (threshold : Q)
  : option (list NewsItem) :=
  dedupe_from [] items threshold.

End WithSimilarity.
End Dedupe.

(** ** [api/news_fetch.py]: the record built by [hydrate_entry] *)

Module NewsFetch.
Import PyStr Normalization Schemas Dedupe.

(** A feed entry, as [rss.fetch_feed] returns it, and the article that
    [extract_article] returns for its page. *)
Record Entry := {
  entry_id : option string;
  entry_title : option string;
  entry_summary : option string;
  entry_url : string;
  entry_published_at : option Z;
  entry_score_hint : option Q;
}.

Record Article := {
  article_content_text : string;
  article_language : option string;
}.

(** [a or b] on strings that may be absent: the first that is present and
    not empty. *)
Definition truthy (s : option string) : option string :=
  match s with
  | Some t => if String.eqb t EmptyString then None else Some t
  | None => None
  end.

(** [entry.get("title", "")]. *)
Definition title_of (entry : Entry) : string :=
  default EmptyString (entry_title entry).

(** [article.get("content_text") or entry.get("summary") or ""]. *)
Definition content_of (entry : Entry) (article : Article) : string :=
  default EmptyString
    (match truthy (Some (article_content_text article)) with
     | Some c => Some c
     | None => truthy (entry_summary entry)
     end).

(** [hydrate_entry] once its effects are performed: [article] is the
    extracted page, [now] the clock reading and [fresh_id] the identifier
    drawn for an entry without one. *)
Definition hydrate_entry (src : string) (entry : Entry) (article : Article)
    (now : Z) (fresh_id : string) : option NewsItem :=
  url ← canonicalize_url (entry_url entry);
  let fetched_at := ensure_utc now in
  let content := content_of entry article in
  let content_norm := normalize_text content in
  let news_id := default fresh_id (truthy (entry_id entry)) in
  let news_hash := compute_hash (title_of entry) content_norm in
  Some {| item_schema_version := 1;
          item_origin := "news_fetch";
          id_ := validated news_id;
          source := validated src;
          url := validated url;
          title := validated (title_of entry);
          summary := validated <$> entry_summary entry;
          published_at := ensure_utc (default fetched_at (entry_published_at entry));
          fetched_at := fetched_at;
          content_text := validated content_norm;
          language := validated (default "en" (article_language article));
          hash := validated news_hash;
          score_hint := entry_score_hint entry |}.

End NewsFetch.

(** ** [src/confirm.py] *)

Module Confirm.
Import PyStr Normalization Schemas.

(** *** The ambient world: the clock and the identifier generator

    [clock w n] is the value of the [n]-th coming call of [datetime.now],
    [uuids w n] the text of the [n]-th coming [uuid.uuid4()].  A computation
    reads the world, may raise, and leaves the world that remains. *)

Record World := {
  clock : nat → Z;
  uuids : nat → string;
}.

Definition M (A : Type) : Type := World → option (A * World).

Definition ret {A} (a : A) : M A := λ w, Some (a, w).

Definition bind {A B} (m : M A) (k : A → M B) : M B :=
  λ w, match m w with
       | Some (a, w') => k a w'
       | None => None
       end.

(** What a computation returns in the world [w]. *)
Definition result_in {A} (w : World) (m : M A) : option A :=
  match m w with
  | Some (a, _) => Some a
  | None => None
  end.

(** A pure computation that may raise. *)
Definition lift {A} (o : option A) : M A := λ w, (λ a, (a, w)) <$> o.

Notation "'let*' x ':=' m 'in' k" := (bind m (λ x, k))
  (at level 10, x name, m at level 100, k at level 200).

Definition datetime_now : M Z :=
  λ w, Some (clock w 0, {| clock := λ n, clock w (S n); uuids := uuids w |}).

Definition uuid4 : M string :=
  λ w, Some (uuids w 0, {| clock := clock w; uuids := λ n, uuids w (S n) |}).

Fixpoint for_each {A B} (f : A → M B) (l : list A) : M (list B) :=
  match l with
  | [] => ret []
  | a :: l' => let* b := f a in let* bs := for_each f l' in ret (b :: bs)
  end.

(** *** Constants *)

Definition SOURCE_WEIGHTS : gmap string Q :=
  list_to_map
    [("coindesk", 1.0%Q); ("theblock", 1.0%Q); ("blockworks", 1.0%Q);
     ("cryptopanic", 2.0%Q); ("messari", 1.0%Q)].

Definition ENTITY_PATTERNS : list string :=
  ["\bBTC\b"; "\bETH\b"; "\bSOL\b"; "\bXRP\b"; "\bSEC\b"; "\bETF\b";
   "\bhack\b"; "\bfunding rate\b"; "\blisting\b"].

(** *** Built-ins *)

(** [max] and [min] of a sequence whose first element is [x]: an element
    replaces the one held so far when it is strictly better, so that the
    first greatest, resp. least, element is returned. *)
Definition first_best {A} (better : A → A → bool) (x : A) (l : list A) : A :=
  fold_left (λ m y, if better y m then y else m) l x.

Definition py_max_Z (l : list Z) : option Z :=
  match l with
  | [] => None
  | x :: l' => Some (first_best Z.gtb x l')
  end.

Definition py_min_Z (l : list Z) : option Z :=
  match l with
  | [] => None
  | x :: l' => Some (first_best Z.ltb x l')
  end.

Definition Qgtb (x y : Q) : bool := negb (Qle_bool x y).

(** [max(a, b)] on numbers. *)
Definition py_max2 (a b : Q) : Q := first_best Qgtb a [b].

(** [round(x, ndigits)]: to the nearest multiple of [10 ** -ndigits], a tie
    going to the even one. *)
Definition round_half_even (q : Q) : Z :=
  let f := Qfloor q in
  match (q - inject_Z f ?= 1 # 2)%Q with
  | Lt => f
  | Gt => (f + 1)%Z
  | Eq => if Z.even f then f else (f + 1)%Z
  end.

Definition py_round (x : Q) (ndigits : nat) : Q :=
  let p := (10 ^ Z.of_nat ndigits)%Z in
  Qmake (round_half_even (x * inject_Z p)) (Z.to_pos p).

(** [sorted(strings)]. *)
Definition sorted_strings (l : list string) : list string :=
  merge_sort (λ s1 s2 : string, String.leb s1 s2) l.

(** [sorted(items, key=...)]: the stable sort, as insertion from the right;
    an element goes before the first element whose key is not smaller. *)
Fixpoint insert_by {A} (key : A → Z) (x : A) (l : list A) : list A :=
  match l with
  | [] => [x]
  | y :: l' => if (key x <=? key y)%Z then x :: l else y :: insert_by key x l'
  end.

Definition sorted_by {A} (key : A → Z) (l : list A) : list A :=
  fold_right (insert_by key) [] l.

(** *** [extract_entities] *)

Definition extract_entities (text : string) : list string :=
  let lowered := lower text in
  let entities : gset string :=
    fold_left
      (λ (entities : gset string) pattern,
         if Re.search pattern lowered
         then entities ∪ {[ upper (strip_with (char_in "\b") pattern) ]}
         else entities)
      ENTITY_PATTERNS ∅ in
  sorted_strings (elements entities).

(** *** [score_cluster] *)

(** [timedelta.total_seconds()] of a difference in microseconds. *)
Definition total_seconds (d : Z) : Q := d # 1000000.

Definition delta_hours (now latest : Z) : Q :=
  py_max2 1 (total_seconds (ensure_utc now - ensure_utc latest) / 3600).

Definition freshness_of (delta_hours : Q) : Q :=
  py_max2 0.0 (1.0 - delta_hours / 24.0).

Definition source_weight_of (sources : gset string) : Q :=
  fold_left Qplus
    (map (λ source, default 0.5%Q (SOURCE_WEIGHTS !! source)) (elements sources)) 0%Q.

(** The freshness that [score_cluster] computes first: 0.0 without
    members, otherwise from one reading of the clock and the time of the
    newest member. *)
Definition cluster_freshness (items : list NewsItem) : M Q :=
  match py_max_Z (map published_at items) with
  | Some latest =>
      let* now := datetime_now in
      ret (freshness_of (delta_hours now latest))
  | None => ret 0.0%Q
  end.

Definition score_cluster (items : list NewsItem) (similarity : Q) : M Q :=
  let* freshness := cluster_freshness items in
  let sources : gset string := list_to_set (map source items) in
  let source_weight := source_weight_of sources in
  ret (py_round (0.6 * similarity + 0.3 * source_weight + 0.1 * freshness) 4).

(** *** [cluster_news_items] *)

Section WithSimilarity.
Variable token_sort_ratio : string → string → Q.

(** The body of the scan for one open cluster: does [item] join it? *)
Definition joins (cluster : list NewsItem) (item : NewsItem)
    (window : Z) (similarity_threshold : Q) : option bool :=
  last cluster ≫= λ last_item : NewsItem,
    if (Z.abs (ensure_utc (published_at item) - ensure_utc (published_at last_item))
        >? window)%Z
    then Some false
    else
      let similarity :=
        (token_sort_ratio (normalize_title (title last_item))
                          (normalize_title (title item)) / 100)%Q in
      Some (Qle_bool similarity_threshold similarity).

(** The scan of the open clusters in order: the index of the first cluster
    that [item] joins. *)
Fixpoint matched_cluster (clusters : list (list NewsItem)) (item : NewsItem)
    (window : Z) (similarity_threshold : Q) : option (option nat) :=
  match clusters with
  | [] => Some None
  | cluster :: rest =>
      joins cluster item window similarity_threshold ≫= λ b : bool,
        if b then Some (Some 0)
        else option_map (option_map S)
               (matched_cluster rest item window similarity_threshold)
  end.

(** One turn of the first loop.  The matched cluster is a dictionary with
    the key ["items"], hence true as a condition. *)
Definition place (clusters : list (list NewsItem)) (item : NewsItem)
    (window : Z) (similarity_threshold : Q) : option (list (list NewsItem)) :=
  matched_cluster clusters item window similarity_threshold ≫= λ m : option nat,
    match m with
    | Some i => Some (alter (λ cluster_items, cluster_items ++ [item]) i clusters)
    | None => Some (clusters ++ [[item]])
    end.

Fixpoint group_from (clusters : list (list NewsItem)) (sorted_items : list NewsItem)
    (window : Z) (similarity_threshold : Q) : option (list (list NewsItem)) :=
  match sorted_items with
  | [] => Some clusters
  | item :: rest =>
      place clusters item window similarity_threshold ≫= λ clusters',
        group_from clusters' rest window similarity_threshold
  end.

(** The first loop of [cluster_news_items]: the member lists of the
    clusters, in the order in which the clusters were opened. *)
Definition group_items (items : list NewsItem) (window_minutes : Z)
    (similarity_threshold : Q) : option (list (list NewsItem)) :=
  let window := (window_minutes * 60000000)%Z in
  let sorted_items := sorted_by published_at items in
  group_from [] sorted_items window similarity_threshold.

(** The similarity handed to the scorer. *)
Definition intra_similarity (cluster_items : list NewsItem) : Q :=
  match cluster_items with
  | first :: item :: rest =>
      let base := normalize_title (title first) in
      let ratio (item : NewsItem) :=
        (token_sort_ratio base (normalize_title (title item)) / 100)%Q in
      first_best Qgtb (ratio item) (map ratio rest)
  | _ => 0.0%Q
  end.

Definition link_of (item : NewsItem) : Link :=
  {| link_source := validated (source item);
     link_url := validated (url item);
     link_title := validated (title item) |}.

(** One turn of the second loop. *)
Definition build_cluster (cluster_items : list NewsItem) : M NewsCluster :=
  let similarity := intra_similarity cluster_items in
  let entities := extract_entities (join " " (map title cluster_items)) in
  let* cluster_id := uuid4 in
  let* first_seen := lift (py_min_Z (map published_at cluster_items)) in
  let* last_seen := lift (py_max_Z (map published_at cluster_items)) in
  let* score := score_cluster cluster_items similarity in
  let* first := lift (head cluster_items) in
  ret {| schema_version := 1;
         cluster_id := validated cluster_id;
         canonical_title := validated (title first);
         cluster_summary :=
           validated (default (title first) (NewsFetch.truthy (summary first)));
         score := score;
         source_count := size (list_to_set (map source cluster_items) : gset string);
         entities := validated <$> entities;
         sentiment_hint := None;
         first_seen := first_seen;
         last_seen := last_seen;
         links := link_of <$> cluster_items |}.

Definition cluster_news_items (items : list NewsItem) (window_minutes : Z)
    (similarity_threshold : Q) : M (list NewsCluster) :=
  let* clusters := lift (group_items items window_minutes similarity_threshold) in
  for_each build_cluster clusters.

End WithSimilarity.
End Confirm.

(** ** [rapidfuzz.fuzz.token_sort_ratio]: a reference instance

    The library splits both strings on whitespace, sorts the words, joins
    them with one space and returns the normalised Indel similarity of the
    two results on the scale 0..100: [100 * 2 * lcs / (len1 + len2)], and
    100 for two empty strings.  The development is parametric in the
    similarity function; this instance serves the examples. *)

Module RapidFuzz.
Import PyStr.

(** [s.split()]: the maximal runs of characters that are not whitespace.
    [word] is the run being read, reversed. *)
Fixpoint split_ws (word : list ascii) (s : string) : list string :=
  let flush rest :=
    match word with
    | [] => rest
    | _ => string_of_list_ascii (rev word) :: rest
    end in
  match s with
  | EmptyString => flush []
  | String c s' =>
      if isspace c then flush (split_ws [] s') else split_ws (c :: word) s'
  end.

(** One row of the table of longest common subsequences: [prev] is the row
    of the shorter prefix from the current column on, [left] the entry to
    the left. *)
Fixpoint lcs_row (a : ascii) (t : string) (prev : list nat) (left : nat) : list nat :=
  match t, prev with
  | String b t', diag :: ((up :: _) as prev') =>
      let v := if Ascii.eqb a b then S diag else Nat.max up left in
      v :: lcs_row a t' prev' v
  | _, _ => []
  end.

Fixpoint lcs_rows (s t : string) (prev : list nat) : list nat :=
  match s with
  | EmptyString => prev
  | String a s' => lcs_rows s' t (0 :: lcs_row a t prev 0)
  end.

Definition lcs (s t : string) : nat :=
  List.last (lcs_rows s t (repeat 0 (S (String.length t)))) 0.

Definition ratio (s t : string) : Q :=
  let total := String.length s + String.length t in
  match total with
  | O => 100
  | S _ => (100 * inject_Z (Z.of_nat (2 * lcs s t)) / inject_Z (Z.of_nat total))%Q
  end.

Definition sort_tokens (s : string) : string :=
  join " " (merge_sort (λ s1 s2 : string, String.leb s1 s2) (split_ws [] s)).

Definition token_sort_ratio (s1 s2 : string) : Q :=
  ratio (sort_tokens s1) (sort_tokens s2).

End RapidFuzz.

(** ** The fingerprint as the specification words it *)

Module Spec.
Import PyStr Normalization.

(** [hex(SHA-256(normalizeTitle(title) + "::" + normalizeText(content)))]. *)
Definition fingerprint (title content : string) : string :=
  Sha256.hexdigest
    (encode_utf8 (normalize_title title +:+ "::" +:+ normalize_text content)).

(** A candidate matches an accepted record by fingerprint equality, by
    canonical-URL equality, or by a title similarity of at least the
    threshold. *)
Definition is_match (similarity : string → string → Q)
    (accepted candidate : Schemas.NewsItem) (threshold : Q) : Prop :=
  Schemas.hash accepted = Schemas.hash candidate
  ∨ (∃ u, canonicalize_url (Schemas.url accepted) = Some u
          ∧ canonicalize_url (Schemas.url candidate) = Some u)
  ∨ (threshold <= similarity (normalize_title (Schemas.title accepted))
                             (normalize_title (Schemas.title candidate)) / 100)%Q.

End Spec.

(** ** Records for the examples *)

Module Examples.
Import Schemas.

Definition item (id src url title hash : string) (published_at : Z) : NewsItem :=
  {| item_schema_version := 1; item_origin := "news_fetch"; id_ := id;
     source := src; url := url; title := title; summary := None;
     published_at := published_at; fetched_at := published_at;
     content_text := ""; language := "en"; hash := hash; score_hint := None |}.

Definition minute : Z := 60000000.

(** Two records with the URLs of the specification's example, different
    fingerprints and unrelated titles. *)
Definition http_www : NewsItem :=
  item "1" "coindesk" "http://WWW.Example.com/a#frag" "Markets rally" "h1" 0.
Definition https_bare : NewsItem :=
  item "2" "theblock" "https://example.com/a" "Regulator opens inquiry" "h2" 0.
Definition https_www : NewsItem :=
  item "3" "coindesk" "https://WWW.Example.com/a#frag" "Markets rally" "h3" 0.
Definition other_story : NewsItem :=
  item "4" "messari" "https://example.com/b" "Token listing delayed" "h4" 0.

(** A chain of three reports of one story, ten minutes apart. *)
Definition report_a : NewsItem :=
  item "a" "coindesk" "https://a.example/1" "Exchange X hacked for $10M" "ha" 0.
Definition report_b : NewsItem :=
  item "b" "theblock" "https://b.example/2" "Exchange X hacked for $10M today" "hb"
       (10 * minute).
Definition report_c : NewsItem :=
  item "c" "messari" "https://c.example/3" "today Exchange X hacked for $10M" "hc"
       (20 * minute).

(** A fourth report of the story, with the title of the third, an hour
    after it. *)
Definition report_late : NewsItem :=
  item "d" "decrypt" "https://d.example/4" "today Exchange X hacked for $10M" "hd"
       (80 * minute).

Definition world (now : Z) (prefix : string) : Confirm.World :=
  {| Confirm.clock := λ _, now;
     Confirm.uuids := λ n, prefix +:+ String (ascii_of_nat (48 + n)) EmptyString |}.

(** Two entries of different sources and URLs, the same story up to case
    and spacing. *)
Definition entry_a : NewsFetch.Entry :=
  {| NewsFetch.entry_id := Some "a-1"; NewsFetch.entry_title := Some "Exchange  X hacked";
     NewsFetch.entry_summary := Some "Funds were  moved."; NewsFetch.entry_url := "https://a.example/x";
     NewsFetch.entry_published_at := Some 0%Z; NewsFetch.entry_score_hint := None |}.

Definition entry_b : NewsFetch.Entry :=
  {| NewsFetch.entry_id := None; NewsFetch.entry_title := Some "exchange x HACKED";
     NewsFetch.entry_summary := None; NewsFetch.entry_url := "http://www.b.example/y?z=1";
     NewsFetch.entry_published_at := None; NewsFetch.entry_score_hint := None |}.

Definition article_a : NewsFetch.Article :=
  {| NewsFetch.article_content_text := ""; NewsFetch.article_language := None |}.

Definition article_b : NewsFetch.Article :=
  {| NewsFetch.article_content_text := " Funds were moved. "; NewsFetch.article_language := Some "en" |}.

End Examples.

(** ** Notions used to state the properties *)

Module Notions.
Import PyStr Normalization Schemas NewsFetch Confirm.

(** The string does not start with a character of the set [p]. *)
Definition starts_clean (p : ascii → bool) (s : string) : Prop :=
  match s with
  | EmptyString => True
  | String c _ => p c = false
  end.

(** A string in which every whitespace character is one space that does
    not follow whitespace; [after_ws] tells that whitespace precedes the
    string. *)
Fixpoint single_spaced (after_ws : bool) (s : string) : Prop :=
  match s with
  | EmptyString => True
  | String c s' =>
      if isspace c
      then c = " "%char ∧ after_ws = false ∧ single_spaced true s'
      else single_spaced false s'
  end.

(** The order of strings, by code points. *)
Definition string_le (s1 s2 : string) : Prop := String.leb s1 s2.

(** The bare token of a pattern. *)
Definition token_of (pattern : string) : string :=
  upper (strip_with (char_in "\b") pattern).

(** The cluster record as a function of the identifier drawn and of the
    clock reading. *)
Definition cluster_of (sim : string → string → Q) (drawn_id : string) (now : Z)
    (first : NewsItem) (others : list NewsItem) : NewsCluster :=
  let cluster_items := first :: others in
  let latest := first_best Z.gtb (published_at first) (map published_at others) in
  {| schema_version := 1;
     cluster_id := validated drawn_id;
     canonical_title := validated (title first);
     cluster_summary := validated (default (title first) (truthy (summary first)));
     score :=
       py_round
         (0.6 * intra_similarity sim cluster_items
          + 0.3 * source_weight_of (list_to_set (map source cluster_items))
          + 0.1 * freshness_of (delta_hours now latest)) 4;
     source_count := size (list_to_set (map source cluster_items) : gset string);
     entities := validated <$> extract_entities (join " " (map title cluster_items));
     sentiment_hint := None;
     first_seen := first_best Z.ltb (published_at first) (map published_at others);
     last_seen := latest;
     links := link_of <$> cluster_items |}.

(** The world after one clock reading and one identifier. *)
Definition next_world (w : World) : World :=
  {| clock := λ n, clock w (S n); uuids := λ n, uuids w (S n) |}.

(** The clusters built from non-empty groups: the [k]-th takes the [k]-th
    identifier and the [k]-th clock reading. *)
Fixpoint clusters_of (sim : string → string → Q) (w : World)
    (groups : list (list NewsItem)) : list NewsCluster :=
  match groups with
  | [] => []
  | [] :: _ => []
  | (first :: others) :: groups' =>
      cluster_of sim (uuids w 0) (clock w 0) first others
      :: clusters_of sim (next_world w) groups'
  end.

(** What a cluster record holds besides its identifier and its score. *)
Definition world_free (c : NewsCluster) :=
  (schema_version c, canonical_title c, cluster_summary c, source_count c,
   entities c, sentiment_hint c, first_seen c, last_seen c, links c).

End Notions.

(** ** Python [float]: the rounding of an operation *)

Module PyFloat.

(** [floor(log2 q)] for a positive rational. *)
Definition ilog2 (q : Q) : Z :=
  let k := (Z.log2 (Qnum q) - Z.log2 (Z.pos (Qden q)))%Z in
  if Qle_bool (2 ^ k) q then k else (k - 1)%Z.

(** The number with 53 significant bits nearest to [x], a tie going to the
    even one: the binary64 value of an operation whose exact result is [x].
    The exact difference of two floats is a multiple of the least positive
    float, so that this is also the result where binary64 has less than 53
    bits; a result beyond the greatest float, which binary64 turns into an
    infinity, compares with a float as the infinity does. *)
Definition round_binary64 (x : Q) : Q :=
  if Qeq_bool x 0 then 0%Q
  else
    let e := (ilog2 (Qabs x) - 52)%Z in
    (inject_Z (Confirm.round_half_even (x / 2 ^ e)) * 2 ^ e)%Q.

(** [a - b]. *)
Definition sub (a b : Q) : Q := round_binary64 (a - b).

End PyFloat.

(** ** [src/rate_limit.py] *)

Module RateLimit.

(** [enforce_rate_limit(key, min_interval)], where [last_call] is the
    dictionary [_last_call] and [now] the value that [time.monotonic()] has
    for the call: [true] when the call returns, [false] when it raises
    [RateLimitError], and the dictionary it leaves.  The readings and the
    interval are floats, and so is the difference [now - last] that is
    compared with the interval. *)
Definition enforce_rate_limit (key : string) (min_interval now : Q)
    (last_call : gmap string Q) : bool * gmap string Q :=
  if Qle_bool min_interval 0 then (true, last_call)
  else
    match last_call !! key with
    | None => (true, <[key := now]> last_call)
    | Some last =>
        if Qle_bool min_interval (PyFloat.sub now last)
        then (true, <[key := now]> last_call)
        else (false, last_call)
    end.

(** One call: its key, the interval it asks for and its clock reading. *)
Record Call := {
  call_key : string;
  call_interval : Q;
  call_now : Q;
}.

(** The outcomes of a sequence of calls that starts from [last_call]. *)
Fixpoint outcomes (last_call : gmap string Q) (calls : list Call) : list bool :=
  match calls with
  | [] => []
  | c :: rest =>
      let '(ok, last_call') :=
        enforce_rate_limit (call_key c) (call_interval c) (call_now c) last_call in
      ok :: outcomes last_call' rest
  end.

End RateLimit.

(** ** [src/config.py] *)

Module Config.
Import PyStr.

(** [s.split(sep)] for a separator of one character. *)
Fixpoint split (sep : ascii) (s : string) : list string :=
  match s with
  | EmptyString => [EmptyString]
  | String c s' =>
      if Ascii.eqb c sep then EmptyString :: split sep s'
      else match split sep s' with
           | piece :: pieces => String c piece :: pieces
           | [] => [String c EmptyString]
           end
  end.

(** What the validator receives: nothing, a string or a list. *)
Inductive RawOrigins :=
  | RawNone
  | RawStr (s : string)
  | RawList (l : list string).

(** [Settings.parse_allowed_origins]. *)
Definition parse_allowed_origins (value : RawOrigins) : list string :=
  match value with
  | RawNone => []
  | RawStr s =>
      if String.eqb s EmptyString then []
      else
        map strip
          (filter (λ item, UrlLib.nonempty (strip item) = true) (split "," s))
  | RawList [] => []
  | RawList l => l
  end.

(** The settings that [src/security.py] reads. *)
Record Settings := {
  hmac_shared_secret : string;
  allowed_origins : list string;
}.

End Config.

(** ** [hmac.new(key, msg, hashlib.sha256)] *)

Module Hmac.

(** [hashlib.sha256(msg).digest()]. *)
Definition sha256_digest (msg : list Z) : list Z :=
  concat (map (Sha256.be_bytes 4) (Sha256.digest_words msg)).

(** The key of one block: a longer key is hashed, a shorter one is filled
    with zero bytes. *)
Definition block_key (key : list Z) : list Z :=
  let k := if (64 <? length key)%nat then sha256_digest key else key in
  k ++ repeat 0%Z (64 - length k).

Definition hexdigest (key msg : list Z) : string :=
  let k := block_key key in
  let inner := sha256_digest (map (Z.lxor 54) k ++ msg) in
  Sha256.hexdigest (map (Z.lxor 92) k ++ inner).

End Hmac.

(** ** [src/security.py] *)

Module Security.
Import PyStr Config.

(** [a or b] on header values that may be absent. *)
Definition py_or (a b : option string) : option string :=
  match a with
  | Some t => if UrlLib.nonempty t then Some t else b
  | None => b
  end.

Inductive SecurityError :=
  | SignatureMissing
  | SignatureMismatch
  | OriginNotAllowed
  | TypeError.

(** [hmac.compare_digest] on two strings: they must be ASCII. *)
Definition is_ascii (s : string) : bool :=
  all_chars (λ c, (ord c <? 128)%N) s.

Definition compare_digest (a b : string) : SecurityError + bool :=
  if is_ascii a && is_ascii b then inr (String.eqb a b) else inl TypeError.

(** [verify_signature]: [inr tt] when it returns. *)
Definition verify_signature (settings : Settings) (headers : gmap string string)
    (body : list Z) : SecurityError + unit :=
  match py_or (headers !! "x-signature") (headers !! "X-Signature") with
  | None => inl SignatureMissing
  | Some signature =>
      if negb (UrlLib.nonempty signature) then inl SignatureMissing
      else
        let secret := encode_utf8 (hmac_shared_secret settings) in
        let expected := Hmac.hexdigest secret body in
        match compare_digest signature expected with
        | inl e => inl e
        | inr true => inr tt
        | inr false => inl SignatureMismatch
        end
  end.

(** [validate_origin]: the origin of the request, which may be absent. *)
Definition validate_origin (settings : Settings) (headers : gmap string string)
  : SecurityError + option string :=
  let origin := py_or (headers !! "origin") (headers !! "Origin") in
  match allowed_origins settings with
  | [] => inr origin
  | allowed =>
      match origin with
      | None => inr origin
      | Some o =>
          if bool_decide (o ∈ allowed) then inr origin else inl OriginNotAllowed
      end
  end.

Definition build_cors_headers (settings : Settings) (origin : option string)
  : gmap string string :=
  let headers : gmap string string :=
    {[ "Access-Control-Allow-Headers" := "Content-Type,X-Signature,X-Correlation-Id";
       "Access-Control-Allow-Methods" := "OPTIONS,GET,POST" ]} in
  match NewsFetch.truthy origin with
  | Some o => <["Access-Control-Allow-Origin" := o]> headers
  | None =>
      match allowed_origins settings with
      | first :: _ => <["Access-Control-Allow-Origin" := first]> headers
      | [] => headers
      end
  end.

(** The opening of each request handler of [api/]: the status it returns
    at once when the origin is refused, and the headers of its response. *)
Definition handler_cors (settings : Settings) (headers : gmap string string)
  : option Z * gmap string string :=
  match validate_origin settings headers with
  | inl _ => (Some 403%Z, build_cors_headers settings None)
  | inr origin => (None, build_cors_headers settings origin)
  end.

(** What the opening of a handler decides: it answers at once, with a
    status and headers, or it goes on to the work of the endpoint with the
    headers for its response. *)
Inductive Gate :=
  | Respond (status : Z) (response_headers : gmap string string)
  | Proceed (cors_headers : gmap string string).

(** The opening of the handlers of [api/news_fetch.py],
    [api/analyze_news.py], [api/market_fetch.py] and [api/admin_cleanup.py],
    up to the bodies of the responses; [method], [headers] and [body] are
    the entries of the request, [inl] is an exception that the handler does
    not catch. *)
Definition handler_gate (settings : Settings) (method : option string)
    (headers : gmap string string) (body : string) : SecurityError + Gate :=
  let method := upper (default "POST" (NewsFetch.truthy method)) in
  match validate_origin settings headers with
  | inl _ => inr (Respond 403 (build_cors_headers settings None))
  | inr origin =>
      let cors_headers := build_cors_headers settings origin in
      if String.eqb method "OPTIONS" then inr (Respond 204 cors_headers)
      else if negb (String.eqb method "POST")
      then inr (Respond 405 (<["Content-Type" := "application/json"]> cors_headers))
      else
        match verify_signature settings headers (encode_utf8 body) with
        | inr tt => inr (Proceed cors_headers)
        | inl SignatureMissing | inl SignatureMismatch =>
            inr (Respond 401 (<["Content-Type" := "application/json"]> cors_headers))
        | inl e => inl e
        end
  end.

End Security.

(** ** [api/news_fetch.py]: the collector of one source *)

Module NewsFetchApi.
Import PyStr Normalization Schemas NewsFetch.

(** What the effects of one call of [hydrate_entry] give: the article
    extracted from the page, the clock reading and the identifier drawn. *)
Record Effects := {
  page : Article;
  now : Z;
  fresh_id : string;
}.

(** One call of [hydrate_entry] in the loop; [None] for the effects is an
    exception raised while the page is extracted or the record is stored,
    [None] as a result is any exception; the loop then goes on to the next
    entry. *)
Definition hydrated (src : string) (entry : Entry) (effects : option Effects)
  : option NewsItem :=
  e ← effects; hydrate_entry src entry (page e) (now e) (fresh_id e).

(** [entry["published_at"] and ensure_utc(entry["published_at"]) < since];
    every entry of a feed has the key, its value may be [None]. *)
Definition too_old (entry : Entry) (since : Z) : bool :=
  match entry_published_at entry with
  | Some published_at => (ensure_utc published_at <? since)%Z
  | None => false
  end.

(** The loop of [collect_source_news] from the list [collected]; each entry
    comes with the effects that hydrating it has. *)
Fixpoint collect_from (src : string) (collected : list NewsItem)
    (entries : list (Entry * option Effects)) (since limit : Z) : list NewsItem :=
  match entries with
  | [] => collected
  | (entry, effects) :: rest =>
      if too_old entry since then collect_from src collected rest since limit
      else
        match hydrated src entry effects with
        | None => collect_from src collected rest since limit
        | Some item =>
            let collected' := collected ++ [item] in
            if (limit <=? Z.of_nat (length collected'))%Z then collected'
            else collect_from src collected' rest since limit
        end
  end.

(** [collect_source_news] once the entries are fetched; [limit] is
    [min(req.max_per_source, settings.max_items_per_source)]. *)
Definition collect_source_news (src : string)
    (entries : list (Entry * option Effects))
    (max_per_source max_items_per_source since : Z) : list NewsItem :=
  let limit := Z.min max_per_source max_items_per_source in
  collect_from src [] entries since limit.

End NewsFetchApi.

(** ** [api/market_fetch.py]: the tables of intervals *)

Module MarketFetch.

(** [TIMEFRAME_CHOICES] of [src/schemas.py]. *)
Definition TIMEFRAME_CHOICES : gset string :=
  {[ "1m"; "5m"; "15m"; "1h"; "4h"; "1d" ]}.

(** [MarketFetchRequest.validate_granularity]; [None] is the [ValueError]. *)
Definition validate_granularity (value : string) : option string :=
  if bool_decide (value ∈ TIMEFRAME_CHOICES) then Some value else None.

Definition BINANCE_INTERVALS : gmap string string :=
  list_to_map
    [("1m", "1m"); ("5m", "5m"); ("15m", "15m"); ("1h", "1h"); ("4h", "4h");
     ("1d", "1d")].

Definition BYBIT_INTERVALS : gmap string string :=
  list_to_map
    [("1m", "1"); ("5m", "5"); ("15m", "15"); ("1h", "60"); ("4h", "240");
     ("1d", "1440")].

Definition CMC_INTERVALS : gmap string string :=
  list_to_map
    [("1m", "1m"); ("5m", "5m"); ("15m", "15m"); ("1h", "1h"); ("4h", "4h");
     ("1d", "1d")].

(** [granularity_to_minutes]; [None] is the [KeyError]. *)
Definition granularity_to_minutes (granularity : string) : option Z :=
  let mapping : gmap string Z :=
    list_to_map
      [("1m", 1%Z); ("5m", 5%Z); ("15m", 15%Z); ("1h", 60%Z); ("4h", 240%Z);
       ("1d", 1440%Z)] in
  mapping !! granularity.

End MarketFetch.

(** ** Further notions *)

Module FurtherNotions.
Import PyStr.

(** A character of [0-9a-f]. *)
Definition is_lower_hex (c : ascii) : bool :=
  let n := ord c in
  (((48 <=? n) && (n <=? 57)) || ((97 <=? n) && (n <=? 102)))%N.

(** Not published later. *)
Definition time_le (x y : Schemas.NewsItem) : Prop :=
  (Schemas.published_at x ≤ Schemas.published_at y)%Z.

(** [y] follows [x] in a cluster: it is not published earlier, at most
    [window] later, and its title is similar enough to the title of [x]. *)
Definition linked (sim : string → string → Q) (window : Z) (t : Q)
    (x y : Schemas.NewsItem) : Prop :=
  (Schemas.published_at x ≤ Schemas.published_at y)%Z
  ∧ (Schemas.published_at y - Schemas.published_at x ≤ window)%Z
  ∧ (t <= sim (Normalization.normalize_title (Schemas.title x))
              (Normalization.normalize_title (Schemas.title y)) / 100)%Q.

(** The state of the first loop of [cluster_news_items] before the records
    [rest] are placed: the open clusters are non-empty, each one is a chain
    of linked records, no member is published later than a record to come,
    and the clusters are in the order of their first members. *)
Record grouping_ok (sim : string → string → Q) (window : Z) (t : Q)
    (clusters : list (list Schemas.NewsItem)) (rest : list Schemas.NewsItem) : Prop := {
  ok_nonempty : Forall (λ g, g ≠ []) clusters;
  ok_chain : Forall (Sorted (linked sim window t)) clusters;
  ok_before : ∀ g x y, g ∈ clusters → x ∈ g → y ∈ rest → time_le x y;
  ok_heads : ∀ i j g h x y, i < j →
    clusters !! i = Some g → clusters !! j = Some h →
    head g = Some x → head h = Some y → time_le x y;
}.

(** An entry of an origin list that is written as it is read back: not
    empty, without a comma, without whitespace at its ends. *)
Definition clean_origin (o : string) : Prop :=
  o ≠ EmptyString ∧ contains o "," = false ∧ strip o = o.

(** No record of the list matches a record before it. *)
Definition match_free (sim : string → string → Q) (l : list Schemas.NewsItem)
    (t : Q) : Prop :=
  ∀ i j e x, i < j → l !! i = Some e → l !! j = Some x → ¬ Spec.is_match sim e x t.

(** The dictionary of the rate limiter holds, for [key], a clock reading
    of [t] or later. *)
Definition accepted_since (st : gmap string Q) (key : string) (t : Q) : Prop :=
  ∃ last, st !! key = Some last ∧ (t <= last)%Q.

(** The records that hydrating the entries not older than [since] gives,
    in the order of the entries. *)
Definition hydrated_fresh (src : string)
    (entries : list (NewsFetch.Entry * option NewsFetchApi.Effects)) (since : Z)
  : list Schemas.NewsItem :=
  omap (λ p, NewsFetchApi.hydrated src p.1 p.2)
       (filter (λ p, NewsFetchApi.too_old p.1 since = false) entries).

End FurtherNotions.

Import PyStr Normalization Schemas Dedupe NewsFetch Confirm Notions.

(** * Properties *)

(** ** Strings: stripping and whitespace normalisation *)

Section Strip.
Variable p : ascii → bool.

Lemma lstrip_starts_clean s : starts_clean p (lstrip_with p s).
Proof.
  induction s as [|c s IH]; simpl; [done|].
  destruct (p c) eqn:Hc; [done|by simpl].
Qed.

Lemma lstrip_clean s : starts_clean p s → lstrip_with p s = s.
Proof. destruct s as [|c s]; simpl; [done|]. by intros ->. Qed.

Lemma rstrip_starts_clean s :
  starts_clean p s → starts_clean p (rstrip_with p s).
Proof.
  destruct s as [|c s]; simpl; [done|]. intros Hc.
  destruct (rstrip_with p s); [by rewrite Hc|done].
Qed.

Lemma rstrip_idemp s : rstrip_with p (rstrip_with p s) = rstrip_with p s.
Proof.
  induction s as [|c s IH]; simpl; [done|].
  destruct (rstrip_with p s) as [|d r] eqn:Hr.
  - destruct (p c) eqn:Hc; simpl; [done|by rewrite Hc].
  - change (rstrip_with p (String c (String d r))) with
      (match rstrip_with p (String d r) with
       | EmptyString => if p c then EmptyString else String c EmptyString
       | r' => String c r'
       end).
    by rewrite IH.
Qed.

Lemma strip_idemp s : strip_with p (strip_with p s) = strip_with p s.
Proof.
  unfold strip_with.
  rewrite (lstrip_clean (rstrip_with p (lstrip_with p s))).
  - apply rstrip_idemp.
  - apply rstrip_starts_clean, lstrip_starts_clean.
Qed.

Lemma rstrip_all_clean s :
  all_chars (λ c, negb (p c)) s = true → rstrip_with p s = s.
Proof.
  induction s as [|c s IH]; simpl; [done|].
  intros [Hc Hs]%andb_prop. rewrite (IH Hs).
  destruct s; [|done]. by destruct (p c).
Qed.

Lemma strip_all_clean s :
  all_chars (λ c, negb (p c)) s = true → strip_with p s = s.
Proof.
  intros H. unfold strip_with. rewrite lstrip_clean.
  - by apply rstrip_all_clean.
  - destruct s as [|c s]; simpl in *; [done|].
    apply andb_prop in H as [Hc _]. by destruct (p c).
Qed.

End Strip.

Lemma all_chars_app q s1 s2 :
  all_chars q (s1 +:+ s2) = all_chars q s1 && all_chars q s2.
Proof.
  induction s1 as [|c s1 IH]; simpl; [done|]. by rewrite IH, andb_assoc.
Qed.

Lemma sub_whitespace_single_spaced b s : single_spaced b (sub_whitespace b s).
Proof.
  revert b. induction s as [|c s IH]; intros b; simpl; [done|].
  destruct (isspace c) eqn:Hc.
  - destruct b; [apply IH|]. simpl. split_and!; [done..|apply IH].
  - simpl. rewrite Hc. apply IH.
Qed.

Lemma sub_whitespace_fixed b s : single_spaced b s → sub_whitespace b s = s.
Proof.
  revert b. induction s as [|c s IH]; intros b; simpl; [done|].
  destruct (isspace c) eqn:Hc.
  - intros (-> & -> & Hs). by rewrite (IH _ Hs).
  - intros Hs. by rewrite (IH _ Hs).
Qed.

Lemma lstrip_single_spaced b b' s :
  single_spaced b s → single_spaced b' (lstrip_with isspace s).
Proof.
  revert b. induction s as [|c s IH]; intros b; simpl; [done|].
  destruct (isspace c) eqn:Hc.
  - intros (_ & _ & Hs). by eapply IH.
  - intros Hs. simpl. by rewrite Hc.
Qed.

Lemma rstrip_single_spaced b s :
  single_spaced b s → single_spaced b (rstrip_with isspace s).
Proof.
  revert b. induction s as [|c s IH]; intros b; simpl; [done|].
  destruct (isspace c) eqn:Hc.
  - intros (-> & -> & Hs). specialize (IH _ Hs).
    destruct (rstrip_with isspace s) as [|d r]; [done|].
    change (single_spaced false (String " " (String d r))).
    simpl in *. done.
  - intros Hs. specialize (IH _ Hs).
    destruct (rstrip_with isspace s) as [|d r]; simpl; rewrite Hc; done.
Qed.

Lemma normalize_text_single_spaced s : single_spaced false (normalize_text s).
Proof.
  unfold normalize_text. destruct (String.eqb s EmptyString); [done|].
  apply rstrip_single_spaced, (lstrip_single_spaced false), sub_whitespace_single_spaced.
Qed.

Lemma strip_normalize_text s : strip (normalize_text s) = normalize_text s.
Proof.
  unfold normalize_text. destruct (String.eqb s EmptyString); [done|].
  apply strip_idemp.
Qed.

Lemma lstrip_cons_space c s :
  isspace c = true → lstrip_with isspace (String c s) = lstrip_with isspace s.
Proof. intros H. simpl. by rewrite H. Qed.

(** Leading whitespace does not change what is left of the substitution
    after [lstrip]. *)
Lemma lstrip_sub_whitespace b s :
  lstrip_with isspace (sub_whitespace b s)
  = lstrip_with isspace (sub_whitespace false (lstrip_with isspace s)).
Proof.
  revert b. induction s as [|c s IH]; intros b; [done|].
  cbn [sub_whitespace lstrip_with]. destruct (isspace c) eqn:Hc.
  - rewrite <-(IH true). destruct b; [done|]. by apply lstrip_cons_space.
  - cbn [sub_whitespace]. by rewrite Hc.
Qed.

Lemma rstrip_cons_congr c x y :
  rstrip_with isspace x = rstrip_with isspace y →
  rstrip_with isspace (String c x) = rstrip_with isspace (String c y).
Proof. intros H. cbn [rstrip_with]. by rewrite H. Qed.

Lemma rstrip_sub_whitespace_blank b s :
  rstrip_with isspace s = EmptyString →
  rstrip_with isspace (sub_whitespace b s) = EmptyString.
Proof.
  revert b. induction s as [|c s IH]; intros b; [done|].
  cbn [rstrip_with sub_whitespace].
  destruct (rstrip_with isspace s) eqn:Hr; [|done].
  destruct (isspace c) eqn:Hc; [|done]. intros _.
  destruct b; [by apply IH|].
  cbn [rstrip_with]. by rewrite (IH true).
Qed.

Lemma sub_whitespace_cons b c s :
  sub_whitespace b (String c s)
  = if isspace c
    then if b then sub_whitespace true s else String " " (sub_whitespace true s)
    else String c (sub_whitespace false s).
Proof. reflexivity. Qed.

(** Trailing whitespace does not change what is left of the substitution
    after [rstrip]. *)
Lemma rstrip_sub_whitespace b s :
  rstrip_with isspace (sub_whitespace b (rstrip_with isspace s))
  = rstrip_with isspace (sub_whitespace b s).
Proof.
  revert b. induction s as [|c s IH]; intros b; [done|].
  cbn [rstrip_with]. rewrite (sub_whitespace_cons b c s).
  destruct (rstrip_with isspace s) as [|d r] eqn:Hr.
  - destruct (isspace c) eqn:Hc.
    + destruct b; [apply IH|].
      cbn [rstrip_with]. rewrite (rstrip_sub_whitespace_blank true s Hr).
      reflexivity.
    + rewrite (sub_whitespace_cons b c), Hc.
      apply rstrip_cons_congr, IH.
  - rewrite (sub_whitespace_cons b c (String d r)).
    destruct (isspace c) eqn:Hc.
    + destruct b; [apply IH|]. apply rstrip_cons_congr, IH.
    + apply rstrip_cons_congr, IH.
Qed.

Lemma lstrip_rstrip s :
  lstrip_with isspace (rstrip_with isspace s)
  = rstrip_with isspace (lstrip_with isspace s).
Proof.
  induction s as [|c s IH]; [done|].
  cbn [lstrip_with]. destruct (isspace c) eqn:Hc.
  - rewrite <-IH. cbn [rstrip_with].
    destruct (rstrip_with isspace s) as [|d r]; [by rewrite Hc|].
    by apply lstrip_cons_space.
  - apply lstrip_clean, rstrip_starts_clean. exact Hc.
Qed.

Lemma normalize_text_unfold s :
  normalize_text s = strip (sub_whitespace false s).
Proof. unfold normalize_text. by destruct s. Qed.

(** Stripping a text before normalising it changes nothing. *)
Lemma normalize_text_strip s : normalize_text (strip s) = normalize_text s.
Proof.
  rewrite !normalize_text_unfold. unfold strip, strip_with.
  rewrite <-(lstrip_rstrip (sub_whitespace false _)), rstrip_sub_whitespace.
  rewrite lstrip_rstrip. by rewrite <-(lstrip_sub_whitespace false).
Qed.

(** [normalize_text] is idempotent. *)
Lemma normalize_text_idemp s : normalize_text (normalize_text s) = normalize_text s.
Proof.
  pose proof (normalize_text_single_spaced s) as Hs.
  pose proof (strip_normalize_text s) as Hstrip.
  destruct (normalize_text s) as [|c r] eqn:Hn; [done|].
  unfold normalize_text at 1. simpl String.eqb.
  rewrite (sub_whitespace_fixed false _ Hs). exact Hstrip.
Qed.

(** ** C1: the fingerprint *)

(** The digests of the empty message, of [abc], of a message of two blocks
    and of a character outside ASCII are those of [hashlib]. *)
Example sha256_test_vectors :
  Sha256.hexdigest []
  = "e3b0c44298fc1c149afbf4c8996fb92427ae41e4649b934ca495991b7852b855"
  ∧ Sha256.hexdigest (encode_utf8 "abc")
    = "ba7816bf8f01cfea414140de5dae2223b00361a396177a9cb410ff61f20015ad"
  ∧ Sha256.hexdigest (repeat 97%Z 70)
    = "6bd5e5034855a11241f0dee8fc72850ffd9955b28347a86428b5fa19119f6ad0"
  ∧ Sha256.hexdigest (encode_utf8 (String (ascii_of_N 233) EmptyString))
    = "4a99557e4033c3539de2eb65472017cad5f9557f7a0625a09f1c3f6e2ba69c4c".
Proof. repeat split; vm_compute; reflexivity. Qed.

Lemma hex_digit_not_space n : isspace (Sha256.hex_digit (Z.land n 15)) = false.
Proof.
  assert (0 ≤ Z.land n 15 < 16)%Z as Hb.
  { change 15%Z with (Z.ones 4). rewrite Z.land_ones by lia.
    apply Z.mod_pos_bound. lia. }
  remember (Z.land n 15) as d eqn:Hdef. clear Hdef.
  assert (d = 0 ∨ d = 1 ∨ d = 2 ∨ d = 3 ∨ d = 4 ∨ d = 5 ∨ d = 6 ∨ d = 7
          ∨ d = 8 ∨ d = 9 ∨ d = 10 ∨ d = 11 ∨ d = 12 ∨ d = 13 ∨ d = 14
          ∨ d = 15)%Z as Hd by lia.
  repeat destruct Hd as [-> | Hd]; try subst d; reflexivity.
Qed.

Lemma hex_of_word_no_space w :
  all_chars (λ c, negb (isspace c)) (Sha256.hex_of_word w) = true.
Proof.
  unfold Sha256.hex_of_word. induction (rev (seq 0 8)) as [|i l IH]; [done|].
  cbn [fold_right all_chars]. rewrite hex_digit_not_space. exact IH.
Qed.

Lemma hexdigest_no_space msg :
  all_chars (λ c, negb (isspace c)) (Sha256.hexdigest msg) = true.
Proof.
  unfold Sha256.hexdigest.
  induction (Sha256.digest_words msg) as [|w l IH]; [done|].
  cbn [fold_right]. rewrite all_chars_app, hex_of_word_no_space. exact IH.
Qed.

(** Validation leaves a digest as it is. *)
Lemma validated_hexdigest msg : validated (Sha256.hexdigest msg) = Sha256.hexdigest msg.
Proof. apply strip_all_clean, hexdigest_no_space. Qed.

Lemma normalize_title_validated t : normalize_title (validated t) = normalize_title t.
Proof. unfold normalize_title, validated. by rewrite normalize_text_strip. Qed.

Lemma hydrate_entry_hash src entry article now fresh_id item :
  hydrate_entry src entry article now fresh_id = Some item →
  hash item = compute_hash (title_of entry) (normalize_text (content_of entry article))
  ∧ content_text item = normalize_text (content_of entry article)
  ∧ title item = validated (title_of entry).
Proof.
  unfold hydrate_entry. intros H.
  destruct (canonicalize_url (entry_url entry)) as [u|]; simplify_eq/=.
  split; [apply validated_hexdigest|]. split; [apply strip_normalize_text|done].
Qed.

(** C1, as the code has it.  [compute_hash] hashes the normalised title,
    the separator and the content as it is given; [hydrate_entry] hands it
    the normalised content.  Hence the fingerprint of a record built from
    the title [t] and the content [c] is the digest of
    [normalize_title t + "::" + normalize_text c]; it is also that digest
    for the title and the content that the record stores, the stored
    content being the normalised text; and two built records whose titles
    and contents are equal after normalisation have the same fingerprint,
    whatever their sources, URLs, clock readings and identifiers. *)
Theorem fingerprint_of_built_record
    (src1 src2 : string) (entry1 entry2 : Entry) (article1 article2 : Article)
    (now1 now2 : Z) (id1 id2 : string) (item1 item2 : NewsItem) :
  hydrate_entry src1 entry1 article1 now1 id1 = Some item1 →
  hydrate_entry src2 entry2 article2 now2 id2 = Some item2 →
  (∀ t c, compute_hash t c
          = Sha256.hexdigest (encode_utf8 (normalize_title t +:+ "::" +:+ c)))
  ∧ (∀ t c, compute_hash t (normalize_text c) = Spec.fingerprint t c)
  ∧ hash item1 = Spec.fingerprint (title_of entry1) (content_of entry1 article1)
  ∧ hash item1 = Spec.fingerprint (title item1) (content_text item1)
  ∧ normalize_text (content_text item1) = content_text item1
  ∧ (normalize_title (title item1) = normalize_title (title item2) →
     normalize_text (content_text item1) = normalize_text (content_text item2) →
     hash item1 = hash item2).
Proof.
  intros (Hh1 & Hc1 & Ht1)%hydrate_entry_hash (Hh2 & Hc2 & Ht2)%hydrate_entry_hash.
  assert (Hown : ∀ item entry article,
             hash item
             = compute_hash (title_of entry) (normalize_text (content_of entry article)) →
             content_text item = normalize_text (content_of entry article) →
             title item = validated (title_of entry) →
             hash item = Spec.fingerprint (title item) (content_text item)).
  { intros item entry article Hh Hc Ht. rewrite Hh, Hc, Ht.
    unfold Spec.fingerprint, compute_hash.
    rewrite normalize_title_validated, normalize_text_idemp. reflexivity. }
  split; [reflexivity|]. split; [reflexivity|].
  split; [exact Hh1|]. split; [by eapply Hown|].
  split.
  { rewrite Hc1. apply normalize_text_idemp. }
  intros Ht Hc.
  rewrite (Hown item1 entry1 article1), (Hown item2 entry2 article2) by done.
  unfold Spec.fingerprint. rewrite Ht, Hc. reflexivity.
Qed.

Lemma fingerprint_of_built_record_witness :
  ∃ item1 item2,
    hydrate_entry "coindesk" Examples.entry_a Examples.article_a 5 "u1" = Some item1
    ∧ hydrate_entry "theblock" Examples.entry_b Examples.article_b 9 "u2" = Some item2
    ∧ source item1 ≠ source item2 ∧ url item1 ≠ url item2
    ∧ title item1 ≠ title item2
    ∧ hash item1 = hash item2.
Proof.
  destruct (hydrate_entry "coindesk" Examples.entry_a Examples.article_a 5 "u1")
    as [item1|] eqn:H1; [|by vm_compute in H1].
  destruct (hydrate_entry "theblock" Examples.entry_b Examples.article_b 9 "u2")
    as [item2|] eqn:H2; [|by vm_compute in H2].
  exists item1, item2.
  pose proof (fingerprint_of_built_record _ _ _ _ _ _ _ _ _ _ _ _ H1 H2)
    as (_ & _ & _ & _ & _ & Heq).
  vm_compute in H1, H2.
  injection H1 as <-. injection H2 as <-.
  split; [reflexivity|]. split; [reflexivity|].
  split; [vm_compute; discriminate|]. split; [vm_compute; discriminate|].
  split; [vm_compute; discriminate|].
  apply Heq; vm_compute; reflexivity.
Defined.

(** The formula of the specification fails on [compute_hash]: a content
    with a leading space is hashed as it is. *)
Lemma compute_hash_keeps_content_spacing :
  compute_hash "t" " x" ≠ Spec.fingerprint "t" " x".
Proof. vm_compute. discriminate. Qed.

(** ** The de-duplication filter *)

Section DedupeFacts.
Variable sim : string → string → Q.
Implicit Types (acc result items out : list NewsItem) (item : NewsItem) (t : Q).

Lemma duplicate_of_true e item t :
  duplicate_of sim e item t = Some true → Spec.is_match sim e item t.
Proof.
  unfold duplicate_of, Spec.is_match.
  destruct (String.eqb_spec (hash e) (hash item)) as [Hh|Hh]; [by left|].
  destruct (canonicalize_url (url e)) as [ue|]; [|done].
  destruct (canonicalize_url (url item)) as [ui|]; [|done]. simpl.
  destruct (String.eqb_spec ue ui) as [->|Hu]; [right; left; by eexists|].
  intros [= Hq]. right; right. by apply Qle_bool_iff.
Qed.

Lemma duplicate_of_false e item t :
  duplicate_of sim e item t = Some false → ¬ Spec.is_match sim e item t.
Proof.
  unfold duplicate_of, Spec.is_match.
  destruct (String.eqb_spec (hash e) (hash item)) as [Hh|Hh]; [done|].
  destruct (canonicalize_url (url e)) as [ue|]; [|done].
  destruct (canonicalize_url (url item)) as [ui|]; [|done]. simpl.
  destruct (String.eqb_spec ue ui) as [->|Hu]; [done|].
  intros [= Hq] [?|[(u & ? & ?)|Hle]]; [done|congruence|].
  apply Qle_bool_iff in Hle. congruence.
Qed.

Lemma duplicate_of_same_url e item t u :
  canonicalize_url (url e) = Some u → canonicalize_url (url item) = Some u →
  duplicate_of sim e item t = Some true.
Proof.
  intros He Hi. unfold duplicate_of. rewrite He, Hi. simpl.
  rewrite String.eqb_refl. by destruct (String.eqb _ _).
Qed.

Lemma duplicate_of_total e item t :
  is_Some (canonicalize_url (url e)) → is_Some (canonicalize_url (url item)) →
  is_Some (duplicate_of sim e item t).
Proof.
  intros [ue He] [ui Hi]. unfold duplicate_of. rewrite He, Hi. simpl.
  destruct (String.eqb _ _); [done|]. by destruct (String.eqb _ _).
Qed.

(** The scan answers [false] exactly when it has compared the candidate
    with every accepted record and none was a duplicate. *)
Lemma scan_false acc item t :
  scan sim acc item t = Some false
  ↔ Forall (λ e, duplicate_of sim e item t = Some false) acc.
Proof.
  induction acc as [|e acc IH]; simpl; [by split|].
  destruct (duplicate_of sim e item t) as [[]|] eqn:Hd; simpl.
  - split; [done|]. intros [? _]%Forall_cons_1. congruence.
  - rewrite IH. split; [by constructor|]. by intros [_ ?]%Forall_cons_1.
  - split; [done|]. intros [? _]%Forall_cons_1. congruence.
Qed.

(** The scan answers [true] exactly when it stops at a first duplicate. *)
Lemma scan_true acc item t :
  scan sim acc item t = Some true
  ↔ ∃ acc1 e acc2, acc = acc1 ++ e :: acc2
      ∧ Forall (λ e', duplicate_of sim e' item t = Some false) acc1
      ∧ duplicate_of sim e item t = Some true.
Proof.
  induction acc as [|e acc IH]; simpl.
  - split; [done|]. intros (acc1 & e & acc2 & H & _). by destruct acc1.
  - destruct (duplicate_of sim e item t) as [[]|] eqn:Hd; simpl.
    + split; [|done]. intros _. by exists [], e, acc.
    + rewrite IH. split.
      * intros (acc1 & e' & acc2 & -> & H1 & H2).
        exists (e :: acc1), e', acc2. split_and!; [done|by constructor|done].
      * intros (acc1 & e' & acc2 & Heq & H1 & H2).
        destruct acc1 as [|e0 acc1]; simplify_eq/=.
        apply Forall_cons_1 in H1 as [_ H1]. by exists acc1, e', acc2.
    + split; [done|]. intros (acc1 & e' & acc2 & Heq & H1 & H2).
      destruct acc1 as [|e0 acc1]; simplify_eq/=.
      apply Forall_cons_1 in H1 as [? _]. congruence.
Qed.

Lemma scan_total acc item t :
  Forall (λ i, is_Some (canonicalize_url (url i))) acc →
  is_Some (canonicalize_url (url item)) →
  is_Some (scan sim acc item t).
Proof.
  intros Hacc Hi. induction Hacc as [|e acc He _ IH]; simpl; [done|].
  destruct (duplicate_of_total e item t He Hi) as [[] ->]; simpl; [done|exact IH].
Qed.

Lemma dedupe_from_app acc xs ys t :
  dedupe_from sim acc (xs ++ ys) t
  = dedupe_from sim acc xs t ≫= λ acc', dedupe_from sim acc' ys t.
Proof.
  revert acc. induction xs as [|x xs IH]; intros acc; simpl; [done|].
  destruct (scan sim acc x t) as [d|]; simpl; [apply IH|done].
Qed.

Lemma dedupe_from_total acc items t :
  Forall (λ i, is_Some (canonicalize_url (url i))) acc →
  Forall (λ i, is_Some (canonicalize_url (url i))) items →
  is_Some (dedupe_from sim acc items t).
Proof.
  intros Hacc Hitems. revert acc Hacc.
  induction Hitems as [|x items Hx _ IH]; intros acc Hacc; simpl; [done|].
  destruct (scan_total acc x t Hacc Hx) as [d ->]. simpl.
  apply IH. destruct d; [done|]. apply Forall_app. by repeat constructor.
Qed.

(** The output extends the accumulator by a subsequence of the input. *)
Lemma dedupe_from_sublist acc items t out :
  dedupe_from sim acc items t = Some out →
  ∃ kept, out = acc ++ kept ∧ kept `sublist_of` items.
Proof.
  revert acc. induction items as [|x items IH]; intros acc; simpl.
  - intros [= <-]. exists []. by rewrite app_nil_r.
  - destruct (scan sim acc x t) as [[]|]; simpl; [| |done].
    + intros (kept & -> & Hs)%IH. exists kept. split; [done|by constructor].
    + intros (kept & -> & Hs)%IH. exists (x :: kept).
      rewrite <-app_assoc. split; [done|by constructor].
Qed.

(** An accumulator that the filter maps to itself stays so. *)
Lemma dedupe_from_settled acc items t out :
  dedupe_from sim [] acc t = Some acc →
  dedupe_from sim acc items t = Some out →
  dedupe_from sim [] out t = Some out.
Proof.
  revert acc. induction items as [|x items IH]; intros acc Hacc; simpl.
  - by intros [= <-].
  - destruct (scan sim acc x t) as [[]|] eqn:Hs; simpl; [by apply IH| |done].
    apply IH. rewrite dedupe_from_app, Hacc. simpl. by rewrite Hs.
Qed.

End DedupeFacts.

(** C4.  Filtering the output of the filter again, with the same threshold,
    gives the same result: the same kept records when the first run
    returns, the same failure when it raises. *)
Theorem dedupe_idempotent (sim : string → string → Q)
    (items : list NewsItem) (t : Q) :
  dedupe_items sim items t ≫= (λ out, dedupe_items sim out t)
  = dedupe_items sim items t.
Proof.
  unfold dedupe_items.
  destruct (dedupe_from sim [] items t) as [out|] eqn:H; simpl; [|done].
  by apply (dedupe_from_settled sim [] items t out).
Qed.

(** C6.  On records whose URLs parse the filter returns; what it returns
    is a subsequence of the input; and at any candidate [item], with [acc]
    the records accepted before it, the scan of [acc] stops at the first
    record that [item] matches (by fingerprint, canonical URL or title
    similarity), [item] is appended exactly when no record of [acc] matches
    it, and what was accepted so far is a prefix of the final output, so
    that the record dropped is the later one. *)
Theorem dedupe_first_seen_wins (sim : string → string → Q)
    (pre : list NewsItem) (item : NewsItem) (post : list NewsItem) (t : Q) :
  let items := pre ++ item :: post in
  (Forall (λ i, is_Some (canonicalize_url (url i))) items →
   is_Some (dedupe_items sim items t))
  ∧ ∀ out, dedupe_items sim items t = Some out →
      out `sublist_of` items
      ∧ ∃ acc (d : bool),
          dedupe_items sim pre t = Some acc
          ∧ scan sim acc item t = Some d
          ∧ dedupe_items sim (pre ++ [item]) t
            = Some (if d then acc else acc ++ [item])
          ∧ (if d then acc else acc ++ [item]) `prefix_of` out
          ∧ (d = true ↔ ∃ e, e ∈ acc ∧ Spec.is_match sim e item t)
          ∧ (d = true →
             ∃ acc1 e acc2, acc = acc1 ++ e :: acc2
               ∧ Forall (λ e', ¬ Spec.is_match sim e' item t) acc1
               ∧ Spec.is_match sim e item t).
Proof.
  intros items. split.
  { intros H. by apply dedupe_from_total. }
  intros out Hout. split.
  { apply dedupe_from_sublist in Hout as (kept & -> & Hs). done. }
  unfold dedupe_items, items in *.
  rewrite dedupe_from_app in Hout.
  destruct (dedupe_from sim [] pre t) as [acc|] eqn:Hpre; simpl in Hout; [|done].
  destruct (scan sim acc item t) as [d|] eqn:Hscan; simpl in Hout; [|done].
  exists acc, d. split_and!; [done|done| | | |].
  - rewrite dedupe_from_app, Hpre. simpl. by rewrite Hscan.
  - apply dedupe_from_sublist in Hout as (kept & -> & _). by eexists.
  - split.
    + intros ->. apply scan_true in Hscan as (acc1 & e & acc2 & -> & _ & He).
      exists e. split; [set_solver|by apply duplicate_of_true].
    + intros (e & Hin & Hm). destruct d; [done|]. exfalso.
      apply scan_false in Hscan. rewrite Forall_forall in Hscan.
      by eapply duplicate_of_false; [apply Hscan|].
  - intros ->. apply scan_true in Hscan as (acc1 & e & acc2 & -> & H1 & He).
    exists acc1, e, acc2. split_and!; [done| |by apply duplicate_of_true].
    eapply Forall_impl; [exact H1|]. intros e'. apply duplicate_of_false.
Qed.

Lemma dedupe_first_seen_wins_witness :
  is_Some (dedupe_items RapidFuzz.token_sort_ratio
             [Examples.https_www; Examples.https_bare; Examples.other_story] 0.9)
  ∧ [Examples.https_www; Examples.other_story]
      `sublist_of` [Examples.https_www; Examples.https_bare; Examples.other_story]
  ∧ ∃ e, e ∈ [Examples.https_www]
         ∧ Spec.is_match RapidFuzz.token_sort_ratio e Examples.https_bare 0.9.
Proof.
  pose proof (dedupe_first_seen_wins RapidFuzz.token_sort_ratio
                [Examples.https_www] Examples.https_bare [Examples.other_story] 0.9)
    as [Htotal Hout].
  split.
  { apply Htotal. repeat constructor; vm_compute; eauto. }
  destruct (Hout [Examples.https_www; Examples.other_story])
    as (Hsub & acc & d & Hpre & Hscan & _ & _ & Hmatch & _).
  { vm_compute. reflexivity. }
  split; [exact Hsub|].
  vm_compute in Hpre. injection Hpre as <-.
  vm_compute in Hscan. injection Hscan as <-.
  apply Hmatch. reflexivity.
Defined.

(** ** C2: canonical URLs and the URL branch of the filter *)

(** C2, as the code has it.  [canonicalize_url] keeps the scheme of a URL
    and supplies [https] only where there is none: the URL
    [http://WWW.Example.com/a#frag] becomes [http://example.com/a], while
    [https://WWW.Example.com/a#frag], [//WWW.Example.com/a#frag] and
    [https://example.com/a] all become [https://example.com/a].  Whenever
    the URLs of two records have the same canonical form, the later record
    is a duplicate of the earlier one whatever the titles, the fingerprints,
    the similarity function and the threshold. *)
Theorem same_canonical_url_dedupes (sim : string → string → Q)
    (a b : NewsItem) (t : Q) (u : string) :
  canonicalize_url (url a) = Some u →
  canonicalize_url (url b) = Some u →
  duplicate_of sim a b t = Some true
  ∧ dedupe_items sim [a; b] t = Some [a]
  ∧ (∀ acc d, a ∈ acc → scan sim acc b t = Some d → d = true)
  ∧ canonicalize_url "http://WWW.Example.com/a#frag" = Some "http://example.com/a"
  ∧ canonicalize_url "https://WWW.Example.com/a#frag" = Some "https://example.com/a"
  ∧ canonicalize_url "//WWW.Example.com/a#frag" = Some "https://example.com/a"
  ∧ canonicalize_url "https://example.com/a" = Some "https://example.com/a".
Proof.
  intros Ha Hb.
  pose proof (duplicate_of_same_url sim a b t u Ha Hb) as Hdup.
  split; [exact Hdup|]. split.
  { unfold dedupe_items. simpl. rewrite Hdup. reflexivity. }
  split.
  { intros acc [] Hin Hscan; [done|]. apply scan_false in Hscan.
    rewrite Forall_forall in Hscan. specialize (Hscan a Hin). congruence. }
  split_and!; vm_compute; reflexivity.
Qed.

Lemma same_canonical_url_dedupes_witness :
  hash Examples.https_www ≠ hash Examples.https_bare
  ∧ dedupe_items RapidFuzz.token_sort_ratio
      [Examples.https_www; Examples.https_bare] 1 = Some [Examples.https_www].
Proof.
  split; [vm_compute; discriminate|].
  apply (same_canonical_url_dedupes RapidFuzz.token_sort_ratio
           Examples.https_www Examples.https_bare 1 "https://example.com/a");
    vm_compute; reflexivity.
Defined.

(** The two URLs of the specification's example have different canonical
    forms, and the two records that carry them are both kept. *)
Lemma http_and_https_stay_apart :
  canonicalize_url "http://WWW.Example.com/a#frag"
    ≠ canonicalize_url "https://example.com/a"
  ∧ dedupe_items RapidFuzz.token_sort_ratio
      [Examples.http_www; Examples.https_bare] 0.9
    = Some [Examples.http_www; Examples.https_bare].
Proof. split; [vm_compute; discriminate|vm_compute; reflexivity]. Qed.

(** ** The built-ins [max] and [round] *)

Lemma Qgtb_true x y : Qgtb x y = true ↔ (y < x)%Q.
Proof.
  unfold Qgtb. rewrite negb_true_iff, <-not_true_iff_false, Qle_bool_iff.
  split; [apply Qnot_le_lt|apply Qlt_not_le].
Qed.

Lemma Qgtb_false x y : Qgtb x y = false ↔ (x <= y)%Q.
Proof. unfold Qgtb. by rewrite negb_false_iff, Qle_bool_iff. Qed.

(** [max] returns an element of its argument that no element exceeds. *)
Lemma first_best_Q_max x l :
  first_best Qgtb x l ∈ x :: l ∧ Forall (λ y, (y <= first_best Qgtb x l)%Q) (x :: l).
Proof.
  unfold first_best. revert x. induction l as [|y l IH]; intros x; simpl.
  - split; [left|]. repeat constructor. apply Qle_refl.
  - destruct (Qgtb y x) eqn:Hg.
    + destruct (IH y) as [Hin Hall]. split; [by right|].
      apply Forall_cons_1 in Hall as [Hy Hl].
      repeat constructor; [|done..].
      apply Qgtb_true in Hg. eapply Qle_trans; [apply Qlt_le_weak, Hg|done].
    + destruct (IH x) as [Hin Hall]. split.
      { apply elem_of_cons in Hin as [->|Hin]; [left|by do 2 right]. }
      apply Forall_cons_1 in Hall as [Hx Hl].
      repeat constructor; [done| |done].
      apply Qgtb_false in Hg. by eapply Qle_trans.
Qed.




(** ** C7: the similarity handed to the scorer *)

(** C7.  The similarity of a cluster is [0.0] for one member (and for
    none); for a cluster of a first member and at least one other it is the
    greatest of the similarities between the normalised title of the first
    member and the normalised title of each other member: it is one of
    them and none of them exceeds it.  It is the similarity with which
    [build_cluster] calls the scorer. *)
Theorem intra_similarity_is_max (sim : string → string → Q)
    (first : NewsItem) (others : list NewsItem) :
  let ratio (m : NewsItem) :=
    (sim (normalize_title (title first)) (normalize_title (title m)) / 100)%Q in
  intra_similarity sim [] = 0.0%Q
  ∧ intra_similarity sim [first] = 0.0%Q
  ∧ (others ≠ [] →
     intra_similarity sim (first :: others) ∈ ratio <$> others
     ∧ Forall (λ m, (ratio m <= intra_similarity sim (first :: others))%Q) others)
  ∧ ∀ w, build_cluster sim (first :: others) w
         = (let* cluster_id := uuid4 in
            let* sc := score_cluster (first :: others)
                         (intra_similarity sim (first :: others)) in
            ret {| schema_version := 1;
                   cluster_id := validated cluster_id;
                   canonical_title := validated (title first);
                   cluster_summary :=
                     validated (default (title first) (truthy (summary first)));
                   score := sc;
                   source_count :=
                     size (list_to_set (source <$> first :: others) : gset string);
                   entities :=
                     validated <$> extract_entities
                                     (join " " (title <$> first :: others));
                   sentiment_hint := None;
                   first_seen :=
                     first_best Z.ltb (published_at first) (published_at <$> others);
                   last_seen :=
                     first_best Z.gtb (published_at first) (published_at <$> others);
                   links := link_of <$> first :: others |}) w.
Proof.
  intros ratio. split; [done|]. split; [done|]. split.
  - destruct others as [|m rest]; [done|]. intros _.
    change (intra_similarity sim (first :: m :: rest))
      with (first_best Qgtb (ratio m) (map ratio rest)).
    destruct (first_best_Q_max (ratio m) (map ratio rest)) as [Hin Hall].
    split; [exact Hin|].
    change (ratio m :: map ratio rest) with (map ratio (m :: rest)) in Hall.
    apply (Forall_fmap ratio) in Hall. exact Hall.
  - intros w. reflexivity.
Qed.

Lemma intra_similarity_is_max_witness :
  (intra_similarity RapidFuzz.token_sort_ratio
     [Examples.report_a; Examples.report_b; Examples.other_story] == 26 # 29)%Q.
Proof.
  pose proof (intra_similarity_is_max RapidFuzz.token_sort_ratio Examples.report_a
                [Examples.report_b; Examples.other_story])
    as (_ & _ & H & _).
  destruct H as [_ Hall]; [done|].
  apply Forall_cons_1 in Hall as [Hb _]. unfold Qle in *.
  apply Qle_antisym; [by vm_compute|].
  eapply Qle_trans; [|exact Hb]. by vm_compute.
Defined.

(** ** C8: freshness *)


Lemma total_hours_le (d k : Z) :
  (d <= k * 3600000000)%Z → (total_seconds d / 3600 <= inject_Z k)%Q.
Proof.
  unfold total_seconds, Qle, Qdiv, Qmult, Qinv. simpl.
  change (Z.pos (1000000 * 3600)) with 3600000000%Z. lia.
Qed.



(** Rounding to the nearest integer moves a number by a half at most. *)
Lemma round_half_even_near (y : Q) :
  (y - (1 # 2) <= inject_Z (round_half_even y) <= y + (1 # 2))%Q.
Proof.
  pose proof (Qfloor_le y) as Hlo. pose proof (Qlt_floor y) as Hhi.
  unfold round_half_even. set (f := Qfloor y) in *.
  assert (Hnext : inject_Z (f + 1) = (inject_Z f + 1)%Q) by apply inject_Z_plus.
  rewrite Hnext in Hhi.
  destruct (Qcompare_spec (y - inject_Z f) (1 # 2)) as [Hc|Hc|Hc];
    [destruct (Z.even f)|..]; rewrite ?Hnext; split; lra.
Qed.




(** ** The order of strings and [sorted] *)

Lemma string_compare_lt_trans a b c :
  String.compare a b = Lt → String.compare b c ≠ Gt → String.compare a c = Lt.
Proof.
  revert b c. induction a as [|x a IH]; intros [|y b] [|z c]; simpl; try done.
  unfold Ascii.compare.
  destruct (N.compare_spec (N_of_ascii x) (N_of_ascii y)) as [Hxy|Hxy|Hxy];
    destruct (N.compare_spec (N_of_ascii y) (N_of_ascii z)) as [Hyz|Hyz|Hyz];
    destruct (N.compare_spec (N_of_ascii x) (N_of_ascii z)) as [Hxz|Hxz|Hxz];
    try done; try lia.
  apply IH.
Qed.

Global Instance string_le_dec s1 s2 : Decision (string_le s1 s2).
Proof. unfold string_le. apply _. Defined.

Global Instance string_le_total : Total string_le.
Proof.
  intros a b. unfold string_le.
  destruct (String.leb_total a b) as [->| ->]; [by left|by right].
Qed.

Global Instance string_le_trans : Transitive string_le.
Proof.
  intros a b c. unfold string_le, String.leb.
  destruct (String.compare a b) eqn:Hab; [|  |done].
  - apply String.compare_eq_iff in Hab as ->. done.
  - intros _ Hbc.
    rewrite (string_compare_lt_trans a b c Hab); [done|].
    by destruct (String.compare b c).
Qed.

Lemma string_le_ne_lt a b : string_le a b → a ≠ b → String.ltb a b = true.
Proof.
  unfold string_le, String.leb, String.ltb.
  destruct (String.compare a b) eqn:Hab; [|done..].
  apply String.compare_eq_iff in Hab. done.
Qed.

(** [sorted] of a list without repetition is strictly increasing and has
    the same elements. *)
Lemma sorted_strings_spec l :
  NoDup l →
  StronglySorted (λ a b, String.ltb a b = true) (sorted_strings l)
  ∧ ∀ s, s ∈ sorted_strings l ↔ s ∈ l.
Proof.
  intros Hnd. unfold sorted_strings.
  set (k := merge_sort _ l).
  assert (Hp : k ≡ₚ l) by apply merge_sort_Permutation.
  assert (Hs : StronglySorted string_le k)
    by apply (StronglySorted_merge_sort string_le).
  rewrite <-Hp in Hnd. split; [|intros s; by rewrite Hp].
  clearbody k. clear Hp. induction Hs as [|x k Hk IH Hall]; [constructor|].
  apply NoDup_cons in Hnd as [Hx Hnd].
  constructor; [by apply IH|].
  rewrite Forall_forall in Hall |- *. intros y Hy.
  apply string_le_ne_lt; [by apply Hall|]. intros ->. done.
Qed.

(** ** C9: entity extraction *)

Lemma is_word_lower c : Re.is_word (lower_char c) = Re.is_word c.
Proof. by destruct c as [[] [] [] [] [] [] [] []]. Qed.

Lemma lower_char_idemp c : lower_char (lower_char c) = lower_char c.
Proof. by destruct c as [[] [] [] [] [] [] [] []]. Qed.

Lemma match_here_lower atoms prev text :
  Re.match_here atoms (lower_char <$> prev) (lower text)
  = Re.match_here atoms prev text.
Proof.
  revert prev text. induction atoms as [|[|c] atoms IH]; intros prev text; simpl.
  - done.
  - rewrite IH. f_equal. f_equal.
    + destruct prev; simpl; [apply is_word_lower|done].
    + destruct text; simpl; [done|apply is_word_lower].
  - destruct text as [|d text]; simpl; [done|].
    rewrite lower_char_idemp. f_equal. apply (IH (Some d)).
Qed.

Lemma search_from_unfold atoms prev text :
  Re.search_from atoms prev text
  = Re.match_here atoms prev text
    || match text with
       | String d text' => Re.search_from atoms (Some d) text'
       | EmptyString => false
       end.
Proof. by destruct text. Qed.

Lemma search_from_lower atoms prev text :
  Re.search_from atoms (lower_char <$> prev) (lower text)
  = Re.search_from atoms prev text.
Proof.
  revert prev. induction text as [|d text IH]; intros prev;
    rewrite (search_from_unfold atoms prev), search_from_unfold, match_here_lower;
    [done|].
  f_equal. apply (IH (Some d)).
Qed.

(** The search ignores the case of the text. *)
Lemma search_lower pattern text :
  Re.search pattern (lower text) = Re.search pattern text.
Proof. apply (search_from_lower (Re.parse pattern) None). Qed.

Lemma matched_tokens_spec text (patterns : list string) (seen : gset string) s :
  s ∈ fold_left
        (λ (entities : gset string) pattern,
           if Re.search pattern text
           then entities ∪ {[ token_of pattern ]}
           else entities)
        patterns seen
  ↔ s ∈ seen ∨ ∃ p, p ∈ patterns ∧ Re.search p text = true ∧ s = token_of p.
Proof.
  revert seen. induction patterns as [|p ps IH]; intros seen; simpl.
  - split; [by left|]. intros [?|(p & Hp & _)]; [done|]. by apply elem_of_nil in Hp.
  - rewrite IH. destruct (Re.search p text) eqn:Hp.
    + rewrite elem_of_union, elem_of_singleton. split.
      * intros [[?| ->]|(q & Hq & ? & ?)]; [by left| |].
        -- right. exists p. split_and!; [left|done..].
        -- right. exists q. split_and!; [by right|done..].
      * intros [?|(q & Hq & Hs & ->)]; [by left; left|].
        apply elem_of_cons in Hq as [->|Hq]; [by left; right|].
        right. by exists q.
    + split.
      * intros [?|(q & Hq & ? & ?)]; [by left|].
        right. exists q. split_and!; [by right|done..].
      * intros [?|(q & Hq & Hs & ->)]; [by left|].
        apply elem_of_cons in Hq as [->|Hq]; [congruence|].
        right. by exists q.
Qed.

(** C9.  The entities of a text are strictly increasing in the order of
    strings, hence without repetition; a string is among them exactly when
    it is the bare token, in capitals, of a pattern found in the text, the
    search ignoring case; the bare tokens are those of the nine patterns;
    and the two titles of the example give [BTC], [ETF] and [SEC]. *)
Theorem extract_entities_sorted_tokens (text : string) :
  StronglySorted (λ a b, String.ltb a b = true) (extract_entities text)
  ∧ NoDup (extract_entities text)
  ∧ (∀ s, s ∈ extract_entities text
          ↔ ∃ p, p ∈ ENTITY_PATTERNS ∧ Re.search p text = true ∧ s = token_of p)
  ∧ token_of <$> ENTITY_PATTERNS
    = ["BTC"; "ETH"; "SOL"; "XRP"; "SEC"; "ETF"; "HACK"; "FUNDING RATE"; "LISTING"]
  ∧ extract_entities (join " " ["Bitcoin hits $50k"; "BTC ETF approved by SEC"])
    = ["BTC"; "ETF"; "SEC"].
Proof.
  unfold extract_entities.
  match goal with
  | |- context [sorted_strings (elements ?X)] => set (found := X)
  end.
  destruct (sorted_strings_spec (elements found) (NoDup_elements found))
    as [Hsorted Hmem].
  split; [exact Hsorted|]. split.
  { eapply NoDup_Permutation_proper; [|apply (NoDup_elements found)].
    apply merge_sort_Permutation. }
  split.
  { intros s. rewrite Hmem, elem_of_elements. unfold found.
    rewrite (matched_tokens_spec (lower text) ENTITY_PATTERNS ∅ s).
    split.
    - intros [H|(p & Hp & Hs & ->)]; [by apply elem_of_empty in H|].
      exists p. by rewrite <-search_lower.
    - intros (p & Hp & Hs & ->). right. exists p. by rewrite search_lower. }
  split; [by vm_compute|].
  clear. by vm_compute.
Qed.

(** ** The clusterer *)

Lemma insert_by_Permutation {A} (key : A → Z) x l : insert_by key x l ≡ₚ x :: l.
Proof.
  induction l as [|y l IH]; simpl; [done|].
  destruct (key x <=? key y)%Z; [done|]. rewrite IH. apply Permutation_swap.
Qed.

Lemma sorted_by_Permutation {A} (key : A → Z) l : sorted_by key l ≡ₚ l.
Proof.
  induction l as [|x l IH]; simpl; [done|].
  rewrite insert_by_Permutation. by rewrite IH.
Qed.

Lemma insert_by_Sorted {A} (key : A → Z) x l :
  Sorted (λ y z, (key y ≤ key z)%Z) l →
  Sorted (λ y z, (key y ≤ key z)%Z) (insert_by key x l).
Proof.
  induction 1 as [|y l Hl IH Hhd]; simpl; [by repeat constructor|].
  destruct (Z.leb_spec (key x) (key y)) as [Hxy|Hxy].
  - by repeat constructor.
  - constructor; [exact IH|].
    destruct Hhd as [|z l' Hyz]; simpl; [constructor; lia|].
    destruct (key x <=? key z)%Z; constructor; lia.
Qed.

(** [sorted_by] sorts by the key. *)
Lemma sorted_by_Sorted {A} (key : A → Z) l :
  Sorted (λ y z, (key y ≤ key z)%Z) (sorted_by key l).
Proof.
  induction l as [|x l IH]; simpl; [constructor|]. by apply insert_by_Sorted.
Qed.

Lemma insert_by_filter {A} (key : A → Z) x l k :
  filter (λ y, key y = k) (insert_by key x l) = filter (λ y, key y = k) (x :: l).
Proof.
  induction l as [|y l IH]; simpl; [done|].
  destruct (Z.leb_spec (key x) (key y)) as [Hxy|Hxy]; [done|].
  rewrite filter_cons, IH, !filter_cons.
  repeat case_decide; try done; lia.
Qed.

(** [sorted_by] is stable: records with the same key keep their order. *)
Lemma sorted_by_stable {A} (key : A → Z) l k :
  filter (λ y, key y = k) (sorted_by key l) = filter (λ y, key y = k) l.
Proof.
  induction l as [|x l IH]; simpl; [done|].
  rewrite insert_by_filter, !filter_cons, IH. done.
Qed.

(** Three records with increasing keys are sorted into that order from
    any order. *)
Lemma sorted_by_any_order {A} (key : A → Z) a b c l :
  (key a < key b)%Z → (key b < key c)%Z → l ≡ₚ [a; b; c] →
  sorted_by key l = [a; b; c].
Proof.
  intros Hab Hbc Hp. symmetry in Hp. apply permutations_Permutation in Hp.
  assert (Hle : ∀ x y, (key x < key y)%Z → (key x <=? key y)%Z = true)
    by (intros; apply Z.leb_le; lia).
  assert (Hgt : ∀ x y, (key x < key y)%Z → (key y <=? key x)%Z = false)
    by (intros; apply Z.leb_gt; lia).
  assert (Hac : (key a < key c)%Z) by lia.
  cbn in Hp.
  repeat (apply elem_of_cons in Hp as [->|Hp]);
    [..|by apply elem_of_nil in Hp];
    unfold sorted_by; cbn [fold_right insert_by];
    rewrite ?(Hle a b), ?(Hle b c), ?(Hle a c), ?(Hgt a b), ?(Hgt b c), ?(Hgt a c)
      by done;
    cbn [insert_by];
    rewrite ?(Hle a b), ?(Hle b c), ?(Hle a c), ?(Hgt a b), ?(Hgt b c), ?(Hgt a c)
      by done;
    cbn [insert_by];
    rewrite ?(Hle a b), ?(Hle b c), ?(Hle a c), ?(Hgt a b), ?(Hgt b c), ?(Hgt a c)
      by done;
    reflexivity.
Qed.

(** The sort leaves a list in the order of its keys as it is. *)
Lemma sorted_by_sorted {A} (key : A → Z) (l : list A) :
  Sorted (λ y z, (key y ≤ key z)%Z) l → sorted_by key l = l.
Proof.
  induction 1 as [|x l Hs IH Hhd]; [done|].
  unfold sorted_by in *. cbn [fold_right]. rewrite IH.
  destruct Hhd as [|y l' Hxy]; [done|].
  cbn [insert_by]. by apply Z.leb_le in Hxy as ->.
Qed.

(** The sort leaves a chain of non-decreasing keys as it is. *)
Lemma sorted_by_three {A} (key : A → Z) a b c :
  (key a ≤ key b)%Z → (key b ≤ key c)%Z → sorted_by key [a; b; c] = [a; b; c].
Proof.
  intros Hab%Z.leb_le Hbc%Z.leb_le. unfold sorted_by. simpl.
  rewrite Hbc. simpl. by rewrite Hab.
Qed.

Section ClusterFacts.
Variable sim : string → string → Q.
Implicit Types (clusters groups : list (list NewsItem)) (item : NewsItem).

Lemma build_cluster_cons first others w :
  build_cluster sim (first :: others) w
  = Some (cluster_of sim (uuids w 0) (clock w 0) first others, next_world w).
Proof. reflexivity. Qed.

Lemma for_each_build_cluster groups w :
  Forall (λ g, g ≠ []) groups →
  ∃ w', for_each (build_cluster sim) groups w = Some (clusters_of sim w groups, w').
Proof.
  intros Hne. revert w. induction Hne as [|g groups Hg _ IH]; intros w.
  - by eexists.
  - destruct g as [|first others]; [done|].
    destruct (IH (next_world w)) as [w' Hw'].
    exists w'. cbn [for_each]. unfold bind at 1.
    rewrite build_cluster_cons. unfold bind at 1. rewrite Hw'. reflexivity.
Qed.

Lemma clusters_of_links w groups :
  Forall (λ g, g ≠ []) groups →
  links <$> clusters_of sim w groups = fmap link_of <$> groups.
Proof.
  intros Hne. revert w. induction Hne as [|g groups Hg _ IH]; intros w; [done|].
  destruct g as [|first others]; [done|]. simpl. f_equal. apply IH.
Qed.

(** Worlds that give the same readings and identifiers give the same
    clusters. *)
Lemma clusters_of_ext w1 w2 groups :
  (∀ n, clock w1 n = clock w2 n) → (∀ n, uuids w1 n = uuids w2 n) →
  clusters_of sim w1 groups = clusters_of sim w2 groups.
Proof.
  revert w1 w2. induction groups as [|g groups IH]; intros w1 w2 Hc Hu; [done|].
  destruct g as [|first others]; [done|]. simpl. rewrite Hc, Hu. f_equal.
  apply IH; intros n; simpl; [apply Hc|apply Hu].
Qed.

Lemma clusters_of_world_free w1 w2 groups :
  world_free <$> clusters_of sim w1 groups = world_free <$> clusters_of sim w2 groups.
Proof.
  revert w1 w2. induction groups as [|g groups IH]; intros w1 w2; [done|].
  destruct g as [|first others]; [done|]. simpl. f_equal. apply IH.
Qed.

Lemma joins_last pre last_item item window t :
  joins sim (pre ++ [last_item]) item window t
  = Some (if (Z.abs (published_at item - published_at last_item) >? window)%Z
          then false
          else Qle_bool t (sim (normalize_title (title last_item))
                               (normalize_title (title item)) / 100)%Q).
Proof.
  unfold joins. rewrite last_snoc. simpl. unfold ensure_utc.
  by destruct (_ >? _)%Z.
Qed.

Lemma joins_total cluster item window t :
  cluster ≠ [] → is_Some (joins sim cluster item window t).
Proof.
  intros Hne. destruct (exists_last Hne) as (pre & l & ->).
  rewrite joins_last. by eexists.
Qed.

Lemma matched_cluster_total clusters item window t :
  Forall (λ g, g ≠ []) clusters →
  ∃ m, matched_cluster sim clusters item window t = Some m
       ∧ ∀ i, m = Some i → i < length clusters.
Proof.
  intros Hne. induction Hne as [|g clusters Hg _ IH]; simpl.
  - exists None. by split.
  - destruct (joins_total g item window t Hg) as [b ->]. simpl.
    destruct b.
    + exists (Some 0). split; [done|]. intros i [= <-]. lia.
    + destruct IH as (m & -> & Hm). simpl. exists (S <$> m). split; [done|].
      intros i Hi. destruct m as [j|]; simplify_eq/=.
      specialize (Hm j eq_refl). lia.
Qed.

Lemma concat_alter_snoc clusters i item :
  i < length clusters →
  concat (alter (λ g, g ++ [item]) i clusters) ≡ₚ concat clusters ++ [item].
Proof.
  revert i. induction clusters as [|g clusters IH]; intros i Hi; simpl in *; [lia|].
  destruct i as [|i]; simpl.
  - rewrite <-!app_assoc. apply Permutation_app_head, Permutation_app_comm.
  - rewrite <-app_assoc. apply Permutation_app_head, IH. lia.
Qed.

Lemma place_total clusters item window t :
  Forall (λ g, g ≠ []) clusters →
  ∃ clusters', place sim clusters item window t = Some clusters'
    ∧ Forall (λ g, g ≠ []) clusters'
    ∧ concat clusters' ≡ₚ concat clusters ++ [item].
Proof.
  intros Hne. unfold place.
  destruct (matched_cluster_total clusters item window t Hne) as (m & -> & Hm).
  simpl. destruct m as [i|]; eexists; (split; [done|]); split.
  - apply Forall_alter; [done|]. intros g _ _. by destruct g.
  - apply concat_alter_snoc. by apply Hm.
  - apply Forall_app. split; [done|]. by repeat constructor.
  - rewrite concat_app. done.
Qed.

Lemma group_from_total clusters items window t :
  Forall (λ g, g ≠ []) clusters →
  ∃ out, group_from sim clusters items window t = Some out
    ∧ Forall (λ g, g ≠ []) out
    ∧ concat out ≡ₚ concat clusters ++ items.
Proof.
  revert clusters. induction items as [|item items IH]; intros clusters Hne; simpl.
  - exists clusters. by rewrite app_nil_r.
  - destruct (place_total clusters item window t Hne) as (cs & -> & Hcs & Hp).
    simpl. destruct (IH cs Hcs) as (out & -> & Hout & Hp').
    exists out. split_and!; [done..|].
    rewrite Hp', Hp, <-app_assoc. done.
Qed.

Lemma group_from_cons clusters item items window t :
  group_from sim clusters (item :: items) window t
  = place sim clusters item window t ≫= λ clusters',
      group_from sim clusters' items window t.
Proof. reflexivity. Qed.

(** A record within the window of the last member of the first cluster,
    and similar enough to it, joins that cluster. *)
Lemma place_join_first members last_member rest item window t :
  (Z.abs (published_at item - published_at last_member) ≤ window)%Z →
  Qle_bool t (sim (normalize_title (title last_member))
                  (normalize_title (title item)) / 100)%Q = true →
  place sim ((members ++ [last_member]) :: rest) item window t
  = Some ((members ++ [last_member] ++ [item]) :: rest).
Proof.
  intros Hw Hs. unfold place. cbn [matched_cluster].
  rewrite joins_last, Hs.
  replace (Z.abs (published_at item - published_at last_member) >? window)%Z
    with false by (symmetry; rewrite Z.gtb_ltb; apply Z.ltb_ge; lia).
  simpl. by rewrite <-app_assoc.
Qed.

(** What the test of the inner loop is: the time from the last member,
    in either direction, is within the window, the bound included, and the
    similarity of the two titles is at least the threshold. *)
Lemma joins_true_iff members last_member item window t :
  joins sim (members ++ [last_member]) item window t = Some true
  ↔ (Z.abs (published_at item - published_at last_member) ≤ window)%Z
    ∧ (t <= sim (normalize_title (title last_member))
                (normalize_title (title item)) / 100)%Q.
Proof.
  rewrite joins_last. rewrite Z.gtb_ltb.
  destruct (Z.ltb_spec window (Z.abs (published_at item - published_at last_member)))
    as [Hlt|Hle].
  - split; [done|]. intros [? _]. lia.
  - rewrite <-Qle_bool_iff. split; [intros [= ->]; by split|by intros [_ ->]].
Qed.

(** A record out of the window of the last member of the only cluster, or
    not similar enough to it, opens a second cluster. *)
Lemma place_apart members last_member item window t :
  (window < Z.abs (published_at item - published_at last_member))%Z
  ∨ ¬ (t <= sim (normalize_title (title last_member))
                (normalize_title (title item)) / 100)%Q →
  place sim [members ++ [last_member]] item window t
  = Some [members ++ [last_member]; [item]].
Proof.
  intros Hout.
  assert (Hj : joins sim (members ++ [last_member]) item window t = Some false).
  { pose proof (joins_true_iff members last_member item window t) as Hiff.
    rewrite joins_last in *.
    destruct (if (_ >? _)%Z then false else _); [|done].
    destruct Hiff as [[Hw Hs] _]; [done|]. destruct Hout as [?|?]; [lia|done]. }
  unfold place. cbn [matched_cluster]. rewrite Hj. reflexivity.
Qed.

End ClusterFacts.

Lemma clusters_partition_input_groups (sim : string → string → Q)
    (items : list NewsItem) (window_minutes : Z) (threshold : Q) :
  ∃ groups, group_items sim items window_minutes threshold = Some groups
            ∧ Forall (λ g, g ≠ []) groups.
Proof.
  unfold group_items.
  destruct (group_from_total sim [] (sorted_by published_at items)
              (window_minutes * 60000000) threshold)
    as (groups & Hg & Hne & _); [constructor|].
  by exists groups.
Qed.

(** C10.  The clusterer returns, and its clusters partition the input:
    the member lists it forms are non-empty and together hold the input
    records with their multiplicities, each record in one list only; a
    returned cluster lists its members, in order, in [links]. *)
Theorem clusters_partition_input (sim : string → string → Q)
    (items : list NewsItem) (window_minutes : Z) (threshold : Q) (w : World) :
  ∃ groups out w',
    group_items sim items window_minutes threshold = Some groups
    ∧ cluster_news_items sim items window_minutes threshold w = Some (out, w')
    ∧ concat groups ≡ₚ items
    ∧ Forall (λ g, g ≠ []) groups
    ∧ links <$> out = fmap link_of <$> groups
    ∧ Forall (λ c, links c ≠ []) out
    ∧ length out = length groups.
Proof.
  unfold cluster_news_items, group_items.
  destruct (group_from_total sim [] (sorted_by published_at items)
              (window_minutes * 60000000) threshold)
    as (groups & Hg & Hne & Hp); [constructor|].
  destruct (for_each_build_cluster sim groups w Hne) as [w' Hw'].
  exists groups, (clusters_of sim w groups), w'.
  pose proof (clusters_of_links sim w groups Hne) as Hlinks.
  split; [exact Hg|]. split.
  { unfold bind, lift. rewrite Hg. simpl. exact Hw'. }
  split.
  { rewrite Hp. simpl. apply sorted_by_Permutation. }
  split; [exact Hne|]. split; [exact Hlinks|]. split.
  - apply (Forall_fmap links (λ l, l ≠ [])). rewrite Hlinks.
    apply (Forall_fmap (fmap link_of) (λ l, l ≠ [])).
    eapply Forall_impl; [exact Hne|]. intros g Hgne. by destruct g.
  - apply (f_equal length) in Hlinks. by rewrite !length_fmap in Hlinks.
Qed.

(** ** C5: the window is measured from the last member *)

(** C5.  The test that lets a record join a cluster is made against the
    cluster's last member and against nothing else: the record joins
    exactly when its time is within the window of the last member's, the
    bound included, and its title is similar enough to the last member's.
    Hence three records in time order, the second within the window of the
    first and similar to it, the third within the window of the second and
    similar to it, form one cluster, whatever the time from the first to the
    third and whatever the similarity of the first and the third; when
    their times differ, also in whatever order the three are given.  A
    fourth record that is later than the window allows after the third, or
    not similar enough to the third, stays out of that cluster, however
    close or similar it is to the first two. *)
Theorem chained_window (sim : string → string → Q) (a b c : NewsItem)
    (window_minutes : Z) (threshold : Q) :
  let window := (window_minutes * 60000000)%Z in
  let ratio (x y : NewsItem) :=
    (sim (normalize_title (title x)) (normalize_title (title y)) / 100)%Q in
  (published_at a ≤ published_at b)%Z →
  (published_at b ≤ published_at c)%Z →
  (published_at b - published_at a ≤ window)%Z →
  (published_at c - published_at b ≤ window)%Z →
  (threshold <= ratio a b)%Q →
  (threshold <= ratio b c)%Q →
  group_items sim [a; b; c] window_minutes threshold = Some [[a; b; c]]
  ∧ (∀ w, ∃ cl w',
       cluster_news_items sim [a; b; c] window_minutes threshold w = Some ([cl], w')
       ∧ links cl = link_of <$> [a; b; c])
  ∧ (∀ members last_member item win t,
       joins sim (members ++ [last_member]) item win t
       = joins sim [last_member] item win t)
  ∧ (∀ members last_member item win t,
       joins sim (members ++ [last_member]) item win t = Some true
       ↔ (Z.abs (published_at item - published_at last_member) ≤ win)%Z
         ∧ (t <= ratio last_member item)%Q)
  ∧ (∀ members last_member item win t,
       joins sim (members ++ [last_member]) item win t = Some false
       ↔ (win < Z.abs (published_at item - published_at last_member))%Z
         ∨ ¬ (t <= ratio last_member item)%Q)
  ∧ (∀ d, (published_at c ≤ published_at d)%Z →
       (window < published_at d - published_at c)%Z
       ∨ ¬ (threshold <= ratio c d)%Q →
       group_items sim [a; b; c; d] window_minutes threshold
       = Some [[a; b; c]; [d]])
  ∧ ((published_at a < published_at b)%Z → (published_at b < published_at c)%Z →
     ∀ items, items ≡ₚ [a; b; c] →
       group_items sim items window_minutes threshold = Some [[a; b; c]]).
Proof.
  intros window ratio Hab Hbc Hwab Hwbc Hsab Hsbc.
  assert (Hfrom : group_from sim [] [a; b; c] window threshold = Some [[a; b; c]]).
  { apply Qle_bool_iff in Hsab, Hsbc.
    rewrite group_from_cons. change (place sim [] a window threshold) with (Some [[a]]).
    cbn [mbind option_bind].
    rewrite group_from_cons, (place_join_first sim [] a [] b); [|lia|exact Hsab].
    cbn [mbind option_bind app].
    rewrite group_from_cons, (place_join_first sim [a] b [] c); [|lia|exact Hsbc].
    reflexivity. }
  assert (Hg : group_items sim [a; b; c] window_minutes threshold = Some [[a; b; c]]).
  { unfold group_items. rewrite sorted_by_three by done. exact Hfrom. }
  split; [exact Hg|]. split.
  { intros w. unfold cluster_news_items, bind, lift. rewrite Hg. simpl.
    eexists _, _. split; reflexivity. }
  split.
  { intros members last_member item win t.
    rewrite (joins_last sim members). symmetry. apply (joins_last sim []). }
  split.
  { intros members last_member item win t. apply joins_true_iff. }
  split.
  { intros members last_member item win t.
    pose proof (joins_true_iff sim members last_member item win t) as Hiff.
    fold (ratio last_member item) in Hiff.
    rewrite joins_last in *.
    destruct (if (_ >? _)%Z then false else _).
    - destruct Hiff as [[Hw Hs] _]; [done|]. split; [done|].
      intros [?|?]; [lia|done].
    - split; [|done]. intros _.
      destruct (Z_lt_le_dec win (Z.abs (published_at item - published_at last_member)))
        as [?|Hw]; [by left|].
      right. intros Hs. destruct Hiff as [_ Hback].
      by specialize (Hback (conj Hw Hs)). }
  split.
  { intros d Hcd Hout. unfold group_items.
    rewrite sorted_by_sorted by (repeat constructor; done). fold window.
    assert (Hsplit : group_from sim [] [a; b; c; d] window threshold
                     = group_from sim [] [a; b; c] window threshold
                       ≫= λ clusters, place sim clusters d window threshold).
    { cbn [group_from].
      destruct (place sim [] a window threshold) as [c1|]; [|done]. cbn [mbind option_bind].
      destruct (place sim c1 b window threshold) as [c2|]; [|done]. cbn [mbind option_bind].
      destruct (place sim c2 c window threshold) as [c3|]; [|done]. cbn [mbind option_bind].
      by destruct (place sim c3 d window threshold). }
    rewrite Hsplit, Hfrom. cbn [mbind option_bind].
    apply (place_apart sim [a; b] c d).
    destruct Hout as [Hlate|Hfar]; [left; lia|by right]. }
  intros Hab' Hbc' items Hp. rewrite <-Hg. unfold group_items.
  rewrite (sorted_by_any_order published_at a b c items) by done.
  by rewrite sorted_by_three.
Qed.

Lemma chained_window_witness :
  (15 * 60000000 < published_at Examples.report_c - published_at Examples.report_a)%Z
  ∧ group_items RapidFuzz.token_sort_ratio
      [Examples.report_a; Examples.report_b; Examples.report_c] 15 0.8
    = Some [[Examples.report_a; Examples.report_b; Examples.report_c]]
  ∧ group_items RapidFuzz.token_sort_ratio
      [Examples.report_a; Examples.report_b; Examples.report_c; Examples.report_late]
      15 0.8
    = Some [[Examples.report_a; Examples.report_b; Examples.report_c];
            [Examples.report_late]].
Proof.
  split; [by vm_compute|].
  destruct (chained_window RapidFuzz.token_sort_ratio
              Examples.report_a Examples.report_b Examples.report_c 15 0.8)
    as (Hone & _ & _ & _ & _ & Hlate & _); [by vm_compute..|].
  split; [exact Hone|].
  apply Hlate; [by vm_compute|]. left. by vm_compute.
Defined.

(** ** C3: what the clusterer reads besides its arguments *)

(** C3, as the code has it.  [cluster_news_items] takes the records, the
    window and the threshold; the clock and the identifier generator are
    not among its arguments: it calls [datetime.now] and [uuid.uuid4]
    itself, once for each cluster.  Its output is determined by its
    arguments together with the values these calls return: in two worlds
    that give the same clock readings and the same identifiers, two calls
    on the same arguments return the same clusters, scores included; and
    in any two worlds the clusters agree in all but [cluster_id] and
    [score]. *)
Theorem clusterer_determined_by_world (sim : string → string → Q)
    (items : list NewsItem) (window_minutes : Z) (threshold : Q) (w1 w2 : World) :
  (∀ n, clock w1 n = clock w2 n) →
  (∀ n, uuids w1 n = uuids w2 n) →
  result_in w1 (cluster_news_items sim items window_minutes threshold)
  = result_in w2 (cluster_news_items sim items window_minutes threshold)
  ∧ (∀ w3 w4,
       (λ out : list NewsCluster, world_free <$> out)
         <$> result_in w3 (cluster_news_items sim items window_minutes threshold)
       = (λ out : list NewsCluster, world_free <$> out)
           <$> result_in w4 (cluster_news_items sim items window_minutes threshold))
  ∧ ∃ groups,
      group_items sim items window_minutes threshold = Some groups
      ∧ ∀ w, result_in w (cluster_news_items sim items window_minutes threshold)
             = Some (clusters_of sim w groups).
Proof.
  intros Hclock Huuids.
  destruct (clusters_partition_input_groups sim items window_minutes threshold)
    as (groups & Hg & Hne).
  assert (Hrun : ∀ w,
             result_in w (cluster_news_items sim items window_minutes threshold)
             = Some (clusters_of sim w groups)).
  { intros w. unfold result_in, cluster_news_items, bind, lift. rewrite Hg. simpl.
    destruct (for_each_build_cluster sim groups w Hne) as [w' ->]. reflexivity. }
  split; [|split].
  - rewrite !Hrun. f_equal. by apply clusters_of_ext.
  - intros w3 w4. rewrite !Hrun. simpl. f_equal. apply clusters_of_world_free.
  - by exists groups.
Qed.

Lemma clusterer_determined_by_world_witness :
  result_in (Examples.world (60 * Examples.minute) "u")
    (cluster_news_items RapidFuzz.token_sort_ratio
       [Examples.report_a; Examples.other_story] 15 0.8)
  = result_in
      {| clock := λ n, (60 * Examples.minute + 0 * Z.of_nat n)%Z;
         uuids := λ n, "u" +:+ String (ascii_of_nat (48 + n)) EmptyString |}
      (cluster_news_items RapidFuzz.token_sort_ratio
         [Examples.report_a; Examples.other_story] 15 0.8).
Proof.
  apply (clusterer_determined_by_world RapidFuzz.token_sort_ratio
           [Examples.report_a; Examples.other_story] 15 0.8);
    intros n; reflexivity.
Defined.

(** The same arguments in two worlds: the identifiers differ, and so do
    the scores, the second clock being nine hours ahead of the first. *)
Lemma same_arguments_different_clusters :
  ∃ c1 c2,
    result_in (Examples.world (60 * Examples.minute) "u")
      (cluster_news_items RapidFuzz.token_sort_ratio [Examples.report_a] 15 0.8)
    = Some [c1]
    ∧ result_in (Examples.world (600 * Examples.minute) "v")
        (cluster_news_items RapidFuzz.token_sort_ratio [Examples.report_a] 15 0.8)
      = Some [c2]
    ∧ cluster_id c1 ≠ cluster_id c2
    ∧ ¬ (score c1 == score c2)%Q
    ∧ c1 ≠ c2.
Proof.
  eexists _, _. split; [vm_compute; reflexivity|].
  split; [vm_compute; reflexivity|].
  split; [vm_compute; discriminate|].
  split; [by vm_compute|]. vm_compute. discriminate.
Qed.

Import RateLimit Config Security NewsFetchApi MarketFetch FurtherNotions.

(** * Further properties *)

(** ** The de-duplication filter: what the output holds *)

Section DedupeOutput.
Variable sim : string → string → Q.
Implicit Types (acc items out : list NewsItem) (item : NewsItem) (t : Q).

Lemma match_free_snoc acc item t :
  match_free sim acc t →
  Forall (λ e, ¬ Spec.is_match sim e item t) acc →
  match_free sim (acc ++ [item]) t.
Proof.
  intros Hfree Hall i j e x Hij Hi Hj.
  pose proof (lookup_lt_Some _ _ _ Hj) as Hjlen.
  rewrite length_app in Hjlen. simpl in Hjlen.
  rewrite lookup_app_l in Hi by lia.
  destruct (decide (j < length acc)) as [Hlt|Hge].
  - rewrite lookup_app_l in Hj by done. exact (Hfree i j e x Hij Hi Hj).
  - rewrite lookup_app_r in Hj by lia.
    replace (j - length acc) with 0 in Hj by lia. simplify_eq/=.
    rewrite Forall_forall in Hall. apply Hall. by eapply list_elem_of_lookup_2.
Qed.

Lemma scan_false_no_match acc item t :
  scan sim acc item t = Some false → Forall (λ e, ¬ Spec.is_match sim e item t) acc.
Proof.
  intros H%scan_false. eapply Forall_impl; [exact H|].
  intros e. apply duplicate_of_false.
Qed.

Lemma scan_true_match acc item t :
  scan sim acc item t = Some true → ∃ e, e ∈ acc ∧ Spec.is_match sim e item t.
Proof.
  intros (acc1 & e & acc2 & -> & _ & He)%scan_true.
  exists e. split; [|by apply duplicate_of_true].
  apply elem_of_app. right. left.
Qed.

Lemma dedupe_from_match_free acc items t out :
  match_free sim acc t → dedupe_from sim acc items t = Some out → match_free sim out t.
Proof.
  revert acc. induction items as [|x items IH]; intros acc Hfree; simpl.
  - by intros [= <-].
  - destruct (scan sim acc x t) as [[]|] eqn:Hs; simpl; [by apply IH| |done].
    apply IH, match_free_snoc; [done|]. by apply scan_false_no_match.
Qed.

Lemma dedupe_from_covers acc items t out :
  dedupe_from sim acc items t = Some out →
  ∀ x, x ∈ items → x ∈ out ∨ ∃ e, e ∈ out ∧ Spec.is_match sim e x t.
Proof.
  revert acc. induction items as [|y items IH]; intros acc Hout x Hx.
  - by apply elem_of_nil in Hx.
  - simpl in Hout.
    destruct (scan sim acc y t) as [d|] eqn:Hs; simpl in Hout; [|done].
    pose proof (dedupe_from_sublist sim _ _ _ _ Hout) as (kept & -> & _).
    apply elem_of_cons in Hx as [->|Hx]; [|by eapply IH].
    destruct d.
    + right. apply scan_true_match in Hs as (e & He & Hm).
      exists e. split; [|done]. apply elem_of_app. by left.
    + left. rewrite !elem_of_app. left. right. left.
Qed.

End DedupeOutput.

Lemma dedupe_output_match_free_aux (sim : string → string → Q)
    (items out : list NewsItem) (t : Q) :
  dedupe_items sim items t = Some out → match_free sim out t.
Proof.
  intros Hout. apply (dedupe_from_match_free sim [] items t out); [|done].
  intros i j e x _ Hi. by rewrite lookup_nil in Hi.
Qed.

(** X1.  The records that the filter returns are free of duplicates: no
    returned record matches a returned record before it, be it by
    fingerprint, by canonical URL or by title similarity. *)
Theorem dedupe_output_match_free (sim : string → string → Q)
    (items out : list NewsItem) (t : Q) :
  dedupe_items sim items t = Some out →
  ∀ i j e x, i < j → out !! i = Some e → out !! j = Some x →
    ¬ Spec.is_match sim e x t.
Proof.
  intros Hout. by apply (dedupe_output_match_free_aux sim items out t).
Qed.

Lemma dedupe_output_match_free_witness :
  ¬ Spec.is_match RapidFuzz.token_sort_ratio Examples.https_www Examples.other_story 0.9.
Proof.
  apply (dedupe_output_match_free RapidFuzz.token_sort_ratio
           [Examples.https_www; Examples.https_bare; Examples.other_story]
           [Examples.https_www; Examples.other_story] 0.9 eq_refl 0 1);
    [lia|reflexivity..].
Defined.

(** X2.  Nothing is dropped without a reason: every record of the input
    is either returned or matches a returned record. *)
Theorem dedupe_drops_only_duplicates (sim : string → string → Q)
    (items out : list NewsItem) (t : Q) (x : NewsItem) :
  dedupe_items sim items t = Some out →
  x ∈ items →
  x ∈ out ∨ ∃ e, e ∈ out ∧ Spec.is_match sim e x t.
Proof. intros Hout Hx. by eapply dedupe_from_covers. Qed.

Lemma dedupe_drops_only_duplicates_witness :
  ∃ e, e ∈ [Examples.https_www; Examples.other_story]
       ∧ Spec.is_match RapidFuzz.token_sort_ratio e Examples.https_bare 0.9.
Proof.
  destruct (dedupe_drops_only_duplicates RapidFuzz.token_sort_ratio
              [Examples.https_www; Examples.https_bare; Examples.other_story]
              [Examples.https_www; Examples.other_story] 0.9 Examples.https_bare)
    as [Hin|He]; [reflexivity|by right; left| |exact He].
  exfalso. apply elem_of_cons in Hin as [Heq|Hin]; [discriminate Heq|].
  apply elem_of_cons in Hin as [Heq|Hin]; [discriminate Heq|].
  by apply elem_of_nil in Hin.
Defined.

(** X3.  The filter never returns more records than it is given, it keeps
    the first record of a non-empty input as its first output, and it
    returns nothing only for an empty input. *)
Theorem dedupe_keeps_first (sim : string → string → Q)
    (items out : list NewsItem) (t : Q) :
  dedupe_items sim items t = Some out →
  length out ≤ length items
  ∧ head out = head items
  ∧ (out = [] ↔ items = []).
Proof.
  intros Hout.
  pose proof (dedupe_from_sublist sim _ _ _ _ Hout) as (kept & -> & Hsub).
  split; [by apply sublist_length|].
  destruct items as [|x rest]; [by apply sublist_nil_r in Hsub as ->|].
  unfold dedupe_items in Hout. simpl in Hout.
  apply dedupe_from_sublist in Hout as (kept' & Hk & _). simpl in *.
  rewrite Hk. split; [done|]. by split.
Qed.

Lemma dedupe_keeps_first_witness :
  head [Examples.https_www; Examples.other_story]
  = head [Examples.https_www; Examples.https_bare; Examples.other_story].
Proof.
  apply (dedupe_keeps_first RapidFuzz.token_sort_ratio
           [Examples.https_www; Examples.https_bare; Examples.other_story]
           [Examples.https_www; Examples.other_story] 0.9 eq_refl).
Defined.

Lemma dedupe_from_distinct (sim : string → string → Q) acc items t :
  Forall (λ i, is_Some (canonicalize_url (url i))) (acc ++ items) →
  match_free sim (acc ++ items) t →
  dedupe_from sim acc items t = Some (acc ++ items).
Proof.
  revert acc. induction items as [|x items IH]; intros acc Hurls Hfree; simpl.
  - by rewrite app_nil_r.
  - apply Forall_app in Hurls as [Hacc Hitems].
    apply Forall_cons_1 in Hitems as [Hx Hitems].
    destruct (scan_total sim acc x t Hacc Hx) as [d Hd]. rewrite Hd. simpl.
    destruct d.
    + exfalso. apply scan_true_match in Hd as (e & He & Hm).
      apply list_elem_of_lookup_1 in He as [i Hi].
      apply (Hfree i (length acc) e x); [by eapply lookup_lt_Some| |by rewrite list_lookup_middle|done].
      by apply lookup_app_l_Some.
    + assert (Heq : acc ++ x :: items = (acc ++ [x]) ++ items)
        by (by rewrite <-app_assoc).
      rewrite Heq in *. apply IH; [|done].
      rewrite <-Heq. apply Forall_app. split; [done|by constructor].
Qed.

(** X4.  Records that do not match one another, and whose URLs parse, all
    pass the filter: the input is returned as it is. *)
Theorem dedupe_keeps_distinct_records (sim : string → string → Q)
    (items : list NewsItem) (t : Q) :
  Forall (λ i, is_Some (canonicalize_url (url i))) items →
  (∀ i j e x, i < j → items !! i = Some e → items !! j = Some x →
     ¬ Spec.is_match sim e x t) →
  dedupe_items sim items t = Some items.
Proof. intros Hurls Hfree. by apply (dedupe_from_distinct sim [] items t). Qed.

Lemma dedupe_keeps_distinct_records_witness :
  dedupe_items RapidFuzz.token_sort_ratio
    [Examples.https_www; Examples.other_story] 0.9
  = Some [Examples.https_www; Examples.other_story].
Proof.
  apply dedupe_keeps_distinct_records.
  - repeat constructor; vm_compute; eauto.
  - apply (dedupe_output_match_free_aux RapidFuzz.token_sort_ratio
             [Examples.https_www; Examples.other_story]
             [Examples.https_www; Examples.other_story] 0.9 eq_refl).
Defined.

(** ** The fingerprint is a digest of 64 characters *)

Lemma round_length st kw : length st = 8 → length (Sha256.round st kw) = 8.
Proof.
  intros H. do 9 (destruct st as [|? st]; try done).
Qed.

Lemma fold_round_length kws st :
  length st = 8 → length (fold_left Sha256.round kws st) = 8.
Proof.
  revert st. induction kws as [|kw kws IH]; intros st H; simpl; [done|].
  by apply IH, round_length.
Qed.

Lemma compress_length H block : length H = 8 → length (Sha256.compress H block) = 8.
Proof.
  intros HH. unfold Sha256.compress.
  rewrite length_zip_with, fold_round_length by done. lia.
Qed.

Lemma digest_words_length msg : length (Sha256.digest_words msg) = 8.
Proof.
  unfold Sha256.digest_words.
  generalize (Sha256.blocks_of (length (Sha256.words_of_bytes (Sha256.pad msg)))
                (Sha256.words_of_bytes (Sha256.pad msg))).
  intros blocks. assert (H : length Sha256.H0 = 8) by reflexivity.
  revert H. generalize Sha256.H0.
  induction blocks as [|b blocks IH]; intros H HH; simpl; [done|].
  by apply IH, compress_length.
Qed.

Lemma string_length_app s1 s2 :
  String.length (s1 +:+ s2) = String.length s1 + String.length s2.
Proof. induction s1 as [|c s1 IH]; simpl; [done|]. by rewrite IH. Qed.

Lemma hex_digit_lower_hex n : is_lower_hex (Sha256.hex_digit (Z.land n 15)) = true.
Proof.
  assert (0 ≤ Z.land n 15 < 16)%Z as Hb.
  { change 15%Z with (Z.ones 4). rewrite Z.land_ones by lia.
    apply Z.mod_pos_bound. lia. }
  remember (Z.land n 15) as d eqn:Hdef. clear Hdef.
  assert (d = 0 ∨ d = 1 ∨ d = 2 ∨ d = 3 ∨ d = 4 ∨ d = 5 ∨ d = 6 ∨ d = 7
          ∨ d = 8 ∨ d = 9 ∨ d = 10 ∨ d = 11 ∨ d = 12 ∨ d = 13 ∨ d = 14
          ∨ d = 15)%Z as Hd by lia.
  repeat destruct Hd as [-> | Hd]; try subst d; reflexivity.
Qed.

Lemma hex_of_word_shape w :
  String.length (Sha256.hex_of_word w) = 8
  ∧ all_chars is_lower_hex (Sha256.hex_of_word w) = true.
Proof.
  unfold Sha256.hex_of_word. change 8 with (length (rev (seq 0 8))) at 2.
  induction (rev (seq 0 8)) as [|i l [IHl IHc]]; [done|].
  cbn [fold_right all_chars String.length length].
  rewrite hex_digit_lower_hex, IHl. done.
Qed.

Lemma hexdigest_shape msg :
  String.length (Sha256.hexdigest msg) = 64
  ∧ all_chars is_lower_hex (Sha256.hexdigest msg) = true.
Proof.
  unfold Sha256.hexdigest.
  pose proof (digest_words_length msg) as Hlen.
  replace 64 with (8 * length (Sha256.digest_words msg)) by lia. clear Hlen.
  induction (Sha256.digest_words msg) as [|w l [IHl IHc]]; [done|].
  cbn [fold_right length]. destruct (hex_of_word_shape w) as [Hl Hc].
  rewrite string_length_app, all_chars_app, Hl, Hc, IHl, IHc. split; [lia|done].
Qed.

(** X5.  Whatever the title and the content, the fingerprint is a string
    of 64 characters, each a digit or a letter from [a] to [f]. *)
Theorem compute_hash_is_hex_digest (title content : string) :
  String.length (compute_hash title content) = 64
  ∧ all_chars is_lower_hex (compute_hash title content) = true.
Proof. apply hexdigest_shape. Qed.

(** ** Normal forms of text *)

(** X6.  Normalising a text twice is normalising it once, and whitespace
    around a text does not change its normal form. *)
Theorem normalize_text_idempotent (s : string) :
  normalize_text (normalize_text s) = normalize_text s
  ∧ normalize_text (strip s) = normalize_text s.
Proof. split; [apply normalize_text_idemp|apply normalize_text_strip]. Qed.

(** X7.  A normalised text has no whitespace at either end, and each of its
    whitespace characters is one space between two characters that are not
    whitespace. *)
Theorem normalize_text_shape (s : string) :
  single_spaced false (normalize_text s)
  ∧ starts_clean isspace (normalize_text s)
  ∧ rstrip_with isspace (normalize_text s) = normalize_text s
  ∧ sub_whitespace false (normalize_text s) = normalize_text s.
Proof.
  pose proof (normalize_text_single_spaced s) as Hs.
  split; [exact Hs|]. split; [|split].
  - rewrite normalize_text_unfold. apply rstrip_starts_clean, lstrip_starts_clean.
  - rewrite normalize_text_unfold. apply rstrip_idemp.
  - by apply sub_whitespace_fixed.
Qed.

Lemma all_space_sub_whitespace b s :
  all_chars isspace (sub_whitespace b s) = all_chars isspace s.
Proof.
  revert b. induction s as [|c s IH]; intros b; [done|].
  rewrite sub_whitespace_cons. cbn [all_chars]. destruct (isspace c) eqn:Hc.
  - destruct b; [apply IH|]. cbn [all_chars]. by rewrite IH.
  - cbn [all_chars]. by rewrite Hc.
Qed.

Lemma lstrip_empty_iff s :
  lstrip_with isspace s = EmptyString ↔ all_chars isspace s = true.
Proof.
  induction s as [|c s IH]; simpl; [done|].
  destruct (isspace c); [done|]. by split.
Qed.

Lemma rstrip_empty_iff s :
  rstrip_with isspace s = EmptyString ↔ all_chars isspace s = true.
Proof.
  induction s as [|c s IH]; simpl; [done|].
  destruct (rstrip_with isspace s) as [|d r].
  - destruct (isspace c); simpl; [|by split].
    split; [intros _; by apply IH|done].
  - split; [intros [=]|]. intros [_ H]%andb_prop. by apply IH in H.
Qed.

Lemma strip_empty_iff s : strip s = EmptyString ↔ all_chars isspace s = true.
Proof.
  unfold strip, strip_with. rewrite <-lstrip_rstrip, lstrip_empty_iff.
  rewrite <-rstrip_empty_iff, rstrip_idemp. apply rstrip_empty_iff.
Qed.

(** X8.  The normal form of a text is empty exactly when the text consists
    of whitespace only, the empty text included. *)
Theorem normalize_text_empty_iff (s : string) :
  normalize_text s = EmptyString ↔ all_chars isspace s = true.
Proof.
  rewrite normalize_text_unfold, strip_empty_iff. by rewrite all_space_sub_whitespace.
Qed.

Lemma isspace_lower c : isspace (lower_char c) = isspace c.
Proof. by destruct c as [[] [] [] [] [] [] [] []]. Qed.

Lemma lower_sub_whitespace b s :
  sub_whitespace b (lower s) = lower (sub_whitespace b s).
Proof.
  revert b. induction s as [|c s IH]; intros b; [done|].
  change (lower (String c s)) with (String (lower_char c) (lower s)).
  rewrite !sub_whitespace_cons, isspace_lower.
  destruct (isspace c); [destruct b|]; rewrite IH; reflexivity.
Qed.

Lemma lower_lstrip s :
  lstrip_with isspace (lower s) = lower (lstrip_with isspace s).
Proof.
  induction s as [|c s IH]; [done|].
  change (lower (String c s)) with (String (lower_char c) (lower s)).
  cbn [lstrip_with]. rewrite isspace_lower. by destruct (isspace c).
Qed.

Lemma lower_rstrip s :
  rstrip_with isspace (lower s) = lower (rstrip_with isspace s).
Proof.
  induction s as [|c s IH]; [done|].
  change (lower (String c s)) with (String (lower_char c) (lower s)).
  cbn [rstrip_with]. rewrite IH, isspace_lower.
  destruct (rstrip_with isspace s); [by destruct (isspace c)|done].
Qed.

Lemma lower_normalize_text s : normalize_text (lower s) = lower (normalize_text s).
Proof.
  rewrite !normalize_text_unfold. unfold strip, strip_with.
  by rewrite lower_sub_whitespace, lower_lstrip, lower_rstrip.
Qed.

Lemma lower_idemp s : lower (lower s) = lower s.
Proof.
  induction s as [|c s IH]; [done|].
  change (lower (String c s)) with (String (lower_char c) (lower s)).
  change (lower (String (lower_char c) (lower s)))
    with (String (lower_char (lower_char c)) (lower (lower s))).
  by rewrite lower_char_idemp, IH.
Qed.

(** X9.  The comparison key of a title is a normal form as well:
    taking the key of a key changes nothing, and neither the case of the
    letters nor the whitespace around the title matters. *)
Theorem normalize_title_idempotent (s : string) :
  normalize_title (normalize_title s) = normalize_title s
  ∧ normalize_title (lower s) = normalize_title s
  ∧ normalize_title (strip s) = normalize_title s
  ∧ normalize_text (normalize_title s) = normalize_title s.
Proof.
  unfold normalize_title.
  rewrite !lower_normalize_text, !lower_idemp, normalize_text_idemp, normalize_text_strip.
  done.
Qed.

(** ** The clusterer: the first match wins *)

Section ClusterPlacement.
Variable sim : string → string → Q.
Implicit Types (clusters groups : list (list NewsItem)) (item : NewsItem).

Lemma matched_cluster_spec clusters item window t m :
  matched_cluster sim clusters item window t = Some m →
  match m with
  | Some i =>
      ∃ c, clusters !! i = Some c
           ∧ joins sim c item window t = Some true
           ∧ ∀ j c', j < i → clusters !! j = Some c' →
               joins sim c' item window t = Some false
  | None => Forall (λ c, joins sim c item window t = Some false) clusters
  end.
Proof.
  revert m. induction clusters as [|c clusters IH]; intros m; simpl.
  - intros [= <-]. constructor.
  - destruct (joins sim c item window t) as [[]|] eqn:Hj; simpl; [| |done].
    + intros [= <-]. exists c. split_and!; [done..|]. intros j c' Hlt. lia.
    + destruct (matched_cluster sim clusters item window t) as [m'|]; [|done].
      simpl. intros [= <-]. specialize (IH m' eq_refl).
      destruct m' as [i|]; simpl.
      * destruct IH as (c0 & Hc0 & Hj0 & Hbefore). exists c0.
        split_and!; [done..|]. intros [|j] c' Hlt Hc'; simplify_eq/=; [done|].
        eapply Hbefore; [|done]. lia.
      * by constructor.
Qed.

Lemma place_cases clusters item window t :
  Forall (λ g, g ≠ []) clusters →
  (∃ i c, clusters !! i = Some c
          ∧ joins sim c item window t = Some true
          ∧ (∀ j c', j < i → clusters !! j = Some c' →
               joins sim c' item window t = Some false)
          ∧ place sim clusters item window t = Some (<[i := c ++ [item]]> clusters))
  ∨ (Forall (λ c, joins sim c item window t = Some false) clusters
     ∧ place sim clusters item window t = Some (clusters ++ [[item]])).
Proof.
  intros Hne.
  destruct (matched_cluster_total sim clusters item window t Hne) as (m & Hm & _).
  pose proof (matched_cluster_spec clusters item window t m Hm) as Hspec.
  unfold place. rewrite Hm. simpl. destruct m as [i|].
  - left. destruct Hspec as (c & Hc & Hj & Hbefore). exists i, c.
    split_and!; [done..|]. f_equal.
    apply list_eq. intros k. destruct (decide (k = i)) as [->|Hk].
    + pose proof (lookup_lt_Some _ _ _ Hc) as Hlen.
      rewrite list_lookup_alter, decide_True by done.
      rewrite Hc, list_lookup_insert_eq by done. done.
    + by rewrite list_lookup_alter_ne, list_lookup_insert_ne.
  - by right.
Qed.

End ClusterPlacement.

(** X10.  A record joins the first open cluster, in the order in which the
    clusters were opened, whose last member lies within the window of it,
    the bound included, and whose title is similar enough to its own; the
    other clusters stay as they are.  When no cluster takes it, it opens a
    new cluster after the others. *)
Theorem place_first_match (sim : string → string → Q)
    (clusters : list (list NewsItem)) (item : NewsItem) (window : Z) (t : Q) :
  Forall (λ g, g ≠ []) clusters →
  ((∃ i c, clusters !! i = Some c
           ∧ joins sim c item window t = Some true
           ∧ (∀ j c', j < i → clusters !! j = Some c' →
                joins sim c' item window t = Some false)
           ∧ place sim clusters item window t = Some (<[i := c ++ [item]]> clusters))
   ∨ (Forall (λ c, joins sim c item window t = Some false) clusters
      ∧ place sim clusters item window t = Some (clusters ++ [[item]])))
  ∧ (∀ members last_member,
       joins sim (members ++ [last_member]) item window t = Some true
       ↔ (Z.abs (published_at item - published_at last_member) ≤ window)%Z
         ∧ (t <= sim (normalize_title (title last_member))
                     (normalize_title (title item)) / 100)%Q).
Proof.
  intros Hne. split; [by apply place_cases|intros; apply joins_true_iff].
Qed.

Lemma place_first_match_witness :
  joins RapidFuzz.token_sort_ratio ([Examples.report_a] ++ [Examples.report_b])
    Examples.report_c (15 * Examples.minute) 0.8 = Some true.
Proof.
  apply (place_first_match RapidFuzz.token_sort_ratio
           [[Examples.other_story]; [Examples.report_a; Examples.report_b]]
           Examples.report_c (15 * Examples.minute) 0.8);
    [by repeat constructor|].
  split; vm_compute; intros [=].
Defined.

(** ** The clusterer: clusters are chains in time order *)

Lemma Sorted_snoc_last {A} (R : A → A → Prop) (l : list A) (x : A) :
  Sorted R l → (∀ y, last l = Some y → R y x) → Sorted R (l ++ [x]).
Proof.
  induction l as [|a l IH]; intros Hs Hl; simpl.
  - repeat constructor.
  - apply Sorted_inv in Hs as [Hs Hhd]. constructor.
    + apply IH; [done|]. intros y Hy. apply Hl. by destruct l.
    + destruct l as [|b l]; simpl; constructor.
      * by apply Hl.
      * by apply HdRel_inv in Hhd.
Qed.

Lemma Sorted_lookup_succ {A} (R : A → A → Prop) (l : list A) i x y :
  Sorted R l → l !! i = Some x → l !! S i = Some y → R x y.
Proof.
  intros Hs. revert i. induction Hs as [|a l Hs IH Hhd]; intros i Hx Hy; [done|].
  destruct i as [|i]; simpl in *.
  - simplify_eq. destruct l as [|b l]; simplify_eq/=. by apply HdRel_inv in Hhd.
  - by eapply IH.
Qed.

Lemma Sorted_weaken {A} (R R' : A → A → Prop) (l : list A) :
  (∀ x y, R x y → R' x y) → Sorted R l → Sorted R' l.
Proof.
  intros HR. induction 1 as [|a l Hs IH Hhd]; constructor; [done|].
  destruct Hhd; constructor. by apply HR.
Qed.

Lemma time_le_trans : Transitive time_le.
Proof. intros x y z. unfold time_le. lia. Qed.

Lemma chain_time_sorted sim window t (g : list NewsItem) :
  Sorted (linked sim window t) g → StronglySorted time_le g.
Proof.
  intros Hs. apply Sorted_StronglySorted; [apply time_le_trans|].
  eapply Sorted_weaken; [|exact Hs]. by intros x y [? _].
Qed.

Section ClusterChains.
Variable sim : string → string → Q.
Implicit Types (clusters groups : list (list NewsItem)) (item : NewsItem).

Lemma lookup_insert_snoc clusters i c item k g :
  clusters !! i = Some c → c ≠ [] →
  <[i := c ++ [item]]> clusters !! k = Some g →
  ∃ g0, clusters !! k = Some g0 ∧ head g = head g0
        ∧ ∀ x, x ∈ g → x ∈ g0 ∨ x = item.
Proof.
  intros Hc Hne Hg. pose proof (lookup_lt_Some _ _ _ Hc) as Hlen.
  destruct (decide (i = k)) as [<-|Hik].
  - rewrite list_lookup_insert_eq in Hg by done. simplify_eq.
    exists c. split_and!; [done|by destruct c|].
    intros x [Hx|Hx%list_elem_of_singleton]%elem_of_app; [by left|by right].
  - rewrite list_lookup_insert_ne in Hg by done. exists g. split_and!; auto.
Qed.

Lemma place_ok clusters item rest window t clusters' :
  grouping_ok sim window t clusters (item :: rest) →
  (∀ y, y ∈ rest → time_le item y) →
  place sim clusters item window t = Some clusters' →
  grouping_ok sim window t clusters' rest.
Proof.
  intros [Hne Hchain Hbefore Hheads] Hrest Hplace.
  destruct (place_cases sim clusters item window t Hne)
    as [(i & c & Hc & Hj & _ & Hp)|[_ Hp]];
    rewrite Hp in Hplace; simplify_eq.
  - assert (Hcne : c ≠ []) by (by eapply Forall_lookup_1 in Hne).
    split.
    + apply Forall_insert; [done|]. by destruct c.
    + apply Forall_insert; [done|]. apply Sorted_snoc_last.
      * by eapply Forall_lookup_1 in Hchain.
      * intros y Hy. pose proof Hy as [pre ->]%last_Some.
        apply joins_true_iff in Hj as [Hw Hs].
        assert (Hle : time_le y item).
        { apply (Hbefore (pre ++ [y])).
          - by eapply list_elem_of_lookup_2.
          - apply elem_of_app. right. by apply list_elem_of_singleton.
          - by left. }
        unfold time_le in Hle. split_and!; [done| |done]. lia.
    + intros g x y [k Hk]%list_elem_of_lookup_1 Hx Hy.
      destruct (lookup_insert_snoc _ _ _ _ _ _ Hc Hcne Hk) as (g0 & Hg0 & _ & Hin).
      destruct (Hin x Hx) as [Hx0| ->]; [|by apply Hrest].
      apply (Hbefore g0); [by eapply list_elem_of_lookup_2|done|by right].
    + intros i0 j g h x y Hij Hg Hh Hx Hy.
      destruct (lookup_insert_snoc _ _ _ _ _ _ Hc Hcne Hg) as (g0 & Hg0 & Hhg & _).
      destruct (lookup_insert_snoc _ _ _ _ _ _ Hc Hcne Hh) as (h0 & Hh0 & Hhh & _).
      rewrite Hhg in Hx. rewrite Hhh in Hy. by eapply Hheads.
  - split.
    + apply Forall_app. split; [done|]. by repeat constructor.
    + apply Forall_app. split; [done|]. by repeat constructor.
    + intros g x y [Hg|Hg%list_elem_of_singleton]%elem_of_app Hx Hy.
      * apply (Hbefore g); [done..|by right].
      * subst g. apply list_elem_of_singleton in Hx as ->. by apply Hrest.
    + intros i0 j g h x y Hij Hg Hh Hx Hy.
      apply lookup_app_Some in Hh as [Hh|[Hlen Hh]].
      * apply lookup_app_Some in Hg as [Hg|[Hlen _]].
        -- by eapply Hheads.
        -- apply lookup_lt_Some in Hh. lia.
      * apply list_lookup_singleton_Some in Hh as [Hj <-].
        apply lookup_app_Some in Hg as [Hg|[Hlen' Hg]];
          [|apply list_lookup_singleton_Some in Hg as [Hi _]; lia].
        simpl in Hy. simplify_eq.
        apply (Hbefore g); [by eapply list_elem_of_lookup_2| |by left].
        destruct g; simplify_eq/=. by left.
Qed.

Lemma group_from_ok clusters rest window t out :
  grouping_ok sim window t clusters rest →
  StronglySorted time_le rest →
  group_from sim clusters rest window t = Some out →
  grouping_ok sim window t out [].
Proof.
  revert clusters. induction rest as [|item rest IH]; intros clusters Hok Hs Hg.
  - simpl in Hg. by simplify_eq.
  - rewrite group_from_cons in Hg.
    destruct (place sim clusters item window t) as [cs|] eqn:Hp; [|done].
    simpl in Hg. apply StronglySorted_inv in Hs as [Hs Hall].
    apply (IH cs); [|done..].
    eapply place_ok; [done| |done].
    intros y Hy. by eapply Forall_forall in Hall.
Qed.

Lemma group_items_ok items window_minutes t :
  ∃ groups, group_items sim items window_minutes t = Some groups
    ∧ grouping_ok sim (window_minutes * 60000000) t groups [].
Proof.
  destruct (clusters_partition_input_groups sim items window_minutes t)
    as (groups & Hg & _).
  exists groups. split; [done|]. unfold group_items in Hg.
  eapply group_from_ok; [| |exact Hg].
  - split; [constructor|constructor| |].
    + intros g x y Hg'. by apply elem_of_nil in Hg'.
    + intros i j g h x y _ Hg'. done.
  - apply Sorted_StronglySorted; [apply time_le_trans|].
    apply (sorted_by_Sorted published_at).
Qed.

End ClusterChains.

(** X11.  The clusterer forms its member lists for every input, and each
    list is a chain: a member is published no earlier than the member
    before it and at most the window later, and its title is similar enough
    to that member's.  The lists stand in the time order of their first
    members. *)
Theorem clusters_are_chains (sim : string → string → Q)
    (items : list NewsItem) (window_minutes : Z) (threshold : Q) :
  ∃ groups, group_items sim items window_minutes threshold = Some groups
    ∧ (∀ g i x y, g ∈ groups → g !! i = Some x → g !! S i = Some y →
         linked sim (window_minutes * 60000000) threshold x y)
    ∧ (∀ i j g h x y, i < j → groups !! i = Some g → groups !! j = Some h →
         head g = Some x → head h = Some y → time_le x y).
Proof.
  destruct (group_items_ok sim items window_minutes threshold)
    as (groups & Hg & [_ Hchain _ Hheads]).
  exists groups. split_and!; [done| |done].
  intros g i x y Hin Hx Hy. eapply Sorted_lookup_succ; [|done..].
  by eapply Forall_forall in Hchain.
Qed.

(** ** The clusterer: the time span of a cluster *)

Lemma first_best_ltb_min (x : Z) (l : list Z) :
  first_best Z.ltb x l ∈ x :: l
  ∧ ∀ y, y ∈ x :: l → (first_best Z.ltb x l ≤ y)%Z.
Proof.
  unfold first_best. revert x. induction l as [|z l IH]; intros x; simpl.
  - split; [left|]. intros y ->%list_elem_of_singleton. lia.
  - destruct (Z.ltb_spec z x) as [Hlt|Hge].
    + destruct (IH z) as [Hin Hall]. split; [by right|].
      intros y [->|Hy]%elem_of_cons; [|by apply Hall].
      specialize (Hall z ltac:(left)). lia.
    + destruct (IH x) as [Hin Hall]. split.
      { apply elem_of_cons in Hin as [->|Hin]; [left|by do 2 right]. }
      intros y [->|[->|Hy]%elem_of_cons]%elem_of_cons.
      * apply Hall. left.
      * specialize (Hall x ltac:(left)). lia.
      * apply Hall. by right.
Qed.

Lemma first_best_gtb_max (x : Z) (l : list Z) :
  first_best Z.gtb x l ∈ x :: l
  ∧ ∀ y, y ∈ x :: l → (y ≤ first_best Z.gtb x l)%Z.
Proof.
  unfold first_best. revert x. induction l as [|z l IH]; intros x; simpl.
  - split; [left|]. intros y ->%list_elem_of_singleton. lia.
  - rewrite Z.gtb_ltb. destruct (Z.ltb_spec x z) as [Hlt|Hge].
    + destruct (IH z) as [Hin Hall]. split; [by right|].
      intros y [->|Hy]%elem_of_cons; [|by apply Hall].
      specialize (Hall z ltac:(left)). lia.
    + destruct (IH x) as [Hin Hall]. split.
      { apply elem_of_cons in Hin as [->|Hin]; [left|by do 2 right]. }
      intros y [->|[->|Hy]%elem_of_cons]%elem_of_cons.
      * apply Hall. left.
      * specialize (Hall x ltac:(left)). lia.
      * apply Hall. by right.
Qed.

(** The time span of the cluster built from a list in time order. *)
Lemma cluster_of_span sim drawn_id now (first : NewsItem) (others : list NewsItem) :
  StronglySorted time_le (first :: others) →
  let c := cluster_of sim drawn_id now first others in
  first_seen c = published_at first
  ∧ published_at <$> last (first :: others) = Some (last_seen c)
  ∧ ∀ x, x ∈ first :: others →
      (first_seen c ≤ published_at x ≤ last_seen c)%Z.
Proof.
  intros Hs c. subst c. cbn [first_seen last_seen cluster_of].
  destruct (first_best_ltb_min (published_at first) (map published_at others))
    as [Hmin_in Hmin].
  destruct (first_best_gtb_max (published_at first) (map published_at others))
    as [Hmax_in Hmax].
  set (lo := first_best Z.ltb _ _) in *. set (hi := first_best Z.gtb _ _) in *.
  assert (Hmem : ∀ x, x ∈ first :: others → (lo ≤ published_at x ≤ hi)%Z).
  { intros x Hx.
    assert (published_at x ∈ published_at first :: map published_at others)
      by (by apply (list_elem_of_fmap_2 published_at (first :: others))).
    split; [by apply Hmin|by apply Hmax]. }
  split_and!; [| |done].
  - apply (list_elem_of_fmap_1 published_at (first :: others)) in Hmin_in
      as (x & Hlo & Hx).
    pose proof (Hmem first ltac:(left)) as [Hle _].
    apply StronglySorted_inv in Hs as [_ Hall].
    apply elem_of_cons in Hx as [->|Hx]; [done|].
    eapply Forall_forall in Hall; [|done]. unfold time_le in Hall. lia.
  - destruct (last (first :: others)) as [z|] eqn:Hz; [|by apply last_None in Hz].
    simpl. f_equal. pose proof Hz as [pre Hpre]%last_Some.
    pose proof (Hmem z ltac:(by eapply last_Some_elem_of)) as [_ Hle].
    apply (list_elem_of_fmap_1 published_at (first :: others)) in Hmax_in
      as (x & Hhi & Hx).
    rewrite Hpre in Hs, Hx.
    apply elem_of_app in Hx as [Hx|Hx%list_elem_of_singleton]; [|by subst x].
    pose proof (StronglySorted_app_1_elem_of _ _ _ x z Hs Hx ltac:(left)) as Hxz.
    unfold time_le in Hxz. lia.
Qed.

Lemma clusters_of_span sim w (groups : list (list NewsItem)) :
  Forall (λ g, g ≠ []) groups →
  Forall (StronglySorted time_le) groups →
  Forall2 (λ c g,
      published_at <$> head g = Some (first_seen c)
      ∧ published_at <$> last g = Some (last_seen c)
      ∧ (λ x, strip (title x)) <$> head g = Some (canonical_title c)
      ∧ ∀ x, x ∈ g → (first_seen c ≤ published_at x ≤ last_seen c)%Z)
    (clusters_of sim w groups) groups.
Proof.
  intros Hne. revert w. induction Hne as [|g groups Hg _ IH]; intros w Hs.
  - constructor.
  - apply Forall_cons_1 in Hs as [Hsg Hs].
    destruct g as [|first others]; [done|]. cbn [clusters_of].
    constructor; [|by apply IH].
    destruct (cluster_of_span sim (uuids w 0) (clock w 0) first others Hsg)
      as (Hfirst & Hlast & Hmem).
    split_and!; [|exact Hlast|reflexivity|exact Hmem]. rewrite Hfirst. reflexivity.
Qed.

(** X12.  A cluster record spans its members in time: [first_seen] is the
    time of the first member of its list and [last_seen] the time of the
    last one, every member lies between the two, and the canonical title is
    the title of the first, that is of an earliest, member. *)
Theorem cluster_time_span (sim : string → string → Q)
    (items : list NewsItem) (window_minutes : Z) (threshold : Q) (w : World) :
  ∃ groups out w',
    group_items sim items window_minutes threshold = Some groups
    ∧ cluster_news_items sim items window_minutes threshold w = Some (out, w')
    ∧ Forall2 (λ c g,
          published_at <$> head g = Some (first_seen c)
          ∧ published_at <$> last g = Some (last_seen c)
          ∧ (λ x, strip (title x)) <$> head g = Some (canonical_title c)
          ∧ ∀ x, x ∈ g → (first_seen c ≤ published_at x ≤ last_seen c)%Z)
        out groups.
Proof.
  destruct (group_items_ok sim items window_minutes threshold)
    as (groups & Hg & [Hne Hchain _ _]).
  destruct (for_each_build_cluster sim groups w Hne) as [w' Hw'].
  exists groups, (clusters_of sim w groups), w'. split_and!; [done| |].
  - unfold cluster_news_items, bind, lift. rewrite Hg. simpl. exact Hw'.
  - apply clusters_of_span; [done|].
    eapply Forall_impl; [exact Hchain|]. intros g. apply chain_time_sorted.
Qed.

(** ** The scorer: which members count *)

Lemma py_max_Z_same_elements (l l' : list Z) :
  (∀ x, x ∈ l ↔ x ∈ l') → py_max_Z l = py_max_Z l'.
Proof.
  intros Hsame. destruct l as [|x l], l' as [|x' l']; simpl.
  - done.
  - exfalso. eapply not_elem_of_nil, Hsame. left.
  - exfalso. eapply not_elem_of_nil, Hsame. left.
  - f_equal.
    destruct (first_best_gtb_max x l) as [Hin Hmax].
    destruct (first_best_gtb_max x' l') as [Hin' Hmax'].
    apply Hsame in Hin. apply Hsame in Hin'.
    apply Hmax' in Hin. apply Hmax in Hin'. lia.
Qed.

(** X13.  The score of a cluster depends on its members as a set only:
    neither their order nor a repeated member changes it, whatever the
    clock shows.  Two members of one source count as one source. *)
Theorem score_cluster_members_as_set (items items' : list NewsItem)
    (similarity : Q) (w : World) :
  (∀ x, x ∈ items ↔ x ∈ items') →
  score_cluster items similarity w = score_cluster items' similarity w.
Proof.
  intros Hsame. unfold score_cluster, cluster_freshness.
  assert (Hmax : py_max_Z (map published_at items) = py_max_Z (map published_at items')).
  { apply py_max_Z_same_elements. intros t.
    change (t ∈ published_at <$> items ↔ t ∈ published_at <$> items').
    rewrite !list_elem_of_fmap. by setoid_rewrite Hsame. }
  assert (Hsrc : (list_to_set (map source items) : gset string)
                 = list_to_set (map source items')).
  { apply set_eq. intros s. rewrite !elem_of_list_to_set.
    change (s ∈ source <$> items ↔ s ∈ source <$> items').
    rewrite !list_elem_of_fmap. by setoid_rewrite Hsame. }
  by rewrite Hmax, Hsrc.
Qed.

Lemma score_cluster_members_as_set_witness :
  score_cluster [Examples.report_a; Examples.report_b] 0.9
    (Examples.world (30 * Examples.minute) "id-")
  = score_cluster [Examples.report_b; Examples.report_a; Examples.report_b] 0.9
      (Examples.world (30 * Examples.minute) "id-").
Proof.
  apply score_cluster_members_as_set. intros x.
  rewrite !elem_of_cons, !elem_of_nil. tauto.
Defined.

(** ** The rate limiter *)

(** ** The rounding of floats *)

Lemma ilog2_le (q : Q) : (0 < q)%Q → (2 ^ PyFloat.ilog2 q <= q)%Q.
Proof.
  intros Hq. unfold PyFloat.ilog2.
  set (k := (Z.log2 (Qnum q) - Z.log2 (Z.pos (Qden q)))%Z).
  destruct (Qle_bool (2 ^ k) q) eqn:Hk; [by apply Qle_bool_iff|]. clear Hk.
  destruct q as [n d]. unfold Qlt in Hq. simpl in Hq. cbn [Qnum Qden] in k.
  assert (Hn : (0 < n)%Z) by lia.
  pose proof (Z.log2_spec n Hn) as [Hn1 _].
  pose proof (Z.log2_spec (Z.pos d) ltac:(lia)) as [_ Hd2].
  pose proof (Z.log2_nonneg n) as Ha. pose proof (Z.log2_nonneg (Z.pos d)) as Hb.
  set (a := Z.log2 n) in *. set (b := Z.log2 (Z.pos d)) in *.
  replace (k - 1)%Z with (a - (b + 1))%Z by (subst k; lia).
  rewrite Qpower_minus by done.
  rewrite <-(Zpower_Qpower 2 a), <-(Zpower_Qpower 2 (b + 1)) by lia.
  assert (HB : (0 < 2 ^ (b + 1))%Z) by (apply Z.pow_pos_nonneg; lia).
  assert (HA : (0 < 2 ^ a)%Z) by (apply Z.pow_pos_nonneg; lia).
  rewrite <-(Z2Pos.id (2 ^ (b + 1))) at 1 by done.
  rewrite <-Qmake_Qdiv. unfold Qle. simpl.
  rewrite Z2Pos.id by done.
  apply Z.mul_le_mono_nonneg; lia.
Qed.

Lemma round_binary64_above (x : Q) :
  (0 < x)%Q → (PyFloat.round_binary64 x <= x * (1 + (1 # 9007199254740992)))%Q.
Proof.
  intros Hx. unfold PyFloat.round_binary64.
  destruct (Qeq_bool x 0) eqn:H0.
  { apply Qeq_bool_iff in H0. lra. }
  clear H0.
  assert (Habs : Qabs x = x).
  { destruct x as [n d]. unfold Qlt in Hx. simpl in Hx. unfold Qabs.
    by rewrite Z.abs_eq by lia. }
  rewrite Habs. pose proof (ilog2_le x Hx) as Hlog.
  set (e := (PyFloat.ilog2 x - 52)%Z) in *.
  replace (PyFloat.ilog2 x) with (e + 52)%Z in Hlog by (subst e; lia).
  rewrite Qpower_plus in Hlog by done.
  assert (HP : (0 < 2 ^ e)%Q) by (by apply Qpower_0_lt).
  set (P := (2 ^ e)%Q) in *.
  change (2 ^ 52)%Q with (4503599627370496 # 1)%Q in Hlog.
  pose proof (round_half_even_near (x / P)) as [_ Hm].
  set (m := inject_Z (round_half_even (x / P))) in *.
  assert (Hprod : (m * P <= (x / P + (1 # 2)) * P)%Q).
  { apply Qmult_le_compat_r; [done|by apply Qlt_le_weak]. }
  assert (Hback : ((x / P + (1 # 2)) * P == x + (1 # 2) * P)%Q).
  { field. lra. }
  rewrite Hback in Hprod. lra.
Qed.

Lemma round_binary64_sign (x : Q) :
  (x <= 0)%Q → (PyFloat.round_binary64 x <= 0)%Q.
Proof.
  intros Hx. unfold PyFloat.round_binary64.
  destruct (Qeq_bool x 0) eqn:H0; [done|].
  set (e := (PyFloat.ilog2 (Qabs x) - 52)%Z).
  assert (HP : (0 < 2 ^ e)%Q) by (by apply Qpower_0_lt).
  set (P := (2 ^ e)%Q) in *.
  pose proof (round_half_even_near (x / P)) as [_ Hm].
  assert (Hs : (x / P <= 0)%Q).
  { unfold Qdiv. rewrite <-(Qmult_0_l (/ P)).
    apply Qmult_le_compat_r; [done|]. by apply Qlt_le_weak, Qinv_lt_0_compat. }
  assert (Hz : (round_half_even (x / P) ≤ 0)%Z).
  { assert (Hlt : (inject_Z (round_half_even (x / P)) < 1)%Q) by lra.
    unfold Qlt in Hlt. simpl in Hlt. lia. }
  assert (Hq : (inject_Z (round_half_even (x / P)) <= 0)%Q).
  { unfold Qle. simpl. lia. }
  rewrite <-(Qmult_0_l P). apply Qmult_le_compat_r; [done|by apply Qlt_le_weak].
Qed.

(** A float difference that reaches a positive bound comes from a positive
    exact difference that reaches the bound up to one rounding. *)
Lemma sub_reaches (a b bound : Q) :
  (0 < bound)%Q → (bound <= PyFloat.sub a b)%Q →
  (b < a)%Q ∧ (bound <= (a - b) * (1 + (1 # 9007199254740992)))%Q.
Proof.
  intros Hpos Hreach. unfold PyFloat.sub in Hreach.
  destruct (Qlt_le_dec 0 (a - b)) as [Hd|Hd].
  - split; [lra|]. pose proof (round_binary64_above (a - b) Hd). lra.
  - pose proof (round_binary64_sign (a - b) Hd). lra.
Qed.

Section RateLimitFacts.
Implicit Types (st : gmap string Q) (c : Call) (calls : list Call).

Lemma enforce_keeps_accepted st key t c ok st' :
  accepted_since st key t →
  enforce_rate_limit (call_key c) (call_interval c) (call_now c) st = (ok, st') →
  accepted_since st' key t.
Proof.
  intros (last & Hlast & Ht). unfold enforce_rate_limit.
  destruct (Qle_bool (call_interval c) 0) eqn:Hpos; [by intros [= _ <-]; exists last|].
  assert (Hlt : (0 < call_interval c)%Q).
  { apply Qnot_le_lt. intros H%Qle_bool_iff. congruence. }
  destruct (decide (call_key c = key)) as [Hk|Hk].
  - rewrite Hk, Hlast.
    destruct (Qle_bool (call_interval c) (PyFloat.sub (call_now c) last)) eqn:Hgap;
      intros [= _ <-]; [|by exists last].
    exists (call_now c). rewrite lookup_insert_eq. split; [done|].
    apply Qle_bool_iff in Hgap.
    destruct (sub_reaches _ _ _ Hlt Hgap) as [Hlater _]. lra.
  - assert (Hother : ∀ x, (<[call_key c := x]> st) !! key = Some last)
      by (intros x; by rewrite lookup_insert_ne).
    destruct (st !! call_key c) as [l|].
    + destruct (Qle_bool _ (PyFloat.sub (call_now c) l)); intros [= _ <-];
        by exists last.
    + intros [= _ <-]. by exists last.
Qed.

Lemma enforce_accepted_gap st key t c st' :
  accepted_since st key t → call_key c = key → (0 < call_interval c)%Q →
  enforce_rate_limit (call_key c) (call_interval c) (call_now c) st = (true, st') →
  (call_interval c <= (call_now c - t) * (1 + (1 # 9007199254740992)))%Q.
Proof.
  intros (last & Hlast & Ht) Hk Hpos. unfold enforce_rate_limit.
  destruct (Qle_bool (call_interval c) 0) eqn:Hle.
  { apply Qle_bool_iff in Hle. lra. }
  rewrite Hk, Hlast.
  destruct (Qle_bool (call_interval c) (PyFloat.sub (call_now c) last)) eqn:Hgap;
    [|done].
  intros _. apply Qle_bool_iff in Hgap.
  destruct (sub_reaches _ _ _ Hpos Hgap) as [_ Hreach]. lra.
Qed.

Lemma enforce_accepted_records st c st' :
  (0 < call_interval c)%Q →
  enforce_rate_limit (call_key c) (call_interval c) (call_now c) st = (true, st') →
  accepted_since st' (call_key c) (call_now c).
Proof.
  intros Hpos. unfold enforce_rate_limit.
  destruct (Qle_bool (call_interval c) 0) eqn:Hle.
  { apply Qle_bool_iff in Hle. lra. }
  assert (Hnew : accepted_since (<[call_key c := call_now c]> st) (call_key c) (call_now c)).
  { exists (call_now c). rewrite lookup_insert_eq. split; [done|apply Qle_refl]. }
  destruct (st !! call_key c) as [l|]; [|by intros [= <-]].
  destruct (Qle_bool _ (PyFloat.sub (call_now c) l)); [by intros [= <-]|done].
Qed.

Lemma outcomes_later_gap st calls key t j c :
  accepted_since st key t →
  calls !! j = Some c → call_key c = key → (0 < call_interval c)%Q →
  outcomes st calls !! j = Some true →
  (call_interval c <= (call_now c - t) * (1 + (1 # 9007199254740992)))%Q.
Proof.
  revert st j. induction calls as [|c0 calls IH]; intros st j Hacc Hc Hk Hpos Hok;
    [done|].
  simpl in Hok.
  destruct (enforce_rate_limit (call_key c0) (call_interval c0) (call_now c0) st)
    as [ok st'] eqn:Hstep.
  destruct j as [|j]; simpl in *.
  - simplify_eq. by eapply enforce_accepted_gap.
  - eapply (IH st' j); [|done..]. by eapply enforce_keeps_accepted.
Qed.

End RateLimitFacts.

(** X14.  In any sequence of calls of the limiter, two accepted calls of
    one key that both ask for a positive interval are the later call's
    interval apart on the clock up to the rounding of one float
    subtraction: the interval is at most the exact time between the two
    readings enlarged by the factor [1 + 2^-53], whatever the dictionary
    held before and whatever calls lie between them.  The readings of the
    accepted calls of a key increase. *)
Theorem rate_limit_spacing (last_call : gmap string Q) (calls : list Call)
    (i j : nat) (ci cj : Call) :
  i < j →
  calls !! i = Some ci → calls !! j = Some cj →
  call_key ci = call_key cj →
  (0 < call_interval ci)%Q → (0 < call_interval cj)%Q →
  outcomes last_call calls !! i = Some true →
  outcomes last_call calls !! j = Some true →
  (call_now ci < call_now cj)%Q
  ∧ (call_interval cj
     <= (call_now cj - call_now ci) * (1 + (1 # 9007199254740992)))%Q.
Proof.
  revert last_call i j. induction calls as [|c0 calls IH];
    intros st i j Hij Hi Hj Hk Hpi Hpj Hoi Hoj; [done|].
  simpl in Hoi, Hoj.
  destruct (enforce_rate_limit (call_key c0) (call_interval c0) (call_now c0) st)
    as [ok st'] eqn:Hstep.
  destruct j as [|j]; [lia|]. destruct i as [|i]; simpl in *.
  - simplify_eq.
    assert (Hgap : (call_interval cj
                    <= (call_now cj - call_now ci) * (1 + (1 # 9007199254740992)))%Q).
    { eapply (outcomes_later_gap st' calls (call_key cj)); [|done..].
      rewrite <-Hk. by apply (enforce_accepted_records st). }
    split; [|exact Hgap].
    destruct (Qlt_le_dec (call_now ci) (call_now cj)) as [?|Hle]; [done|].
    exfalso. lra.
  - apply (IH st' i j); [lia|done..].
Qed.

(** The readings 0.4 and 2.4 as floats: their float difference is 2.0, and
    the call at the second is accepted, although the exact difference is
    [2 - 2^-53]. *)
Lemma rate_limit_spacing_witness :
  outcomes ∅
    [ {| call_key := "a.example"; call_interval := 2;
         call_now := 3602879701896397 # 9007199254740992 |};
      {| call_key := "a.example"; call_interval := 2;
         call_now := 5404319552844595 # 2251799813685248 |} ]
  = [true; true]
  ∧ ¬ (2 <= (5404319552844595 # 2251799813685248)
            - (3602879701896397 # 9007199254740992))%Q
  ∧ (2 <= ((5404319552844595 # 2251799813685248)
           - (3602879701896397 # 9007199254740992))
          * (1 + (1 # 9007199254740992)))%Q.
Proof.
  split; [vm_compute; reflexivity|]. split; [vm_compute; by intros []|].
  apply (rate_limit_spacing ∅
           [ {| call_key := "a.example"; call_interval := 2;
                call_now := 3602879701896397 # 9007199254740992 |};
             {| call_key := "a.example"; call_interval := 2;
                call_now := 5404319552844595 # 2251799813685248 |} ]
           0 1
           {| call_key := "a.example"; call_interval := 2;
              call_now := 3602879701896397 # 9007199254740992 |}
           {| call_key := "a.example"; call_interval := 2;
              call_now := 5404319552844595 # 2251799813685248 |});
    [lia|reflexivity|reflexivity|reflexivity|reflexivity|reflexivity| |];
    vm_compute; reflexivity.
Defined.

(** ** The list of allowed origins *)

Lemma contains_lstrip (p : ascii → bool) (c : ascii) (s : string) :
  contains s c = false → contains (lstrip_with p s) c = false.
Proof.
  unfold contains. induction s as [|d s IH]; simpl; [done|].
  intros [Hd Hs]%orb_false_elim. destruct (p d); [by apply IH|].
  simpl. by rewrite Hd, Hs.
Qed.

Lemma contains_rstrip (p : ascii → bool) (c : ascii) (s : string) :
  contains s c = false → contains (rstrip_with p s) c = false.
Proof.
  unfold contains. induction s as [|d s IH]; simpl; [done|].
  intros [Hd Hs]%orb_false_elim. specialize (IH Hs).
  destruct (rstrip_with p s) as [|e r].
  - destruct (p d); simpl; [done|by rewrite Hd].
  - cbn [char_in] in *. by rewrite Hd, IH.
Qed.

Lemma split_not_nil (sep : ascii) (s : string) : split sep s ≠ [].
Proof.
  induction s as [|c s IH]; simpl; [done|].
  destruct (Ascii.eqb c sep); [done|]. by destruct (split sep s).
Qed.

Lemma split_pieces_free (sep : ascii) (s : string) :
  Forall (λ piece, contains piece sep = false) (split sep s).
Proof.
  induction s as [|c s IH]; simpl; [by repeat constructor|].
  destruct (Ascii.eqb c sep) eqn:Hc; [by constructor|].
  destruct (split sep s) as [|piece pieces].
  { repeat constructor. unfold contains. simpl. by rewrite Ascii.eqb_sym, Hc. }
  apply Forall_cons_1 in IH as [Hp Hps]. constructor; [|done].
  unfold contains in *. simpl. rewrite Hp, orb_false_r.
  rewrite Ascii.eqb_sym. exact Hc.
Qed.

Lemma split_piece_sep (sep : ascii) (piece rest : string) :
  contains piece sep = false →
  split sep (piece +:+ String sep rest) = piece :: split sep rest.
Proof.
  unfold contains. induction piece as [|c piece IH]; simpl.
  - intros _. by rewrite Ascii.eqb_refl.
  - intros [Hc Hp]%orb_false_elim. rewrite Ascii.eqb_sym, Hc.
    change (split sep (piece +:+ String sep rest)) with
      (split sep (piece +:+ String sep rest)).
    by rewrite (IH Hp).
Qed.

Lemma split_piece (sep : ascii) (piece : string) :
  contains piece sep = false → split sep piece = [piece].
Proof.
  unfold contains. induction piece as [|c piece IH]; simpl; [done|].
  intros [Hc Hp]%orb_false_elim. rewrite Ascii.eqb_sym, Hc. by rewrite (IH Hp).
Qed.

Lemma split_join (sep : ascii) (l : list string) :
  l ≠ [] → Forall (λ piece, contains piece sep = false) l →
  split sep (join (String sep EmptyString) l) = l.
Proof.
  induction l as [|p l IH]; [done|]. intros _ [Hp Hl]%Forall_cons_1.
  destruct l as [|q l].
  - simpl. by apply split_piece.
  - change (join (String sep EmptyString) (p :: q :: l))
      with (p +:+ String sep (join (String sep EmptyString) (q :: l))).
    rewrite split_piece_sep by done. f_equal. by apply IH.
Qed.

Lemma parse_str_unfold (s : string) :
  parse_allowed_origins (RawStr s)
  = map strip (filter (λ item, UrlLib.nonempty (strip item) = true) (split "," s)).
Proof.
  unfold parse_allowed_origins. destruct (String.eqb_spec s EmptyString) as [->|]; done.
Qed.

Lemma nonempty_true (s : string) : UrlLib.nonempty s = true ↔ s ≠ EmptyString.
Proof.
  unfold UrlLib.nonempty. destruct (String.eqb_spec s EmptyString); simpl; split; done.
Qed.

Lemma parse_clean_list (l : list string) :
  Forall clean_origin l →
  map strip (filter (λ item, UrlLib.nonempty (strip item) = true) l) = l.
Proof.
  induction 1 as [|o l (Hne & _ & Hs) _ IH]; [done|].
  rewrite filter_cons. rewrite decide_True by (rewrite Hs; by apply nonempty_true).
  simpl. by rewrite Hs, IH.
Qed.

Lemma parse_join_clean (l : list string) :
  Forall clean_origin l →
  parse_allowed_origins (RawStr (join "," l)) = l.
Proof.
  intros Hl. rewrite parse_str_unfold. destruct l as [|o l]; [done|].
  rewrite split_join; [by apply parse_clean_list|done|].
  eapply Forall_impl; [exact Hl|]. by intros x (_ & ? & _).
Qed.

Lemma parse_str_clean (s : string) :
  Forall clean_origin (parse_allowed_origins (RawStr s)).
Proof.
  rewrite parse_str_unfold. apply Forall_forall. intros o Ho.
  change (o ∈ strip <$> filter (λ item, UrlLib.nonempty (strip item) = true) (split "," s)) in Ho.
  apply list_elem_of_fmap in Ho as (item & -> & Hitem).
  apply list_elem_of_filter in Hitem as [Hne Hin]. split_and!.
  - by apply nonempty_true.
  - apply contains_rstrip, contains_lstrip.
    pose proof (split_pieces_free "," s) as Hfree.
    by eapply Forall_forall in Hfree.
  - apply (strip_idemp isspace).
Qed.

(** X15.  The origins read from a string are clean: none is empty, none
    holds a comma, none starts or ends with whitespace.  Reading is
    idempotent: the list read, written with commas and read again, is the
    same list. *)
Theorem parse_allowed_origins_clean (s : string) :
  Forall clean_origin (parse_allowed_origins (RawStr s))
  ∧ parse_allowed_origins (RawStr (join "," (parse_allowed_origins (RawStr s))))
    = parse_allowed_origins (RawStr s).
Proof.
  split; [apply parse_str_clean|apply parse_join_clean, parse_str_clean].
Qed.

(** X16.  A list of clean origins, written with commas between them, is
    read back as the same list; the empty list is written as the empty
    string. *)
Theorem parse_allowed_origins_round_trip (l : list string) :
  Forall clean_origin l →
  parse_allowed_origins (RawStr (join "," l)) = l.
Proof. apply parse_join_clean. Qed.

Lemma parse_allowed_origins_round_trip_witness :
  parse_allowed_origins (RawStr "https://a.example,https://b.example")
  = ["https://a.example"; "https://b.example"].
Proof.
  apply (parse_allowed_origins_round_trip ["https://a.example"; "https://b.example"]).
  repeat constructor; done.
Defined.

(** ** Request signatures and origins *)

(** The implementation of HMAC agrees with the test cases 1, 2 and 6 of
    RFC 4231. *)
Lemma hmac_test_vectors :
  Hmac.hexdigest (repeat 11%Z 20) (encode_utf8 "Hi There")
  = "b0344c61d8db38535ca8afceaf0bf12b881dc200c9833da726e9376c2e32cff7"
  ∧ Hmac.hexdigest (encode_utf8 "Jefe") (encode_utf8 "what do ya want for nothing?")
    = "5bdcc146bf60754e6a042426089575c75a003f089d2739839dec58b964ec3843"
  ∧ Hmac.hexdigest (repeat 170%Z 131)
      (encode_utf8 "Test Using Larger Than Block-Size Key - Hash Key First")
    = "60e431591ee0b67f0d8a26aacbf5b77f8e0bc6213728c5140546040f0ee37f54".
Proof. split_and!; vm_compute; reflexivity. Qed.

Lemma lower_hex_is_ascii (s : string) :
  all_chars is_lower_hex s = true → is_ascii s = true.
Proof.
  unfold is_ascii. induction s as [|c s IH]; simpl; [done|].
  intros [Hc Hs]%andb_prop. rewrite (IH Hs), andb_true_r.
  unfold is_lower_hex in Hc. unfold ord in *.
  destruct (N_of_ascii c) as [|p] eqn:Hn; [done|].
  apply N.ltb_lt. 
  repeat match goal with
         | H : (_ || _)%bool = true |- _ => apply orb_prop in H as [H|H]
         | H : (_ && _)%bool = true |- _ => apply andb_prop in H as [? H]
         | H : (_ <=? _)%N = true |- _ => apply N.leb_le in H
         end; lia.
Qed.

Lemma hmac_hexdigest_shape (key msg : list Z) :
  String.length (Hmac.hexdigest key msg) = 64
  ∧ all_chars is_lower_hex (Hmac.hexdigest key msg) = true.
Proof. apply hexdigest_shape. Qed.

Lemma verify_signature_cases (settings : Settings)
    (headers : gmap string string) (body : list Z) :
  let expected := Hmac.hexdigest (encode_utf8 (hmac_shared_secret settings)) body in
  match py_or (headers !! "x-signature") (headers !! "X-Signature") with
  | None => verify_signature settings headers body = inl SignatureMissing
  | Some s =>
      if String.eqb s EmptyString
      then verify_signature settings headers body = inl SignatureMissing
      else if is_ascii s
           then if String.eqb s expected
                then verify_signature settings headers body = inr tt
                else verify_signature settings headers body = inl SignatureMismatch
           else verify_signature settings headers body = inl TypeError
  end.
Proof.
  intros expected.
  destruct (hmac_hexdigest_shape (encode_utf8 (hmac_shared_secret settings)) body)
    as [_ Hhex].
  fold expected in Hhex.
  pose proof (lower_hex_is_ascii expected Hhex) as Hascii.
  unfold verify_signature. fold expected.
  destruct (py_or _ _) as [s|]; [|done]. unfold UrlLib.nonempty.
  destruct (String.eqb s EmptyString); [done|]. simpl.
  unfold compare_digest. rewrite Hascii, andb_true_r.
  destruct (is_ascii s); [|done]. by destruct (String.eqb s expected).
Qed.

Lemma verify_signature_ok (settings : Settings)
    (headers : gmap string string) (body : list Z) :
  verify_signature settings headers body = inr tt
  ↔ py_or (headers !! "x-signature") (headers !! "X-Signature")
    = Some (Hmac.hexdigest (encode_utf8 (hmac_shared_secret settings)) body).
Proof.
  pose proof (verify_signature_cases settings headers body) as Hcases.
  destruct (hmac_hexdigest_shape (encode_utf8 (hmac_shared_secret settings)) body)
    as [Hlen Hhex].
  pose proof (lower_hex_is_ascii _ Hhex) as Hascii.
  cbv zeta in Hcases.
  remember (Hmac.hexdigest (encode_utf8 (hmac_shared_secret settings)) body)
    as expected eqn:Hexp. clear Hexp.
  assert (Hne : expected ≠ EmptyString) by (by destruct expected).
  destruct (py_or _ _) as [s|]; [|by rewrite Hcases].
  destruct (String.eqb s EmptyString) eqn:Hempty.
  { apply String.eqb_eq in Hempty. rewrite Hcases. split; [done|]. congruence. }
  destruct (is_ascii s) eqn:Hs_ascii.
  - destruct (String.eqb s expected) eqn:Hse; rewrite Hcases.
    + apply String.eqb_eq in Hse. by subst s.
    + apply String.eqb_neq in Hse. split; [done|]. congruence.
  - rewrite Hcases. split; [done|]. intros [= Heq]. congruence.
Qed.

(** X17.  A request passes the signature check exactly when the signature
    it carries is the HMAC-SHA256 of its body under the shared secret, in
    lower-case hexadecimal: 64 characters, compared as they are.  The
    header [x-signature] is read before [X-Signature]; a request without a
    signature, or with an empty one, is reported as unsigned; a signature
    with a character outside ASCII ends the check with a type error, which
    is none of the two reported ones. *)
Theorem verify_signature_accepts (settings : Settings)
    (headers : gmap string string) (body : list Z) :
  let expected := Hmac.hexdigest (encode_utf8 (hmac_shared_secret settings)) body in
  let signature := py_or (headers !! "x-signature") (headers !! "X-Signature") in
  (verify_signature settings headers body = inr tt ↔ signature = Some expected)
  ∧ (verify_signature settings headers body = inl SignatureMissing
     ↔ signature = None ∨ signature = Some EmptyString)
  ∧ (verify_signature settings headers body = inl TypeError
     ↔ ∃ s, signature = Some s ∧ is_ascii s = false)
  ∧ String.length expected = 64
  ∧ all_chars is_lower_hex expected = true.
Proof.
  intros expected signature.
  destruct (hmac_hexdigest_shape (encode_utf8 (hmac_shared_secret settings)) body)
    as [Hlen Hhex].
  fold expected in Hlen, Hhex.
  pose proof (verify_signature_cases settings headers body) as Hcases.
  cbv zeta in Hcases. fold expected signature in Hcases.
  split_and!; [by apply verify_signature_ok| | |exact Hlen|exact Hhex].
  - destruct signature as [s|]; [|rewrite Hcases; split; auto].
    destruct (String.eqb_spec s EmptyString) as [->|Hs].
    { rewrite Hcases. split; auto. }
    assert (Hno : ¬ (Some s = None ∨ Some s = Some EmptyString))
      by (intros [?|[=]]; done).
    destruct (is_ascii s); [destruct (String.eqb s expected)|];
      rewrite Hcases; (split; [done|by intros ?%Hno]).
  - destruct signature as [s|];
      [|rewrite Hcases; split; [done|by intros (s & ? & _)]].
    destruct (String.eqb_spec s EmptyString) as [->|Hs].
    { rewrite Hcases. split; [done|]. by intros (s & [= <-] & ?). }
    destruct (is_ascii s) eqn:Hs_ascii.
    + assert (Hno : ¬ ∃ s', Some s = Some s' ∧ is_ascii s' = false)
        by (intros (s' & [= <-] & ?); congruence).
      destruct (String.eqb s expected); rewrite Hcases;
        (split; [done|by intros ?%Hno]).
    + rewrite Hcases. split; [|done]. intros _. by exists s.
Qed.

Lemma build_cors_headers_origin (settings : Settings) (origin : option string) :
  build_cors_headers settings origin !! "Access-Control-Allow-Origin"
  = match NewsFetch.truthy origin with
    | Some o => Some o
    | None => head (allowed_origins settings)
    end.
Proof.
  unfold build_cors_headers. destruct (NewsFetch.truthy origin) as [o|].
  - by rewrite lookup_insert_eq.
  - destruct (allowed_origins settings) as [|first rest]; simpl.
    + done.
    + by rewrite lookup_insert_eq.
Qed.

Lemma truthy_Some (origin : option string) (o : string) :
  NewsFetch.truthy origin = Some o → origin = Some o.
Proof.
  destruct origin as [t|]; simpl; [|done].
  by destruct (String.eqb t EmptyString); intros [= <-].
Qed.

(** X18.  With a list of allowed origins, the response of a handler always
    names one of them in [Access-Control-Allow-Origin]: the origin of the
    request when the list has it, the first of the list when the request
    has no origin or a refused one; and the request is refused, with status
    403, exactly when it has an origin that the list does not have.
    Without a list no request is refused and the header repeats whatever
    origin the request gives. *)
Theorem cors_origin_allowed (settings : Settings) (headers : gmap string string) :
  let sent := py_or (headers !! "origin") (headers !! "Origin") in
  let response := handler_cors settings headers in
  let allow_origin := response.2 !! "Access-Control-Allow-Origin" in
  (allowed_origins settings ≠ [] →
     (∃ o, allow_origin = Some o ∧ o ∈ allowed_origins settings)
     ∧ (response.1 = Some 403%Z ↔ ∃ o, sent = Some o ∧ o ∉ allowed_origins settings)
     ∧ (∀ o, sent = Some o → o ≠ EmptyString → o ∈ allowed_origins settings →
          allow_origin = Some o))
  ∧ (allowed_origins settings = [] →
     response.1 = None ∧ allow_origin = NewsFetch.truthy sent).
Proof.
  intros sent response allow_origin. subst response allow_origin.
  unfold handler_cors, validate_origin. fold sent. split.
  - intros Hne. destruct (allowed_origins settings) as [|first rest] eqn:Hallowed;
      [done|]. clear Hne.
    destruct sent as [o|].
    + destruct (bool_decide_reflect (o ∈ first :: rest)) as [Hin|Hout]; simpl.
      * rewrite build_cors_headers_origin, Hallowed. simpl. split_and!.
        -- destruct (String.eqb o EmptyString); eexists; (split; [done|]);
             [left|done].
        -- split; [done|]. by intros (o' & [= <-] & Ho').
        -- intros o' [= <-] Ho' _.
           destruct (String.eqb_spec o EmptyString); done.
      * rewrite build_cors_headers_origin, Hallowed. simpl. split_and!.
        -- exists first. split; [done|left].
        -- split; [|done]. intros _. by exists o.
        -- by intros o' [= <-] _ Ho'.
    + simpl. rewrite build_cors_headers_origin, Hallowed. simpl. split_and!.
      * exists first. split; [done|left].
      * split; [done|]. by intros (o' & ? & _).
      * done.
  - intros Hallowed. rewrite Hallowed. simpl.
    rewrite build_cors_headers_origin, Hallowed.
    split; [done|]. by destruct (NewsFetch.truthy sent).
Qed.

Lemma cors_origin_allowed_witness :
  (handler_cors
     {| hmac_shared_secret := "secret";
        allowed_origins := ["https://app.example"; "https://admin.example"] |}
     {[ "Origin" := "https://evil.example" ]}).1 = Some 403%Z.
Proof.
  apply (cors_origin_allowed
           {| hmac_shared_secret := "secret";
              allowed_origins := ["https://app.example"; "https://admin.example"] |}
           {[ "Origin" := "https://evil.example" ]}); [done|].
  exists "https://evil.example". split; [reflexivity|].
  intros Hin. repeat (apply elem_of_cons in Hin as [Hin|Hin]; [discriminate Hin|]).
  by apply elem_of_nil in Hin.
Defined.

(** ** The collector of one source *)

Lemma collect_from_take (src : string) (collected : list NewsItem)
    (entries : list (Entry * option Effects)) (since limit : Z) :
  (Z.of_nat (length collected) < Z.max 1 limit)%Z →
  collect_from src collected entries since limit
  = take (Z.to_nat (Z.max 1 limit)) (collected ++ hydrated_fresh src entries since).
Proof.
  unfold hydrated_fresh.
  revert collected. induction entries as [|[entry effects] entries IH];
    intros collected Hlen.
  - simpl. rewrite app_nil_r, take_ge; [done|lia].
  - cbn [collect_from]. rewrite filter_cons. cbn [fst].
    destruct (too_old entry since) eqn:Hold.
    { rewrite decide_False by done. by apply IH. }
    rewrite decide_True by done. cbn [omap list_omap fst snd].
    destruct (hydrated src entry effects) as [item|]; [|by apply IH].
    destruct (Z.leb_spec limit (Z.of_nat (length (collected ++ [item])))) as [Hle|Hgt].
    + rewrite length_app in Hle. simpl in Hle.
      set (more := omap _ _).
      replace (collected ++ item :: more) with ((collected ++ [item]) ++ more)
        by (by rewrite <-app_assoc).
      rewrite take_app_length'; [done|]. rewrite length_app. simpl. lia.
    + rewrite IH; [by rewrite <-app_assoc|].
      rewrite length_app in *. simpl in *. lia.
Qed.

(** X19.  The collector returns the first [limit] records that hydrating the
    entries not older than [since] gives, in the order of the feed, where
    [limit] is the smaller of the two maxima; entries whose hydration fails
    are passed over and do not count.  It stops after the first record when
    the limit is zero or negative, so that it never returns more than
    [max(1, limit)] records. *)
Theorem collect_source_news_takes_first (src : string)
    (entries : list (Entry * option Effects))
    (max_per_source max_items_per_source since : Z) :
  let limit := Z.min max_per_source max_items_per_source in
  collect_source_news src entries max_per_source max_items_per_source since
  = take (Z.to_nat (Z.max 1 limit)) (hydrated_fresh src entries since)
  ∧ (Z.of_nat (length (collect_source_news src entries max_per_source
                         max_items_per_source since)) ≤ Z.max 1 limit)%Z.
Proof.
  intros limit. unfold collect_source_news. fold limit.
  rewrite collect_from_take by (simpl; lia). simpl.
  split; [done|]. rewrite length_take. lia.
Qed.

Lemma hydrated_fresh_elem (src : string) (entries : list (Entry * option Effects))
    (since : Z) (item : NewsItem) :
  item ∈ hydrated_fresh src entries since →
  ∃ entry e, (entry, Some e) ∈ entries ∧ too_old entry since = false
             ∧ hydrate_entry src entry (page e) (now e) (fresh_id e) = Some item.
Proof.
  unfold hydrated_fresh. intros ([entry effects] & Hin & Hh)%list_elem_of_omap.
  apply list_elem_of_filter in Hin as [Hold Hin]. simpl in *.
  destruct effects as [e|]; [|done]. by exists entry, e.
Qed.

Lemma collect_source_news_elem (src : string)
    (entries : list (Entry * option Effects))
    (max_per_source max_items_per_source since : Z) (item : NewsItem) :
  item ∈ collect_source_news src entries max_per_source max_items_per_source since →
  ∃ entry e, (entry, Some e) ∈ entries ∧ too_old entry since = false
             ∧ hydrate_entry src entry (page e) (now e) (fresh_id e) = Some item.
Proof.
  unfold collect_source_news. rewrite collect_from_take by (simpl; lia). simpl.
  intros Hin%subseteq_take. by apply hydrated_fresh_elem.
Qed.

(** X20.  Every record that the collector returns carries the name of the
    source, without whitespace at its ends, and comes from an entry of the
    feed; it is published at [since] or later, unless its entry has no date:
    such a record is dated with the time of its fetch.  On a feed whose
    entries all have a date no record is older than [since]. *)
Theorem collected_records_fresh (src : string)
    (entries : list (Entry * option Effects))
    (max_per_source max_items_per_source since : Z) :
  let collected :=
    collect_source_news src entries max_per_source max_items_per_source since in
  Forall (λ item,
      source item = strip src
      ∧ ((since ≤ published_at item)%Z ∨ published_at item = fetched_at item)
      ∧ ∃ entry e, (entry, Some e) ∈ entries
          ∧ hydrate_entry src entry (page e) (now e) (fresh_id e) = Some item)
    collected
  ∧ (Forall (λ p, is_Some (entry_published_at p.1)) entries →
     Forall (λ item, (since ≤ published_at item)%Z) collected).
Proof.
  intros collected. subst collected.
  assert (Hall : ∀ item,
    item ∈ collect_source_news src entries max_per_source max_items_per_source since →
    ∃ entry e, (entry, Some e) ∈ entries
      ∧ hydrate_entry src entry (page e) (now e) (fresh_id e) = Some item
      ∧ source item = strip src
      ∧ match entry_published_at entry with
        | Some p => published_at item = p ∧ (since ≤ p)%Z
        | None => published_at item = fetched_at item
        end).
  { intros item (entry & e & Hin & Hold & Hh)%collect_source_news_elem.
    exists entry, e. split_and!; [done..| |].
    - unfold hydrate_entry in Hh.
      destruct (canonicalize_url (entry_url entry)); by simplify_eq/=.
    - unfold hydrate_entry in Hh. unfold too_old, ensure_utc in *.
      destruct (canonicalize_url (entry_url entry)); simplify_eq/=.
      destruct (entry_published_at entry) as [p|]; simpl; [|done].
      split; [done|]. by apply Z.ltb_ge. }
  split.
  - apply Forall_forall. intros item (entry & e & Hin & Hh & Hsrc & Hp)%Hall.
    split_and!; [done| |by exists entry, e].
    destruct (entry_published_at entry) as [p|]; [left|by right].
    destruct Hp as [-> ?]. done.
  - intros Hdated. apply Forall_forall.
    intros item (entry & e & Hin & Hh & Hsrc & Hp)%Hall.
    eapply Forall_forall in Hdated; [|exact Hin]. destruct Hdated as [p Hdate].
    simpl in Hdate. rewrite Hdate in Hp. destruct Hp as [-> ?]. done.
Qed.

(** ** Canonical URLs and fragments *)

Section StringFacts.
Implicit Types (a b s : string) (c d : ascii).

Lemma append_nil_l b : EmptyString +:+ b = b.
Proof. reflexivity. Qed.

Lemma append_cons d a b : String d a +:+ b = String d (a +:+ b).
Proof. reflexivity. Qed.

Lemma lstrip_with_app_stop (p : ascii → bool) a c b :
  p c = false →
  lstrip_with p (a +:+ String c b) = lstrip_with p a +:+ String c b.
Proof.
  intros Hc. induction a as [|d a IH]; simpl; [by rewrite Hc|].
  by destruct (p d).
Qed.

Lemma remove_char_app c a b :
  remove_char c (a +:+ b) = remove_char c a +:+ remove_char c b.
Proof.
  induction a as [|d a IH]; simpl; [done|].
  destruct (Ascii.eqb c d); simpl; by rewrite IH.
Qed.

Lemma remove_char_cons_ne c d s :
  Ascii.eqb c d = false → remove_char c (String d s) = String d (remove_char c s).
Proof. intros H. simpl. by rewrite H. Qed.

Lemma contains_remove_char c a x :
  contains a x = false → contains (remove_char c a) x = false.
Proof.
  unfold contains. induction a as [|d a IH]; simpl; [done|].
  intros [Hd Ha]%orb_false_elim. destruct (Ascii.eqb c d); [by apply IH|].
  simpl. by rewrite Hd, IH.
Qed.

Lemma contains_str_drop n a x :
  contains a x = false → contains (str_drop n a) x = false.
Proof.
  unfold contains. revert a. induction n as [|n IH]; intros a; [by destruct a|].
  destruct a as [|d a]; simpl; [done|].
  intros [_ Ha]%orb_false_elim. by apply IH.
Qed.

Lemma contains_str_take n a x :
  contains a x = false → contains (str_take n a) x = false.
Proof.
  unfold contains. revert a. induction n as [|n IH]; intros a; [by destruct a|].
  destruct a as [|d a]; simpl; [done|].
  intros [Hd Ha]%orb_false_elim. by rewrite Hd, IH.
Qed.

Lemma find_char_None c s : find_char c s = None ↔ contains s c = false.
Proof.
  unfold contains. induction s as [|d s IH]; simpl; [done|].
  destruct (Ascii.eqb c d); simpl; [done|].
  rewrite <-IH. by destruct (find_char c s).
Qed.

Lemma find_char_lt c s i : find_char c s = Some i → i < String.length s.
Proof.
  revert i. induction s as [|d s IH]; intros i; simpl; [done|].
  destruct (Ascii.eqb c d); [intros [= <-]; lia|].
  destruct (find_char c s) as [j|]; [|done]. intros [= <-].
  specialize (IH j eq_refl). lia.
Qed.

Lemma find_char_app_l c a b i :
  find_char c a = Some i → find_char c (a +:+ b) = Some i.
Proof.
  revert i. induction a as [|d a IH]; intros i; simpl; [done|].
  destruct (Ascii.eqb c d); [done|].
  destruct (find_char c a) as [j|]; [|done]. intros [= <-].
  by rewrite (IH j eq_refl).
Qed.

Lemma find_char_app_r c a b :
  find_char c a = None →
  find_char c (a +:+ b) = (λ k, String.length a + k) <$> find_char c b.
Proof.
  induction a as [|d a IH]; rewrite ?append_nil_l, ?append_cons; simpl.
  - intros _. destruct (find_char c b); reflexivity.
  - destruct (Ascii.eqb c d); [done|].
    destruct (find_char c a) as [j|] eqn:Hj; [done|]. intros _.
    rewrite IH by done. destruct (find_char c b); reflexivity.
Qed.

Lemma str_take_app_le n a b :
  n ≤ String.length a → str_take n (a +:+ b) = str_take n a.
Proof.
  revert a. induction n as [|n IH]; intros a Hn; [by destruct a, b|].
  destruct a as [|d a]; simpl in *; [lia|]. rewrite IH; [done|lia].
Qed.

Lemma str_drop_app_le n a b :
  n ≤ String.length a → str_drop n (a +:+ b) = str_drop n a +:+ b.
Proof.
  revert a. induction n as [|n IH]; intros a Hn; [by destruct a, b|].
  destruct a as [|d a]; simpl in *; [lia|]. rewrite IH; [done|lia].
Qed.

Lemma str_take_app_gt n a c b :
  String.length a < n →
  str_take n (a +:+ String c b)
  = a +:+ String c (str_take (n - String.length a - 1) b).
Proof.
  revert a. induction n as [|n IH]; intros a Hn; [lia|].
  destruct a as [|d a]; simpl in *.
  - by rewrite Nat.sub_0_r.
  - rewrite IH; [done|lia].
Qed.

Lemma str_take_all s : str_take (String.length s) s = s.
Proof. induction s as [|c s IH]; simpl; [done|]. by rewrite IH. Qed.

Lemma str_drop_all s : str_drop (String.length s) s = EmptyString.
Proof. induction s as [|c s IH]; simpl; done. Qed.

Lemma str_app_assoc a b s : (a +:+ b) +:+ s = a +:+ (b +:+ s).
Proof.
  induction a as [|c a IH]; [done|]. rewrite !append_cons. by rewrite IH.
Qed.

Lemma str_app_nil_r a : a +:+ EmptyString = a.
Proof.
  induction a as [|c a IH]; [done|]. rewrite append_cons. by rewrite IH.
Qed.

End StringFacts.

Section FragmentFacts.
Import UrlLib.
Implicit Types (a b u f : string).

(** The removal of tabs and line ends that opens [urlsplit]. *)
Local Notation "'unwrap' s" :=
  (remove_char "010" (remove_char "013" (remove_char "009" s)))
  (at level 10, s at level 9).

Lemma unwrap_fragment a f :
  unwrap (a +:+ String "#" f) = unwrap a +:+ String "#" (unwrap f).
Proof.
  rewrite (remove_char_app "009"), (remove_char_cons_ne "009" "#") by done.
  rewrite (remove_char_app "013"), (remove_char_cons_ne "013" "#") by done.
  by rewrite (remove_char_app "010"), (remove_char_cons_ne "010" "#") by done.
Qed.

Lemma split_scheme_rest_free u :
  contains u "#" = false → contains (split_scheme u).2 "#" = false.
Proof.
  intros Hu. unfold split_scheme.
  destruct (find_char ":" u) as [[|i]|]; [done| |done].
  destruct u as [|c0 u]; [done|].
  destruct (is_ascii_alpha c0 && all_chars is_scheme_char (str_take (S i) (String c0 u)));
    [|done].
  cbn [snd]. by apply contains_str_drop.
Qed.

Lemma split_scheme_fragment u f :
  contains u "#" = false →
  split_scheme (u +:+ String "#" f)
  = ((split_scheme u).1, (split_scheme u).2 +:+ String "#" f).
Proof.
  intros Hu. unfold split_scheme.
  destruct (find_char ":" u) as [i|] eqn:Hi.
  - rewrite (find_char_app_l _ _ _ _ Hi). pose proof (find_char_lt _ _ _ Hi) as Hlt.
    destruct i as [|i]; [done|].
    destruct u as [|c0 u]; [done|]. rewrite append_cons.
    rewrite <-(append_cons c0 u).
    rewrite (str_take_app_le (S i)) by lia.
    destruct (is_ascii_alpha c0 && all_chars is_scheme_char (str_take (S i) (String c0 u)));
      [|done].
    cbn [fst snd]. by rewrite (str_drop_app_le (S (S i))) by lia.
  - rewrite (find_char_app_r _ _ _ Hi).
    change (find_char ":" (String "#" f)) with (S <$> find_char ":" f).
    destruct (find_char ":" f) as [k|]; simpl; [|by destruct u].
    destruct u as [|c0 u]; [done|]. rewrite append_cons. simpl.
    rewrite (str_take_app_gt (String.length u + S k)) by lia.
    rewrite all_chars_app. cbn [all_chars].
    change (is_scheme_char "#") with false.
    by rewrite andb_false_l, !andb_false_r.
Qed.

Lemma find_delim_fragment a f : find_delim (a +:+ String "#" f) = find_delim a.
Proof.
  induction a as [|c a IH]; [done|]. rewrite append_cons. cbn [find_delim].
  destruct (char_in "/?#" c); [done|]. by rewrite IH.
Qed.

Lemma find_delim_le a : find_delim a ≤ String.length a.
Proof.
  induction a as [|c a IH]; [done|]. cbn [find_delim String.length].
  destruct (char_in "/?#" c); lia.
Qed.

Lemma prefix2_fragment a f :
  String.eqb (str_take 2 (a +:+ String "#" f)) "//" = String.eqb (str_take 2 a) "//".
Proof.
  destruct a as [|x [|y r]]; rewrite ?append_cons, ?append_nil_l.
  - by destruct f.
  - simpl. destruct (Ascii.eqb x "/"); done.
  - done.
Qed.

Lemma prefix2_length a :
  String.eqb (str_take 2 a) "//" = true → 2 ≤ String.length a.
Proof.
  destruct a as [|x [|y r]]; simpl; [done| |lia].
  destruct (Ascii.eqb x "/"); done.
Qed.

Lemma split_once_fragment a f :
  contains a "#" = false →
  split_once "#" (a +:+ String "#" f) = Some (a, f) ∧ split_once "#" a = None.
Proof.
  intros Ha%find_char_None. unfold split_once.
  rewrite (find_char_app_r _ _ _ Ha), Ha. simpl. split; [|done].
  rewrite Nat.add_0_r, str_take_app_le, str_take_all by done. do 2 f_equal.
  clear Ha. induction a as [|c a IH]; [done|]. rewrite append_cons. exact IH.
Qed.

Lemma urlsplit_fragment u f :
  contains u "#" = false →
  urlsplit (u +:+ String "#" f)
  = (λ r, (r.1.1.1.1, r.1.1.1.2, r.1.1.2, r.1.2, unwrap f)) <$> urlsplit u.
Proof.
  intros Hu. unfold urlsplit.
  rewrite (lstrip_with_app_stop is_c0_or_space _ "#") by done.
  rewrite unwrap_fragment.
  set (u2 := unwrap (lstrip_with is_c0_or_space u)).
  assert (Hu2 : contains u2 "#" = false).
  { subst u2. do 3 apply contains_remove_char. by apply contains_lstrip. }
  rewrite (split_scheme_fragment u2 (unwrap f) Hu2).
  pose proof (split_scheme_rest_free u2 Hu2) as Hu3.
  destruct (split_scheme u2) as [sch u3]. cbn [fst snd] in *.
  rewrite prefix2_fragment.
  destruct (String.eqb (str_take 2 u3) "//") eqn:Hpre.
  - apply prefix2_length in Hpre. unfold splitnetloc.
    rewrite (str_drop_app_le 2) by done.
    set (rest := str_drop 2 u3).
    assert (Hrest : contains rest "#" = false) by (by apply contains_str_drop).
    rewrite find_delim_fragment.
    pose proof (find_delim_le rest) as Hd.
    rewrite str_take_app_le, str_drop_app_le by done.
    destruct (contains (str_take (find_delim rest) rest) "[" 
              || contains (str_take (find_delim rest) rest) "]"); [done|].
    simpl.
    destruct (split_once_fragment (str_drop (find_delim rest) rest) (unwrap f))
      as [-> ->]; [by apply contains_str_drop|].
    by destruct (split_once "?" (str_drop (find_delim rest) rest)) as [[p q]|].
  - simpl. destruct (split_once_fragment u3 (unwrap f) Hu3) as [-> ->].
    by destruct (split_once "?" u3) as [[p q]|].
Qed.

Lemma canonicalize_url_fragment u f :
  contains u "#" = false →
  canonicalize_url (u +:+ String "#" f) = canonicalize_url u.
Proof.
  intros Hu. unfold canonicalize_url, urlparse.
  rewrite (urlsplit_fragment u f Hu).
  destruct (urlsplit u) as [[[[[sch nl] p] q] fr]|]; [|done].
  cbn [fmap option_fmap option_map mbind option_bind fst snd].
  destruct (str_in sch uses_params && contains p ";"); [|done].
  by destruct (splitparams p).
Qed.

End FragmentFacts.

(** X21.  The fragment of a URL does not count: a URL without [#] and the
    same URL followed by [#] and any text have the same canonical form, or
    fail to parse together.  Hence a record whose URL is that of a record
    already accepted, up to a fragment, is a duplicate of it, whatever the
    two titles and fingerprints. *)
Theorem canonicalize_url_ignores_fragment (sim : string → string → Q)
    (existing item : NewsItem) (threshold : Q) (f : string) :
  contains (url existing) "#" = false →
  canonicalize_url (url existing +:+ "#" +:+ f) = canonicalize_url (url existing)
  ∧ (url item = url existing +:+ "#" +:+ f →
     is_Some (canonicalize_url (url existing)) →
     duplicate_of sim existing item threshold = Some true
     ∧ dedupe_items sim [existing; item] threshold = Some [existing]).
Proof.
  intros Hu.
  assert (Heq : canonicalize_url (url existing +:+ "#" +:+ f)
                = canonicalize_url (url existing))
    by (by apply canonicalize_url_fragment).
  split; [done|]. intros Hitem [c Hc].
  assert (Hdup : duplicate_of sim existing item threshold = Some true).
  { apply (duplicate_of_same_url sim existing item threshold c); [done|].
    by rewrite Hitem, Heq. }
  split; [done|]. unfold dedupe_items.
  cbn [dedupe_from scan mbind option_bind app]. rewrite Hdup. reflexivity.
Qed.

Lemma canonicalize_url_ignores_fragment_witness :
  canonicalize_url "https://a.example/1#comments" = canonicalize_url "https://a.example/1".
Proof.
  apply (canonicalize_url_ignores_fragment RapidFuzz.token_sort_ratio
           Examples.report_a Examples.report_a 1 "comments").
  reflexivity.
Defined.

Section NoFragment.
Import UrlLib.
Implicit Types (a b s : string) (c d : ascii).

Lemma contains_app a b c : contains (a +:+ b) c = contains a c || contains b c.
Proof.
  unfold contains. induction a as [|d a IH]; [done|].
  rewrite append_cons. cbn [char_in]. by rewrite IH, orb_assoc.
Qed.

Lemma lower_char_hash d : Ascii.eqb "#" (lower_char d) = Ascii.eqb "#" d.
Proof. by destruct d as [[] [] [] [] [] [] [] []]. Qed.

Lemma contains_lower_hash s : contains (lower s) "#" = contains s "#".
Proof.
  unfold contains, lower. induction s as [|d s IH]; [done|].
  cbn [map_chars char_in]. by rewrite lower_char_hash, IH.
Qed.

Lemma all_chars_contains (p : ascii → bool) s c :
  all_chars p s = true → p c = false → contains s c = false.
Proof.
  unfold contains. intros Hs Hc. induction s as [|d s IH]; [done|].
  cbn [all_chars char_in] in *. apply andb_prop in Hs as [Hd Hs].
  rewrite (IH Hs), orb_false_r.
  destruct (Ascii.eqb_spec c d) as [->|]; [congruence|done].
Qed.

Lemma find_delim_take_free s : contains (str_take (find_delim s) s) "#" = false.
Proof.
  unfold contains. induction s as [|d s IH]; [done|]. cbn [find_delim].
  destruct (char_in "/?#" d) eqn:Hd; [done|].
  cbn [str_take char_in]. rewrite IH, orb_false_r.
  cbn [char_in] in Hd. rewrite Ascii.eqb_sym.
  by repeat (apply orb_false_elim in Hd as [? Hd]).
Qed.

Lemma find_char_take_free c s i :
  find_char c s = Some i → contains (str_take i s) c = false.
Proof.
  unfold contains. revert i. induction s as [|d s IH]; intros i; [done|].
  cbn [find_char]. destruct (Ascii.eqb c d) eqn:Hd; [by intros [= <-]|].
  destruct (find_char c s) as [j|]; [|done]. intros [= <-].
  cbn [str_take char_in]. by rewrite Hd, (IH j eq_refl).
Qed.

(** The part before the first [c], or all of [s] without a [c]. *)
Lemma before_first_free c s x :
  contains s x = false →
  contains (match split_once c s with Some p => p | None => (s, EmptyString) end).1 x = false
  ∧ contains (match split_once c s with Some p => p | None => (s, EmptyString) end).2 x = false.
Proof.
  intros Hs. unfold split_once.
  destruct (find_char c s) as [i|]; cbn [mbind option_bind fst snd].
  - split; [by apply contains_str_take|by apply contains_str_drop].
  - done.
Qed.

Lemma before_first_hash s :
  contains (match split_once "#" s with Some p => p | None => (s, EmptyString) end).1 "#"
  = false.
Proof.
  unfold split_once.
  destruct (find_char "#" s) as [i|] eqn:Hi; cbn [mbind option_bind fst snd].
  - by eapply find_char_take_free.
  - by apply find_char_None.
Qed.

Lemma split_scheme_scheme_free u : contains (split_scheme u).1 "#" = false.
Proof.
  unfold split_scheme. destruct (find_char ":" u) as [[|i]|]; [done| |done].
  destruct u as [|c0 u]; [done|].
  destruct (is_ascii_alpha c0) eqn:Hc0; [|done].
  destruct (all_chars is_scheme_char (str_take (S i) (String c0 u))) eqn:Hall; [|done].
  cbn [andb fst]. rewrite contains_lower_hash.
  by apply (all_chars_contains is_scheme_char).
Qed.

Lemma urlsplit_free u sch nl p q fr :
  urlsplit u = Some (sch, nl, p, q, fr) →
  contains sch "#" = false ∧ contains nl "#" = false
  ∧ contains p "#" = false ∧ contains q "#" = false.
Proof.
  unfold urlsplit.
  set (u2 := remove_char _ _).
  pose proof (split_scheme_scheme_free u2) as Hsch.
  destruct (split_scheme u2) as [sch' u3]. cbn [fst] in Hsch.
  set (located := if String.eqb (str_take 2 u3) "//" then _ else _).
  assert (Hloc : ∀ nl' u4, located = Some (nl', u4) → contains nl' "#" = false).
  { subst located. intros nl' u4.
    destruct (String.eqb (str_take 2 u3) "//"); [|by intros [= <- _]].
    unfold splitnetloc.
    destruct (contains _ "[" || contains _ "]"); [done|]. intros [= <- _].
    apply find_delim_take_free. }
  destruct located as [[nl' u4]|]; [|done].
  specialize (Hloc nl' u4 eq_refl). cbn [mbind option_bind].
  pose proof (before_first_hash u4) as H5.
  destruct (match split_once "#" u4 with Some p0 => p0 | None => (u4, EmptyString) end)
    as [u5 frag]. cbn [fst] in H5.
  pose proof (before_first_free "?" u5 "#" H5) as [H6 Hq].
  destruct (match split_once "?" u5 with Some p0 => p0 | None => (u5, EmptyString) end)
    as [u6 qry]. cbn [fst snd] in *.
  by intros [= <- <- <- <- _].
Qed.

Lemma splitparams_free p : contains p "#" = false → contains (splitparams p).1 "#" = false.
Proof.
  intros Hp. unfold splitparams.
  destruct (rfind_char "/" p) as [j|].
  - destruct (find_char ";" (str_drop j p)); [|done]. by apply contains_str_take.
  - destruct (find_char ";" p); by apply contains_str_take.
Qed.

Lemma urlunsplit_free sch nl p q :
  contains sch "#" = false → contains nl "#" = false →
  contains p "#" = false → contains q "#" = false →
  contains (urlunsplit sch nl p q EmptyString) "#" = false.
Proof.
  intros Hsch Hnl Hp Hq. unfold urlunsplit.
  set (located := if nonempty nl || _ then _ else _).
  assert (H1 : contains located "#" = false).
  { subst located. destruct (nonempty nl || _); [|done].
    rewrite !contains_app, Hnl.
    by destruct (nonempty p && _); rewrite ?contains_app, Hp. }
  set (schemed := if nonempty sch then _ else _).
  assert (H2 : contains schemed "#" = false).
  { subst schemed. destruct (nonempty sch); [|done].
    by rewrite !contains_app, Hsch, H1. }
  cbn [nonempty String.eqb negb]. clearbody schemed.
  destruct (nonempty q); [|done]. by rewrite !contains_app, H2, Hq.
Qed.

Lemma canonicalize_url_free u (canonical : string) :
  canonicalize_url u = Some canonical → contains canonical "#" = false.
Proof.
  unfold canonicalize_url, urlparse.
  destruct (urlsplit u) as [[[[[sch nl] p] q] fr]|] eqn:Hsplit; [|done].
  apply urlsplit_free in Hsplit as (Hsch & Hnl & Hp & Hq).
  cbn [mbind option_bind].
  pose proof (splitparams_free p Hp) as Hparams.
  set (parts := if str_in sch uses_params && contains p ";" then _ else _).
  assert (Hparts : contains parts.1 "#" = false)
    by (subst parts; by destruct (_ && _)).
  destruct parts as [u' prm]. cbn [fst] in Hparts.
  cbn [mbind option_bind scheme netloc path query]. intros [= <-].
  unfold urlunparse. cbn [nonempty String.eqb negb].
  apply urlunsplit_free.
  - by destruct (nonempty sch).
  - destruct (startswith "www." (lower nl)).
    + apply (contains_str_drop 4 (lower nl)). by rewrite contains_lower_hash.
    + by rewrite contains_lower_hash.
  - by destruct (nonempty u').
  - done.
Qed.

End NoFragment.

(** X22.  A canonical URL holds no [#]: the fragment of the URL is dropped
    and nothing of it is left, whatever the URL. *)
Theorem canonical_url_has_no_fragment (u c : string) :
  canonicalize_url u = Some c → contains c "#" = false.
Proof. apply canonicalize_url_free. Qed.

Lemma canonical_url_has_no_fragment_witness :
  contains "http://example.com/a" "#" = false.
Proof.
  apply (canonical_url_has_no_fragment "http://WWW.Example.com/a#frag").
  reflexivity.
Defined.

(** ** The opening of the handlers *)

(** X23.  A handler goes on to the work of its endpoint exactly when the
    method of the request is POST, friendly to case and with POST as the
    default, the origin is accepted, and the request carries the HMAC of its
    body; it then answers with the headers built for the origin.  A
    preflight request, of method OPTIONS, from an accepted origin is
    answered with status 204 without a look at its signature.  The only
    statuses of an answer given at once are 403, 204, 405 and 401. *)
Theorem handler_gate_requires_signature (settings : Settings)
    (method : option string) (headers : gmap string string) (body : string) :
  let m := upper (default "POST" (NewsFetch.truthy method)) in
  let gate := handler_gate settings method headers body in
  (∀ cors, gate = inr (Proceed cors)
     ↔ m = "POST"
       ∧ py_or (headers !! "x-signature") (headers !! "X-Signature")
         = Some (Hmac.hexdigest (encode_utf8 (hmac_shared_secret settings))
                   (encode_utf8 body))
       ∧ ∃ origin, validate_origin settings headers = inr origin
                   ∧ cors = build_cors_headers settings origin)
  ∧ (∀ origin, m = "OPTIONS" → validate_origin settings headers = inr origin →
       gate = inr (Respond 204 (build_cors_headers settings origin)))
  ∧ (∀ status response_headers, gate = inr (Respond status response_headers) →
       status ∈ [403; 204; 405; 401]%Z).
Proof.
  intros m gate. subst gate. unfold handler_gate. fold m.
  pose proof (verify_signature_ok settings headers (encode_utf8 body)) as Hok.
  destruct (validate_origin settings headers) as [e|origin].
  { split_and!.
    - intros cors. split; [done|]. by intros (_ & _ & origin & ? & _).
    - done.
    - intros status h [= <- _]. solve [repeat first [by left|right]]. }
  destruct (String.eqb m "OPTIONS") eqn:Hopt.
  { apply String.eqb_eq in Hopt. split_and!.
    - intros cors. split; [done|]. intros (Hm & _). congruence.
    - by intros origin' _ [= <-].
    - intros status h [= <- _]. solve [repeat first [by left|right]]. }
  apply String.eqb_neq in Hopt.
  destruct (String.eqb m "POST") eqn:Hpost; cbn [negb].
  2:{ apply String.eqb_neq in Hpost. split_and!.
      - intros cors. split; [done|]. by intros (Hm & _).
      - done.
      - intros status h [= <- _]. solve [repeat first [by left|right]]. }
  apply String.eqb_eq in Hpost.
  destruct (verify_signature settings headers (encode_utf8 body)) as [e|[]] eqn:Hv.
  - assert (Hno : py_or (headers !! "x-signature") (headers !! "X-Signature")
                  ≠ Some (Hmac.hexdigest (encode_utf8 (hmac_shared_secret settings))
                            (encode_utf8 body)))
      by (intros H; by apply Hok in H).
    split_and!.
    + intros cors. split; [by destruct e|]. by intros (_ & ? & _).
    + done.
    + intros status h. destruct e; intros [= <- _]; solve [repeat first [by left|right]].
  - split_and!.
    + intros cors. split.
      * intros [= <-]. split_and!; [done|by apply Hok|by exists origin].
      * intros (_ & _ & origin' & [= <-] & ->). done.
    + done.
    + done.
Qed.

(** ** The scorer: the more similar, the higher *)

Lemma round_half_even_mono (x y : Q) :
  (x <= y)%Q → (round_half_even x ≤ round_half_even y)%Z.
Proof.
  intros Hxy. pose proof (Qfloor_resp_le x y Hxy) as Hf.
  pose proof (Qfloor_le x) as Hx1. pose proof (Qlt_floor x) as Hx2.
  pose proof (Qfloor_le y) as Hy1. pose proof (Qlt_floor y) as Hy2.
  unfold round_half_even.
  set (f := Qfloor x) in *. set (g := Qfloor y) in *.
  assert (Hlow : ∀ q h, (h ≤ match (q - inject_Z h ?= 1 # 2)%Q with
                             | Eq => if Z.even h then h else h + 1
                             | Lt => h
                             | Gt => h + 1
                             end)%Z).
  { intros q h. destruct (_ ?= _)%Q; [destruct (Z.even h)|..]; lia. }
  assert (Hhigh : ∀ q h, (match (q - inject_Z h ?= 1 # 2)%Q with
                          | Eq => if Z.even h then h else h + 1
                          | Lt => h
                          | Gt => h + 1
                          end ≤ h + 1)%Z).
  { intros q h. destruct (_ ?= _)%Q; [destruct (Z.even h)|..]; lia. }
  destruct (Z.eq_dec f g) as [Heq|Hne].
  - rewrite <-Heq. clear Hlow Hhigh.
    destruct (Qcompare_spec (x - inject_Z f) (1 # 2)) as [Hx|Hx|Hx];
      destruct (Qcompare_spec (y - inject_Z f) (1 # 2)) as [Hy|Hy|Hy];
      try (destruct (Z.even f)); try lia; exfalso; lra.
  - specialize (Hlow y g). specialize (Hhigh x f). lia.
Qed.

Lemma py_round_mono (x y : Q) (ndigits : nat) :
  (x <= y)%Q → (py_round x ndigits <= py_round y ndigits)%Q.
Proof.
  intros Hxy. unfold py_round.
  assert (Hp : (0 < 10 ^ Z.of_nat ndigits)%Z) by (apply Z.pow_pos_nonneg; lia).
  set (p := (10 ^ Z.of_nat ndigits)%Z) in *.
  assert (Hscaled : (x * inject_Z p <= y * inject_Z p)%Q).
  { apply Qmult_le_compat_r; [done|]. unfold Qle. simpl. lia. }
  apply round_half_even_mono in Hscaled.
  unfold Qle. cbn [Qnum Qden].
  apply Z.mul_le_mono_nonneg_r; [lia|done].
Qed.

(** X24.  The scorer always returns, and of two similarities given for the
    same members in the same world the greater one never gets the smaller
    score. *)
Theorem score_cluster_monotone (items : list NewsItem) (s s' : Q) (w : World) :
  (s <= s')%Q →
  ∃ r r' w',
    score_cluster items s w = Some (r, w')
    ∧ score_cluster items s' w = Some (r', w')
    ∧ (r <= r')%Q.
Proof.
  intros Hs. unfold score_cluster, cluster_freshness.
  assert (Hraw : ∀ c d : Q, (0.6 * s + c + d <= 0.6 * s' + c + d)%Q).
  { intros c d. do 2 apply Qplus_le_l. apply Qmult_le_l; [reflexivity|done]. }
  destruct (py_max_Z (map published_at items)) as [latest|];
    do 3 eexists; (split_and!; [reflexivity|reflexivity|]);
    apply py_round_mono, Hraw.
Qed.

Lemma score_cluster_monotone_witness :
  ∃ r r' w',
    score_cluster [Examples.report_a; Examples.report_b] 0.5
      (Examples.world (30 * Examples.minute) "id-") = Some (r, w')
    ∧ score_cluster [Examples.report_a; Examples.report_b] 0.9
        (Examples.world (30 * Examples.minute) "id-") = Some (r', w')
    ∧ (r <= r')%Q.
Proof.
  apply (score_cluster_monotone [Examples.report_a; Examples.report_b] 0.5 0.9).
  vm_compute. intros [=].
Defined.

(** ** The granularities of the market endpoint *)

(** X25.  A granularity that the request validator accepts is known to
    every table that the fetchers index with it, so that none of the
    look-ups raises: Binance and CoinMarketCap take the granularity as it
    is, and Bybit takes the length of the interval in minutes, written in
    decimal, which is a positive number. *)
Theorem validated_granularity_is_known (value granularity : string) :
  validate_granularity value = Some granularity →
  granularity = value
  ∧ BINANCE_INTERVALS !! granularity = Some granularity
  ∧ CMC_INTERVALS !! granularity = Some granularity
  ∧ ∃ minutes, granularity_to_minutes granularity = Some minutes
      ∧ (0 < minutes)%Z
      ∧ BYBIT_INTERVALS !! granularity = Some (pretty minutes).
Proof.
  unfold validate_granularity.
  destruct (bool_decide_reflect (value ∈ TIMEFRAME_CHOICES)) as [Hin|]; [|done].
  intros [= <-]. split; [done|].
  unfold TIMEFRAME_CHOICES in Hin.
  rewrite !elem_of_union, !elem_of_singleton in Hin.
  destruct Hin as [[[[[->| ->]| ->]| ->]| ->]| ->];
    (split_and!; [reflexivity|reflexivity|]);
    eexists; (split_and!; [reflexivity|reflexivity|]);
    vm_compute; reflexivity.
Qed.

Lemma validated_granularity_is_known_witness :
  BYBIT_INTERVALS !! "4h" = Some "240".
Proof.
  destruct (validated_granularity_is_known "4h" "4h" eq_refl)
    as (_ & _ & _ & minutes & Hminutes & _ & Hbybit).
  rewrite Hbybit. by injection Hminutes as <-.
Defined.
